(** * Device-tracker scanners: DD-WRT router poll and nmap sweep

    A shallow embedding of
    [homeassistant/components/device_tracker/ddwrt.py] and
    [homeassistant/components/device_tracker/nmap_tracker.py].

    Data.  A Python [str] is a [string] and is read as ASCII text: the
    character classes, [strip] and [upper] below are those of Python on
    code points under 128.  Dictionaries are [gmap]s.  A [datetime] and a
    [timedelta] are [Z] numbers of microseconds.

    Effects.  Scanner methods run in a state-and-exception monad over a
    heap that holds the scanner object, the outside world and a log of
    the calls made to it.  The world answers through an [Env]: the clock,
    [requests.get], [PortScanner.scan] and the [arp] tool.

    Left out.  Logging; the lock of the router poll (calls are taken one
    after the other); the construction of the [PortScanner] and the start
    of the [arp] process, both taken to succeed. *)

From Stdlib Require Import ZArith Ascii String List Lia Bool.
From stdpp Require Import base option list gmap strings fin_maps.

Local Open Scope Z_scope.

(** String concatenation unfolds on a constructor, as for lists. *)
#[local] Arguments String.append !_ _ : simpl nomatch.

#[local] Set Warnings "-clear-no-such-hyp".

(** ** Python string primitives *)

Module PyStr.

(** Characters used by the two modules' literals. *)
Definition squote : ascii := "'"%char.
Definition dquote : ascii := "034"%char.
Definition comma : ascii := ","%char.
Definition colon : ascii := ":"%char.
Definition lbrace : ascii := "{"%char.
Definition rbrace : ascii := "}"%char.

Definition code (c : ascii) : nat := nat_of_ascii c.

Definition in_range (lo hi : nat) (c : ascii) : bool :=
  (Nat.leb lo (code c) && Nat.leb (code c) hi)%bool.

(** [str.isspace] on one character: TAB..CR, FS..US and SPACE. *)
Definition is_space (c : ascii) : bool :=
  (in_range 9 13 c || in_range 28 32 c)%bool.

Definition is_digit (c : ascii) : bool := in_range 48 57 c.
Definition is_upper (c : ascii) : bool := in_range 65 90 c.
Definition is_lower (c : ascii) : bool := in_range 97 122 c.

(** The class [\w]: letters, digits and the underscore. *)
Definition is_word (c : ascii) : bool :=
  (is_digit c || is_upper c || is_lower c || Ascii.eqb c "_"%char)%bool.

(** The class [[0-9A-Fa-f]]. *)
Definition is_hex (c : ascii) : bool :=
  (is_digit c || in_range 65 70 c || in_range 97 102 c)%bool.

(** The class [[^\}]]. *)
Definition not_rbrace (c : ascii) : bool := negb (Ascii.eqb c rbrace).

Definition upper_char (c : ascii) : ascii :=
  if is_lower c then ascii_of_nat (code c - 32) else c.

(** [str.upper]. *)
Fixpoint upper (s : string) : string :=
  match s with
  | EmptyString => EmptyString
  | String c s' => String (upper_char c) (upper s')
  end.

(** [str.lstrip]: drop the leading characters that satisfy [p]. *)
Fixpoint lstrip (p : ascii -> bool) (s : string) : string :=
  match s with
  | EmptyString => EmptyString
  | String c s' => if p c then lstrip p s' else s
  end.

(** [str.rstrip]: drop the trailing characters that satisfy [p]. *)
Fixpoint rstrip (p : ascii -> bool) (s : string) : string :=
  match s with
  | EmptyString => EmptyString
  | String c s' =>
      match rstrip p s' with
      | EmptyString => if p c then EmptyString else String c EmptyString
      | r => String c r
      end
  end.

(** [s.strip()] *)
Definition strip (s : string) : string := rstrip is_space (lstrip is_space s).

(** [s.strip(ch)] for a one-character argument. *)
Definition strip_char (ch : ascii) (s : string) : string :=
  rstrip (Ascii.eqb ch) (lstrip (Ascii.eqb ch) s).

(** [s.startswith(p)] *)
Fixpoint startswith (p s : string) : bool :=
  match p, s with
  | EmptyString, _ => true
  | String a p', String b s' => (Ascii.eqb a b && startswith p' s')%bool
  | String _ _, EmptyString => false
  end.

(** [s.split(sep)] for a non-empty [sep]: the text is read left to right;
    [cur] is the piece being collected and [skip] counts the characters of
    a separator that was recognised and are still to be passed over. *)
Fixpoint split_go (sep s : string) (skip : nat) (cur : string) : list string :=
  match s with
  | EmptyString => [cur]
  | String c s' =>
      match skip with
      | S k => split_go sep s' k cur
      | O =>
          if startswith sep s
          then cur :: split_go sep s' (String.length sep - 1) EmptyString
          else split_go sep s' 0 (cur +:+ String c EmptyString)
      end
  end.

Definition split (sep s : string) : list string := split_go sep s 0 EmptyString.

(** [sep.join(l)] *)
Definition join (sep : string) (l : list string) : string := String.concat sep l.

End PyStr.

(** ** The two regular expressions *)

Module Regex.
Import PyStr.

(** [span p s]: the longest prefix of [s] whose characters satisfy [p],
    and the rest; the greedy reading of a starred character class. *)
Fixpoint span (p : ascii -> bool) (s : string) : string * string :=
  match s with
  | EmptyString => (EmptyString, EmptyString)
  | String c s' =>
      if p c then let '(a, b) := span p s' in (String c a, b)
      else (EmptyString, s)
  end.

(** One attempt of [_DDWRT_DATA_REGEX] at the start of [s]: an opening
    brace, group 1 = one or more [\w], two colons, group 2 = any number of
    characters other than the closing brace, a closing brace.  The result
    is the two groups and the text after the match.  Both repetitions
    are greedy; a shorter repetition can never be followed by the literal
    that comes next (see [ddwrt_match_at_spec]), so no alternative is
    tried after the longest one. *)
Definition ddwrt_match_at (s : string) : option (string * string * string) :=
  match s with
  | String c s1 =>
      if Ascii.eqb c lbrace then
        let '(key, s2) := span is_word s1 in
        match key, s2 with
        | String _ _, String c1 (String c2 s3) =>
            if (Ascii.eqb c1 colon && Ascii.eqb c2 colon)%bool then
              let '(val, s4) := span not_rbrace s3 in
              match s4 with
              | String _ rest => Some (key, val, rest)
              | EmptyString => None
              end
            else None
        | _, _ => None
        end
      else None
  | EmptyString => None
  end.

(** [_DDWRT_DATA_REGEX.findall]: matches are looked for from left to
    right; after a match the search resumes behind it.  [skip] counts the
    characters of the last match still to be passed over. *)
Fixpoint findall_go (s : string) (skip : nat) : list (string * string) :=
  match s with
  | EmptyString => []
  | String c s' =>
      match skip with
      | S k => findall_go s' k
      | O =>
          match ddwrt_match_at s with
          | Some (key, val, rest) =>
              (key, val) :: findall_go s' (String.length s' - String.length rest)
          | None => findall_go s' 0
          end
      end
  end.

Definition findall (s : string) : list (string * string) := findall_go s 0.

(** [[0-9A-Fa-f]{1,2}] at the start of [s], greedy: the alternatives in
    the order the matcher tries them (two digits, then one). *)
Definition hex12 (s : string) : list (string * string) :=
  match s with
  | String a (String b r) =>
      if (is_hex a && is_hex b)%bool
      then [(String a (String b EmptyString), r); (String a EmptyString, String b r)]
      else if is_hex a then [(String a EmptyString, String b r)] else []
  | String a EmptyString =>
      if is_hex a then [(String a EmptyString, EmptyString)] else []
  | EmptyString => []
  end.

(** [\:] *)
Definition colon_at (s : string) : option string :=
  match s with
  | String c r => if Ascii.eqb c colon then Some r else None
  | EmptyString => None
  end.

(** [([0-9A-Fa-f]{1,2}\:)]: the first alternative of the digits that is
    followed by a colon. *)
Definition hex_colon (s : string) : option (string * string) :=
  let try alt :=
    match colon_at (snd alt) with
    | Some r => Some (fst alt +:+ String colon EmptyString, r)
    | None => None
    end in
  match hex12 s with
  | a1 :: a2 :: _ => match try a1 with Some m => Some m | None => try a2 end
  | [a1] => try a1
  | [] => None
  end.

(** [([0-9A-Fa-f]{1,2}\:){n}] *)
Fixpoint hex_colon_rep (n : nat) (s : string) : option (string * string) :=
  match n with
  | O => Some (EmptyString, s)
  | S n' =>
      match hex_colon s with
      | Some (m, r) =>
          match hex_colon_rep n' r with
          | Some (m', r') => Some (m +:+ m', r')
          | None => None
          end
      | None => None
      end
  end.

(** [_MAC_REGEX.match(s)]: the pattern
    [(([0-9A-Fa-f]{1,2}\:){5}[0-9A-Fa-f]{1,2})] tried at the start of
    [s]; the result is group 0 (the matched text) and the rest. *)
Definition mac_match (s : string) : option (string * string) :=
  match hex_colon_rep 5 s with
  | Some (m, r) =>
      match hex12 r with
      | (h, r') :: _ => Some (m +:+ h, r')
      | [] => None
      end
  | None => None
  end.

(** [re.search(pattern, s)]: the first position at which the pattern
    matches; the result is group 0. *)
Fixpoint mac_search (s : string) : option string :=
  match mac_match s with
  | Some (m, _) => Some m
  | None =>
      match s with
      | String _ s' => mac_search s'
      | EmptyString => None
      end
  end.

End Regex.

Import PyStr Regex.

(** ** Exceptions, results and the method monad *)

(** The exception classes that the two modules can meet. *)
Inductive exn : Type :=
  | RequestsTimeout          (* requests.exceptions.Timeout *)
  | RequestsConnectionError  (* requests.exceptions.ConnectionError *)
  | PortScannerError         (* nmap.PortScannerError *)
  | IndexError.              (* list index out of range *)

Definition exn_eqb (a b : exn) : bool :=
  match a, b with
  | RequestsTimeout, RequestsTimeout
  | RequestsConnectionError, RequestsConnectionError
  | PortScannerError, PortScannerError
  | IndexError, IndexError => true
  | _, _ => false
  end.

(** How a call ends: with a value, or with an exception on its way up. *)
Inductive result (A : Type) : Type :=
  | Returns (a : A)
  | Raises (e : exn).
Arguments Returns {A} a.
Arguments Raises {A} e.

(** A method body: it transforms the state and ends with a [result].
    What was written to the state before an exception stays written. *)
Definition M (St A : Type) : Type := St -> result A * St.

Definition ret {St A} (a : A) : M St A := fun st => (Returns a, st).

Definition bind {St A B} (m : M St A) (k : A -> M St B) : M St B :=
  fun st =>
    match m st with
    | (Returns a, st') => k a st'
    | (Raises e, st') => (Raises e, st')
    end.

Definition raise {St A} (e : exn) : M St A := fun st => (Raises e, st).

(** [try: m except cls: handler] *)
Definition try_except {St A} (m : M St A) (cls : exn) (handler : M St A) : M St A :=
  fun st =>
    match m st with
    | (Raises e, st') => if exn_eqb e cls then handler st' else (Raises e, st')
    | r => r
    end.

Definition gets {St A} (f : St -> A) : M St A := fun st => (Returns (f st), st).
Definition modify {St} (f : St -> St) : M St unit := fun st => (Returns tt, f st).

#[global] Instance M_ret {St} : MRet (M St) := fun _ a => ret a.
#[global] Instance M_bind {St} : MBind (M St) := fun _ _ k m => bind m k.

(** [for x in l: body x] *)
Fixpoint for_each {St A} (l : list A) (body : A -> M St unit) : M St unit :=
  match l with
  | [] => ret tt
  | x :: l' => body x ;; for_each l' body
  end.

(** [l[i]] *)
Definition py_index {St} (l : list string) (i : nat) : M St string :=
  match l !! i with
  | Some x => ret x
  | None => raise IndexError
  end.

(** ** The outside world *)

(** Timestamps and durations count microseconds, the resolution of
    [datetime]. *)
Definition seconds (n : Z) : Z := n * 1000000.
Definition minutes (n : Z) : Z := n * 60000000.

(** What [requests.get] can do: raise, or deliver a response. *)
Inductive http_outcome : Type :=
  | HttpRaises (e : exn)
  | HttpResponse (status_code : Z) (text : string).

(** One host of [result['scan']]: [info['status']['state']], the names
    of [info['hostnames']] and [info['addresses'].get('mac')]. *)
Record HostInfo : Type := mkHostInfo {
  status_state : string;
  hostnames : list string;
  addresses_mac : option string
}.

(** What [PortScanner.scan] can do: raise [PortScannerError], or deliver
    the items of [result['scan']]. *)
Inductive scan_outcome : Type :=
  | ScanRaises
  | ScanResult (items : list (string * HostInfo)).

(** The capabilities the scanners call.  [W] is the state of everything
    outside the scanner; each call may change it (time passes, the
    network answers differently the next time). *)
Record Env (W : Type) : Type := mkEnv {
  now : W -> Z;
  requests_get : string -> string * string -> W -> http_outcome * W;
  portscanner_scan : string -> string -> W -> scan_outcome * W;
  arp_communicate : string -> W -> string * W
}.
Arguments now {W} _ _.
Arguments requests_get {W} _ _ _ _.
Arguments portscanner_scan {W} _ _ _ _.
Arguments arp_communicate {W} _ _ _.

(** A record of the calls made to the outside, oldest first. *)
Inductive io_event : Type :=
  | HttpGet (url : string)
  | NmapScan (hosts arguments : string)
  | ArpLookup (ip_address : string).

(** A scanner object together with the world it runs in. *)
Record Heap (Self W : Type) : Type := mkHeap {
  self : Self;
  world : W;
  io_log : list io_event
}.
Arguments mkHeap {Self W} _ _ _.
Arguments self {Self W} _.
Arguments world {Self W} _.
Arguments io_log {Self W} _.

Definition set_self {Self W} (f : Self -> Self) (h : Heap Self W) : Heap Self W :=
  mkHeap (f (self h)) (world h) (io_log h).

Section WorldCalls.
Context {Self W : Type} (env : Env W).

Definition dt_now : M (Heap Self W) Z := gets (fun h => now env (world h)).

(** One call to the outside: logged, answered by the world. *)
Definition io {A} (ev : io_event) (call : W -> A * W) : M (Heap Self W) A :=
  fun h =>
    let '(a, w') := call (world h) in
    (Returns a, mkHeap (self h) w' (io_log h ++ [ev])).

Definition http_get (url : string) (auth : string * string)
  : M (Heap Self W) (Z * string) :=
  r ← io (HttpGet url) (requests_get env url auth);
  match r with
  | HttpRaises e => raise e
  | HttpResponse status text => ret (status, text)
  end.

Definition nmap_scan (hosts arguments : string)
  : M (Heap Self W) (list (string * HostInfo)) :=
  r ← io (NmapScan hosts arguments) (portscanner_scan env hosts arguments);
  match r with
  | ScanRaises => raise PortScannerError
  | ScanResult items => ret items
  end.

(** [_arp] of nmap_tracker.py: the text printed by [arp -n ip], searched
    for the first hardware address. *)
Definition _arp (ip_address : string) : M (Heap Self W) (option string) :=
  out ← io (ArpLookup ip_address) (arp_communicate env ip_address);
  ret (mac_search out).
End WorldCalls.

(** ** Throttling *)

(** Modelled from the spec: the decorator [homeassistant.util.Throttle]
    is not among the sources.  The spec's contract for it: a refresh
    "attempts a new scan only if now - lastRefreshAt >= minInterval;
    otherwise it is a no-op returning the last known success/failure
    status".  Before the first refresh there is no [lastRefreshAt] and
    the call refreshes.  [refresh_log] is a ghost field: the clock
    readings at which the executions of the wrapped method began. *)
Record Throttled (Self W : Type) : Type := mkThrottled {
  heap : Heap Self W;
  last_refresh_at : option Z;
  last_status : bool;
  refresh_log : list Z
}.
Arguments mkThrottled {Self W} _ _ _ _.
Arguments heap {Self W} _.
Arguments last_refresh_at {Self W} _.
Arguments last_status {Self W} _.
Arguments refresh_log {Self W} _.

(** Return cached results if last scan was less then this time ago. *)
Definition MIN_TIME_BETWEEN_SCANS : Z := seconds 5.

Section Throttling.
Context {Self W : Type} (env : Env W).

(** A method that is not throttled, called on a throttled scanner. *)
Definition lift_heap {A} (m : M (Heap Self W) A) : M (Throttled Self W) A :=
  fun t =>
    let '(r, h') := m (heap t) in
    (r, mkThrottled h' (last_refresh_at t) (last_status t) (refresh_log t)).

Definition refresh_due (min_interval : Z) (last : option Z) (t_now : Z) : bool :=
  match last with
  | None => true
  | Some t_last => min_interval <=? t_now - t_last
  end.

Definition Throttle (min_interval : Z) (method : M (Heap Self W) bool)
  : M (Throttled Self W) bool :=
  fun t =>
    let t_now := now env (world (heap t)) in
    if refresh_due min_interval (last_refresh_at t) t_now then
      let log' := refresh_log t ++ [t_now] in
      match method (heap t) with
      | (Returns ok, h') => (Returns ok, mkThrottled h' (Some t_now) ok log')
      | (Raises e, h') => (Raises e, mkThrottled h' (Some t_now) (last_status t) log')
      end
    else (Returns (last_status t), t).

(** The host calls at moments of its own choosing: before a call the
    world is whatever it has become. *)
Definition at_world (w : W) (t : Throttled Self W) : Throttled Self W :=
  mkThrottled (mkHeap (self (heap t)) w (io_log (heap t)))
              (last_refresh_at t) (last_status t) (refresh_log t).

(** A series of calls of one method, one per given world; the state
    left by a call that raised is kept, as the object is. *)
Fixpoint calls {A} (m : M (Throttled Self W) A) (ws : list W)
    (t : Throttled Self W) : Throttled Self W :=
  match ws with
  | [] => t
  | w :: ws' => calls m ws' (snd (m (at_world w t)))
  end.
End Throttling.

(** ** Truthiness *)

Definition str_truthy (s : string) : bool :=
  match s with EmptyString => false | String _ _ => true end.

Definition dict_truthy (d : gmap string string) : bool :=
  negb (bool_decide (d = ∅)).

(** ** ddwrt.py *)

Module DdWrt.

(** [_parse_ddwrt_response]: a dict comprehension over the matches, so a
    later match of a key replaces an earlier one. *)
Definition _parse_ddwrt_response (data_str : string) : gmap string string :=
  fold_left (fun d kv => <[fst kv := snd kv]> d) (findall data_str) ∅.

(** The attributes of a [DdWrtDeviceScanner]; [last_results] starts as an
    empty container and holds a list after the first refresh.  The lock
    is not modelled: calls are sequential here. *)
Record Scanner : Type := mkScanner {
  host : string;
  username : string;
  password : string;
  last_results : list string;
  mac2name : gmap string string;
  success_init : bool
}.

Definition set_last_results (l : list string) (s : Scanner) : Scanner :=
  mkScanner (host s) (username s) (password s) l (mac2name s) (success_init s).
Definition set_mac2name (m : gmap string string) (s : Scanner) : Scanner :=
  mkScanner (host s) (username s) (password s) (last_results s) m (success_init s).
Definition set_success_init (b : bool) (s : Scanner) : Scanner :=
  mkScanner (host s) (username s) (password s) (last_results s) (mac2name s) b.

Definition wireless_url (h : string) : string :=
  "http://" +:+ h +:+ "/Status_Wireless.live.asp".
Definition lan_url (h : string) : string :=
  "http://" +:+ h +:+ "/Status_Lan.live.asp".

(** The separators of the two list formats: quote, comma, quote. *)
Definition squote_sep : string := String squote (String comma (String squote EmptyString)).
Definition dquote_sep : string := String dquote (String comma (String dquote EmptyString)).

Section Methods.
Context {W : Type} (env : Env W).
Abbreviation Mh := (M (Heap Scanner W)).

(** [get_ddwrt_data]: only [requests.exceptions.Timeout] is handled;
    status 200 gives the parsed text, every other status [None]. *)
Definition get_ddwrt_data (url : string) : Mh (option (gmap string string)) :=
  s ← gets self;
  response ← try_except
    (r ← http_get env url (username s, password s); ret (Some r))
    RequestsTimeout
    (ret None);
  match response with
  | None => ret None
  | Some (status_code, text) =>
      if status_code =? 200 then ret (Some (_parse_ddwrt_response text))
      else if status_code =? 401 then ret None
      else ret None
  end.

(** The loop of [get_device_name] over [range(0, num_clients)]. *)
Definition lease_step (elements : list string) (idx : nat) : Mh unit :=
  let mac_index := (idx * 5 + 2)%nat in
  if (mac_index <? length elements)%nat then
    mac ← py_index elements mac_index;
    name ← py_index elements (idx * 5)%nat;
    modify (set_self (fun s => set_mac2name (<[mac := name]> (mac2name s)) s))
  else ret tt.

Definition get_device_name (device : string) : Mh (option string) :=
  s ← gets self;
  if bool_decide (device ∈ dom (mac2name s)) then
    ret (mac2name s !! device)
  else
    data ← get_ddwrt_data (lan_url (host s));
    match data with
    | None => ret None
    | Some d =>
        if negb (dict_truthy d) then ret None else
        match d !! "dhcp_leases" with
        | None => ret None
        | Some dhcp_leases =>
            if negb (str_truthy dhcp_leases) then ret None else
            let cleaned_str := strip_char dquote (strip dhcp_leases) in
            let elements := split dquote_sep cleaned_str in
            let num_clients := (length elements / 5)%nat in
            modify (set_self (set_mac2name ∅));;
            for_each (seq 0 num_clients) (lease_step elements);;
            s' ← gets self;
            ret (mac2name s' !! device)
        end
    end.

(** [_update_info], before the decorator is applied. *)
Definition _update_info : Mh bool :=
  s ← gets self;
  if negb (success_init s) then ret false else
  data ← get_ddwrt_data (wireless_url (host s));
  match data with
  | None => ret false
  | Some d =>
      if negb (dict_truthy d) then ret false else
      modify (set_self (set_last_results []));;
      match d !! "active_wireless" with
      | None => ret false
      | Some active_clients =>
          if negb (str_truthy active_clients) then ret false else
          let clean_str := strip_char squote (strip active_clients) in
          let elements := split squote_sep clean_str in
          modify (set_self (fun s =>
            set_last_results
              (last_results s ++ filter (fun item => is_Some (mac_match item)) elements) s));;
          ret true
      end
  end.

Definition refresh : M (Throttled Scanner W) bool :=
  Throttle env MIN_TIME_BETWEEN_SCANS _update_info.

Definition scan_devices : M (Throttled Scanner W) (list string) :=
  refresh;;
  lift_heap (gets (fun h => last_results (self h))).

(** [__init__]: the attributes, then one fetch to test the router. *)
Definition init (h u p : string) (w : W) : result unit * Throttled Scanner W :=
  let s0 := mkScanner h u p [] ∅ false in
  let m : Mh unit :=
    data ← get_ddwrt_data (wireless_url h);
    modify (set_self (set_success_init (bool_decide (is_Some data)))) in
  lift_heap m (mkThrottled (mkHeap s0 w []) None false []).

(** [get_scanner]: [validate_config] belongs to [homeassistant.helpers],
    which is not among the sources; its verdict on the configuration is
    the parameter [valid].  The result is the scanner, or [None]. *)
Definition get_scanner (valid : bool) (h u p : string) (w : W)
  : result (option (Throttled Scanner W)) :=
  if negb valid then Returns None else
  match init h u p w with
  | (Returns _, scanner) =>
      Returns (if success_init (self (heap scanner)) then Some scanner else None)
  | (Raises e, _) => Raises e
  end.
End Methods.

End DdWrt.

(** ** nmap_tracker.py *)

Module Nmap.

(** [Device = namedtuple("Device", ["mac", "name", "ip", "last_update"])] *)
Record Device : Type := mkDevice {
  mac : string;
  name : string;
  ip : string;
  last_update : Z
}.

(** The attributes of a [NmapDeviceScanner]; [home_interval] is a
    [timedelta]. *)
Record Scanner : Type := mkScanner {
  last_results : list Device;
  hosts : string;
  home_interval : Z;
  success_init : bool
}.

Definition set_last_results (l : list Device) (s : Scanner) : Scanner :=
  mkScanner l (hosts s) (home_interval s) (success_init s).
Definition set_success_init (b : bool) (s : Scanner) : Scanner :=
  mkScanner (last_results s) (hosts s) (home_interval s) b.

Definition base_options : string := "-F --host-timeout 5".

(** The devices of the previous result seen after [boundary]. *)
Definition seen_since (boundary : Z) (l : list Device) : list Device :=
  filter (fun device => boundary < last_update device) l.

(** The options given to nmap when [carried] are the devices to leave
    out. *)
Definition exclude_options (carried : list Device) : string :=
  match carried with
  | [] => base_options
  | _ :: _ => base_options +:+ " --exclude " +:+ join "," (map ip carried)
  end.

Section Methods.
Context {W : Type} (env : Env W).
Abbreviation Mh := (M (Heap Scanner W)).

(** [get_device_name]: the name of the first record with that address. *)
Definition get_device_name (mac_ : string) : Mh (option string) :=
  s ← gets self;
  let filter_named :=
    map name (filter (fun device => mac device = mac_) (last_results s)) in
  match filter_named with
  | n :: _ => ret (Some n)
  | [] => ret None
  end.

(** The body of the loop over [result['scan'].items()]; [t_now] is the
    clock reading taken before the loop, [acc] the list being
    extended. *)
Definition scan_step (t_now : Z) (acc : list Device) (item : string * HostInfo)
  : Mh (list Device) :=
  let '(ipv4, info) := item in
  if negb (String.eqb (status_state info) "up") then ret acc else
  let name_ := match hostnames info with n :: _ => n | [] => ipv4 end in
  mac_ ← match addresses_mac info with
         | Some m => if str_truthy m then ret (Some m) else _arp env ipv4
         | None => _arp env ipv4
         end;
  match mac_ with
  | None => ret acc
  | Some m => ret (acc ++ [mkDevice (upper m) name_ ipv4 t_now])
  end.

Fixpoint scan_loop (t_now : Z) (acc : list Device) (items : list (string * HostInfo))
  : Mh (list Device) :=
  match items with
  | [] => ret acc
  | item :: items' =>
      acc' ← scan_step t_now acc item;
      scan_loop t_now acc' items'
  end.

(** [_update_info], before the decorator is applied.  The import and
    the construction of the [PortScanner] (lines 116-117), which stand
    outside the [try] and raise [PortScannerError] when nmap is missing,
    are taken to succeed: the body begins where the scanner exists. *)
Definition _update_info : Mh bool :=
  s ← gets self;
  carried ←
    (if bool_decide (home_interval s ≠ 0) then
       t ← dt_now env;
       ret (seen_since (t - home_interval s) (last_results s))
     else ret []);
  let options := exclude_options carried in
  result ← try_except
    (r ← nmap_scan env (hosts s) options; ret (Some r))
    PortScannerError
    (ret None);
  match result with
  | None => ret false
  | Some items =>
      t_now ← dt_now env;
      last_results' ← scan_loop t_now carried items;
      modify (set_self (set_last_results last_results'));;
      ret true
  end.

Definition refresh : M (Throttled Scanner W) bool :=
  Throttle env MIN_TIME_BETWEEN_SCANS _update_info.

Definition scan_devices : M (Throttled Scanner W) (list string) :=
  refresh;;
  lift_heap (gets (fun h => map mac (last_results (self h)))).

(** [__init__]: the attributes, then a first throttled refresh whose
    status becomes [success_init]; [home_minutes] is the configured
    number of minutes, 0 when absent. *)
Definition init (hosts_ : string) (home_minutes : Z) (w : W)
  : result unit * Throttled Scanner W :=
  let s0 := mkScanner [] hosts_ (minutes home_minutes) false in
  let m : M (Throttled Scanner W) unit :=
    ok ← refresh;
    lift_heap (modify (set_self (set_success_init ok))) in
  m (mkThrottled (mkHeap s0 w []) None false []).
End Methods.

End Nmap.

(** ** Notions used in the statements *)

Module Spec.

(** Every character of [s] satisfies [p]. *)
Fixpoint all_chars (p : ascii -> bool) (s : string) : bool :=
  match s with
  | EmptyString => true
  | String c s' => p c && all_chars p s'
  end.

(** [b] is empty or begins with a character that fails [p]. *)
Definition stops_at (p : ascii -> bool) (b : string) : Prop :=
  match b with
  | String c _ => p c = false
  | EmptyString => True
  end.

(** The text of one brace token: open-brace, identifier, double-colon,
    value, close-brace. *)
Definition token (k v : string) : string :=
  String lbrace (k +:+ "::" +:+ v +:+ String rbrace EmptyString).

(** [s] begins with a token whose identifier is [k] (one or more word
    characters) and whose value is [v] (no close-brace); [rest] follows. *)
Definition match_here (s k v rest : string) : Prop :=
  k ≠ EmptyString ∧ all_chars is_word k = true ∧
  all_chars not_rbrace v = true ∧ s = token k v +:+ rest.

(** The non-overlapping matches of the token pattern in a text, found
    from left to right: at each position either a token begins there, is
    taken and the search goes on behind it, or no token begins there and
    the character is passed over. *)
Inductive Findall : string -> list (string * string) -> Prop :=
  | Findall_end : Findall EmptyString []
  | Findall_match s k v rest l :
      match_here s k v rest -> Findall rest l -> Findall s ((k, v) :: l)
  | Findall_pass c s l :
      (forall k v rest, ~ match_here (String c s) k v rest) ->
      Findall s l -> Findall (String c s) l.

(** The value of the last pair with key [k]. *)
Definition last_value (k : string) (l : list (string * string)) : option string :=
  last (map snd (filter (fun kv => fst kv = k) l)).

(** One group of the hardware-address grammar: one or two hex digits. *)
Definition hex_group (h : string) : bool :=
  match h with
  | String a EmptyString => is_hex a
  | String a (String b EmptyString) => is_hex a && is_hex b
  | _ => false
  end.

(** [n] groups, each followed by a colon. *)
Fixpoint colon_groups (n : nat) (m : string) : Prop :=
  match n with
  | O => m = EmptyString
  | S n' =>
      ∃ h m', hex_group h = true ∧ colon_groups n' m' ∧
              m = h +:+ String colon m'
  end.

(** The hardware-address grammar: six groups separated by colons, that
    is, five groups with their colons and a last group. *)
Definition mac_shaped (m : string) : Prop :=
  ∃ m5 h6, colon_groups 5 m5 ∧ hex_group h6 = true ∧ m = m5 +:+ h6.

(** [e] begins with a hardware address. *)
Definition mac_prefixed (e : string) : Prop :=
  ∃ m rest, mac_shaped m ∧ e = m +:+ rest.

(** A list of entries written with each entry between quotes [q] and
    commas between the entries. *)
Definition quoted_list (q : ascii) (entries : list string) : string :=
  String q (join (String q (String comma (String q EmptyString))) entries
            +:+ String q EmptyString).

(** An entry that is not empty and holds no quote [q]. *)
Definition plain_entry (q : ascii) (e : string) : Prop :=
  e ≠ EmptyString ∧ all_chars (fun c => negb (Ascii.eqb q c)) e = true.

(** Two characters that are the same up to letter case. *)
Definition same_letter (a b : ascii) : Prop :=
  a = b ∨ (is_lower a = true ∧ b = upper_char a) ∨ (is_lower b = true ∧ a = upper_char b).

(** Two texts that differ only in letter case. *)
Inductive case_variant : string -> string -> Prop :=
  | case_variant_nil : case_variant EmptyString EmptyString
  | case_variant_cons a b s t :
      same_letter a b -> case_variant s t ->
      case_variant (String a s) (String b t).

(** The complete groups of five of a flattened lease table, each as the
    pair (element at offset 2, element at offset 0); an incomplete
    trailing group gives nothing. *)
Fixpoint groups5 (elements : list string) : list (string * string) :=
  match elements with
  | e0 :: _ :: e2 :: _ :: _ :: rest => (e2, e0) :: groups5 rest
  | _ => []
  end.

(** A map filled from pairs in order, a later pair replacing an earlier
    one with the same key. *)
Definition map_of_pairs (l : list (string * string)) : gmap string string :=
  fold_left (fun d kv => <[fst kv := snd kv]> d) l ∅.

(** Any two of the clock readings in [l], in order, are at least [d]
    apart. *)
Definition spaced (d : Z) (l : list Z) : Prop :=
  ∀ i j ti tj, (i < j)%nat → l !! i = Some ti → l !! j = Some tj → d ≤ tj - ti.

(** The number of fetches of the source (router requests, sweeps) in a
    log. *)
Definition is_fetch (ev : io_event) : bool :=
  match ev with
  | HttpGet _ | NmapScan _ _ => true
  | ArpLookup _ => false
  end.
Definition fetch_count (log : list io_event) : nat :=
  length (List.filter is_fetch log).

(** The device was last seen less than [home] before [t]. *)
Definition within_home (home t : Z) (d : Nmap.Device) : Prop :=
  t - Nmap.last_update d < home.

#[global] Instance within_home_dec (home t : Z) (d : Nmap.Device) :
  Decision (within_home home t d).
Proof. unfold within_home. apply _. Defined.

(** The heap after one request to [url] that left the world as [w']. *)
Definition after_get {Self W} (url : string) (w' : W) (h : Heap Self W) : Heap Self W :=
  mkHeap (self h) w' (io_log h ++ [HttpGet url]).

(** The router-poll heap with a new name index, and with a new result
    list. *)
Definition with_mac2name {W} (d : gmap string string) (h : Heap DdWrt.Scanner W)
  : Heap DdWrt.Scanner W :=
  mkHeap (DdWrt.set_mac2name d (self h)) (world h) (io_log h).
Definition with_last_results {W} (l : list string) (h : Heap DdWrt.Scanner W)
  : Heap DdWrt.Scanner W :=
  mkHeap (DdWrt.set_last_results l (self h)) (world h) (io_log h).

(** The throttle state agrees with the history of executions: the last
    begin time is the one remembered, and the begin times are spaced. *)
Definition throttle_ok {Self W} (d : Z) (t : Throttled Self W) : Prop :=
  last_refresh_at t = last (refresh_log t) ∧ spaced d (refresh_log t).




(** A status page written out: before each token some text that holds no
    opening brace, and such a text at the end. *)
Fixpoint page_text (parts : list (string * string * string)) (tail : string) : string :=
  match parts with
  | [] => tail
  | (junk, k, v) :: parts' => junk +:+ token k v +:+ page_text parts' tail
  end.

Definition no_lbrace (s : string) : Prop :=
  all_chars (fun c => negb (Ascii.eqb c lbrace)) s = true.

(** A part that can be written and read back: the text before the token
    holds no opening brace, the key is one or more word characters, the
    value holds no closing brace. *)
Definition good_part (part : string * string * string) : Prop :=
  let '(junk, k, v) := part in
  no_lbrace junk ∧ k ≠ EmptyString ∧ all_chars is_word k = true ∧
  all_chars not_rbrace v = true.

(** Every record carries its address in upper case. *)
Definition upper_macs (l : list Nmap.Device) : Prop :=
  Forall (fun dev => upper (Nmap.mac dev) = Nmap.mac dev) l.

(** No record is stamped later than [t]. *)
Definition not_after (t : Z) (l : list Nmap.Device) : Prop :=
  Forall (fun dev => Nmap.last_update dev <= t) l.

(** The hosts of a probe result that are reported up. *)
Definition up_hosts (items : list (string * HostInfo)) : list (string * HostInfo) :=
  filter (fun item => status_state (snd item) = "up") items.

(** The hosts that are up and come without a usable hardware address. *)
Definition needs_arp (item : string * HostInfo) : Prop :=
  status_state (snd item) = "up" ∧
  match addresses_mac (snd item) with
  | Some m => m = EmptyString
  | None => True
  end.

#[global] Instance needs_arp_dec (item : string * HostInfo) : Decision (needs_arp item).
Proof.
  unfold needs_arp. destruct (addresses_mac (snd item)); apply _.
Defined.

(** The name the sweep gives a host: its first hostname, or its IP
    address when it has none. *)
Definition display_name (item : string * HostInfo) : string :=
  match hostnames (snd item) with
  | n :: _ => n
  | [] => fst item
  end.

(** The record [dev] was made from the host [item] of the probe. *)
Definition made_from (item : string * HostInfo) (dev : Nmap.Device) : Prop :=
  status_state (snd item) = "up" ∧ Nmap.ip dev = fst item ∧
  Nmap.name dev = display_name item.

(** The clock does not go back while the world answers a call. *)
Definition clock_monotone {W} (env : Env W) : Prop :=
  (forall url auth w, now env w <= now env (snd (requests_get env url auth w))) ∧
  (forall hosts arguments w,
     now env w <= now env (snd (portscanner_scan env hosts arguments w))) ∧
  (forall ip_address w, now env w <= now env (snd (arp_communicate env ip_address w))).

(** The address lookups in a log. *)
Definition arp_count (log : list io_event) : nat :=
  length (List.filter (fun ev => match ev with ArpLookup _ => true | _ => false end) log).

(** A record written by the sweep at time [t]: stamped [t], with its
    address in upper case. *)
Definition stamped (t : Z) (dev : Nmap.Device) : Prop :=
  Nmap.last_update dev = t ∧ upper (Nmap.mac dev) = Nmap.mac dev.

(** The sweep heap with a new result list. *)
Definition with_devices {W} (l : list Nmap.Device) (h : Heap Nmap.Scanner W)
  : Heap Nmap.Scanner W :=
  mkHeap (Nmap.set_last_results l (self h)) (world h) (io_log h).

End Spec.

Import Spec.

(** ** Test worlds *)

Module TestWorld.
(** A world that is a clock, with a router answering every request with
    the same [reply] and a sweep that always gives [sweep]. *)
Definition fixed (reply : http_outcome) (sweep : scan_outcome) (arp_out : string) : Env Z :=
  mkEnv Z (fun w => w)
    (fun _ _ w => (reply, w))
    (fun _ _ w => (sweep, w))
    (fun _ w => (arp_out, w)).

(** The text of a status page with one field. *)
Definition page (field value : string) : string :=
  "{" +:+ field +:+ "::" +:+ value +:+ "}".

(** A lease table of two hosts. *)
Definition two_leases : list string :=
  ["phone"; "192.168.1.10"; "AA:BB:CC:DD:EE:01"; "86400"; "10";
   "laptop"; "192.168.1.11"; "AA:BB:CC:DD:EE:02"; "86400"; "11"].

(** A lease table in which the first address comes again. *)
Definition renamed_lease : list string :=
  ["phone"; "192.168.1.10"; "AA:BB:CC:DD:EE:01"; "86400"; "10";
   "laptop"; "192.168.1.11"; "AA:BB:CC:DD:EE:02"; "86400"; "11";
   "tablet"; "192.168.1.12"; "AA:BB:CC:DD:EE:01"; "86400"; "12"].

(** A router that answers every request with the given lease table. *)
Definition lease_router (fields : list string) : Env Z :=
  fixed (HttpResponse 200 (page "dhcp_leases" (" " +:+ Spec.quoted_list dquote fields)))
        ScanRaises "".

(** A router-poll scanner that has not seen anything yet. *)
Definition new_poller : Heap DdWrt.Scanner Z :=
  mkHeap (DdWrt.mkScanner "192.168.1.1" "admin" "secret" [] ∅ true) 0 [].

(** A router-poll scanner that knows two clients and one name. *)
Definition busy_poller : Heap DdWrt.Scanner Z :=
  mkHeap (DdWrt.mkScanner "192.168.1.1" "admin" "secret"
            ["AA:BB:CC:DD:EE:01"; "AA:BB:CC:DD:EE:02"]
            {["AA:BB:CC:DD:EE:01" := "phone"]} true) 0 [].

(** A scanner on which no refresh has run yet. *)
Definition unthrottled {Self} (h : Heap Self Z) : Throttled Self Z :=
  mkThrottled h None false [].

(** A router whose status page has no active-client field. *)
Definition other_page_router : Env Z :=
  fixed (HttpResponse 200 (page "wl_ssid" "home")) ScanRaises "".

(** A router that refuses the connection. *)
Definition refusing_router : Env Z :=
  fixed (HttpRaises RequestsConnectionError) ScanRaises "".

(** The phone, seen at minute 9. *)
Definition phone : Nmap.Device :=
  Nmap.mkDevice "AA:BB:CC:DD:EE:01" "phone" "192.168.1.10" (minutes 9).

(** A sweep scanner at minute 10 that saw the phone one minute ago and a
    printer six minutes ago, with a home interval of five minutes. *)
Definition sweeper : Heap Nmap.Scanner Z :=
  mkHeap (Nmap.mkScanner
            [phone; Nmap.mkDevice "AA:BB:CC:DD:EE:03" "printer" "192.168.1.30" (minutes 4)]
            "192.168.1.0/24" (minutes 5) true)
         (minutes 10) [].

(** A network in which the sweep finds the phone under a new hostname. *)
Definition renaming_network : Env Z :=
  fixed (HttpRaises RequestsTimeout)
        (ScanResult [("192.168.1.10",
                      mkHostInfo "up" ["renamed"] (Some "AA:BB:CC:DD:EE:01"))])
        "".

(** A network in which the sweep finds a laptop. *)
Definition laptop_network : Env Z :=
  fixed (HttpRaises RequestsTimeout)
        (ScanResult [("192.168.1.11", mkHostInfo "up" ["laptop"] (Some "aa:bb:cc:dd:ee:02"))])
        "".
End TestWorld.


(** * Facts about the string primitives *)

Section StringFacts.

Lemma app_nil_r_str (s : string) : s +:+ EmptyString = s.
Proof. induction s as [|c s IH]; simpl; [reflexivity | now rewrite IH]. Qed.

Lemma app_assoc_str (a b c : string) : (a +:+ b) +:+ c = a +:+ (b +:+ c).
Proof. induction a as [|x a IH]; simpl; [reflexivity | now rewrite IH]. Qed.

Lemma app_snoc_str (a : string) (c : ascii) (b : string) :
  (a +:+ String c EmptyString) +:+ b = a +:+ String c b.
Proof. now rewrite app_assoc_str. Qed.

Lemma length_app_str (a b : string) :
  String.length (a +:+ b) = (String.length a + String.length b)%nat.
Proof. induction a as [|x a IH]; simpl; [reflexivity | now rewrite IH]. Qed.

Lemma app_inv_head_str (a b c : string) : a +:+ b = a +:+ c -> b = c.
Proof. induction a as [|x a IH]; simpl; intros H; [assumption | injection H; auto]. Qed.

Lemma all_chars_app p (a b : string) :
  all_chars p (a +:+ b) = all_chars p a && all_chars p b.
Proof.
  induction a as [|x a IH]; simpl; [reflexivity|].
  rewrite IH. now rewrite andb_assoc.
Qed.

(** *** Stripping *)

Lemma lstrip_stop p c s : p c = false -> lstrip p (String c s) = String c s.
Proof. intros H. simpl. now rewrite H. Qed.

Lemma lstrip_drop p c s : p c = true -> lstrip p (String c s) = lstrip p s.
Proof. intros H. simpl. now rewrite H. Qed.

Lemma rstrip_keep p (s : string) :
  s ≠ EmptyString -> all_chars (fun c => negb (p c)) s = true -> rstrip p s = s.
Proof.
  induction s as [|c s IH]; [congruence|].
  intros _ H. simpl in H. apply andb_prop in H as [Hc Hs].
  apply negb_true_iff in Hc. simpl.
  destruct s as [|d s'].
  - simpl. now rewrite Hc.
  - rewrite IH; [reflexivity | congruence | assumption].
Qed.

Lemma rstrip_app_keep p (a b : string) :
  rstrip p b ≠ EmptyString -> rstrip p (a +:+ b) = a +:+ rstrip p b.
Proof.
  intros Hb. induction a as [|c a IH]; simpl; [reflexivity|].
  rewrite IH. destruct (a +:+ rstrip p b) eqn:E; [|reflexivity].
  destruct a; simpl in E; congruence.
Qed.

Lemma rstrip_snoc_drop p (s : string) c :
  p c = true -> rstrip p (s +:+ String c EmptyString) = rstrip p s.
Proof.
  intros Hc. induction s as [|d s IH]; simpl.
  - now rewrite Hc.
  - now rewrite IH.
Qed.

(** *** Joining and splitting *)

Lemma startswith_app (p s : string) : startswith p (p +:+ s) = true.
Proof.
  induction p as [|c p IH]; simpl; [reflexivity|].
  now rewrite Ascii.eqb_refl, IH.
Qed.

Lemma split_go_skip sep (x rest cur : string) :
  split_go sep (x +:+ rest) (String.length x) cur = split_go sep rest 0 cur.
Proof.
  induction x as [|c x IH]; simpl; [reflexivity | exact IH].
Qed.

(** A separator that starts where we stand closes the current piece. *)
Lemma split_go_sep q sep' (rest cur : string) :
  split_go (String q sep') (String q sep' +:+ rest) 0 cur
  = cur :: split_go (String q sep') rest 0 EmptyString.
Proof.
  change (String q sep' +:+ rest) with (String q (sep' +:+ rest)).
  cbn [split_go].
  change (String q (sep' +:+ rest)) with (String q sep' +:+ rest).
  rewrite startswith_app.
  cbn [String.length]. rewrite Nat.sub_succ, Nat.sub_0_r.
  now rewrite split_go_skip.
Qed.

(** Characters other than the separator's first one join the current
    piece. *)
Lemma split_go_plain q sep' (e rest cur : string) :
  all_chars (fun c => negb (Ascii.eqb q c)) e = true ->
  split_go (String q sep') (e +:+ rest) 0 cur
  = split_go (String q sep') rest 0 (cur +:+ e).
Proof.
  revert cur. induction e as [|c e IH]; intros cur H.
  - now rewrite app_nil_r_str.
  - simpl in H. apply andb_prop in H as [Hc He].
    apply negb_true_iff in Hc.
    change (String c e +:+ rest) with (String c (e +:+ rest)).
    cbn [split_go startswith]. rewrite Hc. cbn [andb].
    rewrite IH by assumption. now rewrite app_snoc_str.
Qed.

Lemma split_plain q sep' (e : string) :
  all_chars (fun c => negb (Ascii.eqb q c)) e = true ->
  split (String q sep') e = [e].
Proof.
  intros H. unfold split.
  rewrite <- (app_nil_r_str e) at 1.
  now rewrite split_go_plain.
Qed.

(** Splitting undoes joining when no entry holds the first character
    of the separator. *)
Lemma split_join q sep' (entries : list string) :
  entries ≠ [] ->
  Forall (fun e => all_chars (fun c => negb (Ascii.eqb q c)) e = true) entries ->
  split (String q sep') (join (String q sep') entries) = entries.
Proof.
  intros Hne Hall. unfold split.
  induction entries as [|e [|e2 es] IH]; [congruence | |].
  - simpl. apply (split_plain q sep'). now inversion Hall.
  - inversion Hall as [|? ? He Hes]; subst.
    change (join (String q sep') (e :: e2 :: es))
      with (e +:+ String q sep' +:+ join (String q sep') (e2 :: es)).
    rewrite split_go_plain by assumption. simpl (EmptyString +:+ e).
    rewrite split_go_sep. f_equal. apply IH; [congruence | assumption].
Qed.

End StringFacts.

(** * Reading a quoted list *)

Section QuotedLists.
Variable q : ascii.
Hypothesis q_not_space : is_space q = false.

Local Abbreviation sep := (String q (String comma (String q EmptyString))).

Lemma join_head (c : ascii) (e : string) (es : list string) :
  ∃ tail, join sep (String c e :: es) = String c tail.
Proof. destruct es; simpl; eauto. Qed.

Lemma join_last (entries : list string) :
  entries ≠ [] ->
  ∃ pre e, last entries = Some e ∧ join sep entries = pre +:+ e.
Proof.
  induction entries as [|e [|e2 es] IH]; [congruence | |]; intros _.
  - exists EmptyString, e. now split.
  - destruct IH as (pre & e' & Hl & Hj); [congruence|].
    exists (e +:+ sep +:+ pre), e'. split; [exact Hl|].
    change (join sep (e :: e2 :: es)) with (e +:+ sep +:+ join sep (e2 :: es)).
    rewrite Hj. now rewrite !app_assoc_str.
Qed.

(** Blank-stripping leaves a quoted list alone, and quote-stripping
    removes exactly the outer quotes when the entries are plain. *)
Lemma strip_quoted_list (entries : list string) :
  entries ≠ [] -> Forall (plain_entry q) entries ->
  strip_char q (strip (quoted_list q entries)) = join sep entries.
Proof.
  intros Hne Hall. unfold quoted_list.
  set (body := join sep entries).
  assert (Hstrip : strip (String q (body +:+ String q EmptyString))
                   = String q (body +:+ String q EmptyString)).
  { unfold strip. rewrite lstrip_stop by exact q_not_space.
    change (String q (body +:+ String q EmptyString))
      with (String q body +:+ String q EmptyString).
    rewrite rstrip_app_keep; simpl; rewrite q_not_space; congruence. }
  rewrite Hstrip. unfold strip_char.
  rewrite lstrip_drop by apply Ascii.eqb_refl.
  destruct entries as [|e1 es]; [congruence|].
  pose proof (Forall_inv Hall) as [He1 Hp1].
  destruct e1 as [|c e1]; [congruence|].
  simpl in Hp1. apply andb_prop in Hp1 as [Hc _]. apply negb_true_iff in Hc.
  destruct (join_head c e1 es) as [tail Ht].
  assert (Hl : lstrip (Ascii.eqb q) (body +:+ String q EmptyString)
               = body +:+ String q EmptyString).
  { unfold body. rewrite Ht. simpl. now rewrite Hc. }
  rewrite Hl, rstrip_snoc_drop by apply Ascii.eqb_refl.
  destruct (join_last (String c e1 :: es)) as (pre & e & Hlast & Hj); [congruence|].
  unfold body. rewrite Hj.
  assert (Hpe : plain_entry q e).
  { rewrite Forall_forall in Hall. apply Hall.
    apply last_Some in Hlast as [l' ->]. apply elem_of_app. right. constructor. }
  destruct Hpe as [Hne' Hpl].
  assert (Hk : rstrip (Ascii.eqb q) e = e) by now apply rstrip_keep.
  rewrite rstrip_app_keep; rewrite Hk; congruence.
Qed.

(** The entries come back from the field value. *)
Lemma read_quoted_list (entries : list string) :
  entries ≠ [] -> Forall (plain_entry q) entries ->
  split sep (strip_char q (strip (quoted_list q entries))) = entries.
Proof.
  intros Hne Hall. rewrite strip_quoted_list by assumption.
  apply split_join; [assumption|].
  eapply Forall_impl; [exact Hall|]. now intros e [_ H].
Qed.
End QuotedLists.

(** * The token pattern *)

Section TokenPattern.

Lemma span_spec p (s a b : string) :
  span p s = (a, b) -> s = a +:+ b ∧ all_chars p a = true ∧ stops_at p b.
Proof.
  revert a b. induction s as [|c s IH]; intros a b H; simpl in H.
  - inversion H; subst. simpl. auto.
  - destruct (p c) eqn:Hc.
    + destruct (span p s) as [a' b'] eqn:E. inversion H; subst.
      destruct (IH a' b eq_refl) as (-> & Ha & Hb).
      simpl. rewrite Hc, Ha. auto.
    + inversion H; subst. simpl. auto.
Qed.

Lemma span_app p (a b : string) :
  all_chars p a = true -> stops_at p b -> span p (a +:+ b) = (a, b).
Proof.
  intros Ha Hb. induction a as [|c a IH]; simpl.
  - destruct b as [|d b]; simpl in *; [reflexivity | now rewrite Hb].
  - simpl in Ha. apply andb_prop in Ha as [Hc Ha]. rewrite Hc, IH; auto.
Qed.

Lemma token_app (k v rest : string) :
  token k v +:+ rest
  = String lbrace (k +:+ String colon (String colon (v +:+ String rbrace rest))).
Proof.
  unfold token. simpl. f_equal. rewrite app_assoc_str. f_equal. simpl.
  do 2 f_equal. now rewrite app_assoc_str.
Qed.

(** The matcher finds a token exactly when one begins the text, and
    then finds that token: the pattern has one way to match at most. *)
Lemma ddwrt_match_at_spec (s k v rest : string) :
  ddwrt_match_at s = Some (k, v, rest) <-> match_here s k v rest.
Proof.
  unfold match_here. split.
  - destruct s as [|c s1]; cbn [ddwrt_match_at]; [discriminate|].
    destruct (Ascii.eqb_spec c lbrace) as [->|]; [|discriminate].
    destruct (span is_word s1) as [key s2] eqn:E1.
    destruct key as [|k0 key]; [discriminate|].
    destruct s2 as [|c1 [|c2 s3]]; try discriminate.
    destruct (Ascii.eqb_spec c1 colon) as [->|]; [|discriminate].
    destruct (Ascii.eqb_spec c2 colon) as [->|]; [|discriminate].
    cbn [andb]. destruct (span not_rbrace s3) as [val s4] eqn:E2.
    destruct s4 as [|x rest']; [discriminate|].
    intros H. inversion H; subst.
    apply span_spec in E1 as (-> & Hk & _).
    apply span_spec in E2 as (-> & Hv & Hx).
    simpl in Hx. unfold not_rbrace in Hx. apply negb_false_iff in Hx.
    apply Ascii.eqb_eq in Hx. subst x.
    rewrite token_app. repeat split; auto; congruence.
  - intros (Hne & Hk & Hv & ->). rewrite token_app.
    cbn [ddwrt_match_at]. rewrite Ascii.eqb_refl.
    rewrite (span_app is_word k) by (auto; reflexivity).
    destruct k as [|k0 k]; [congruence|].
    rewrite !Ascii.eqb_refl. cbn [andb].
    rewrite (span_app not_rbrace v); [reflexivity | assumption |].
    simpl. unfold not_rbrace. now rewrite Ascii.eqb_refl.
Qed.

Lemma ddwrt_match_at_none (s : string) :
  ddwrt_match_at s = None <-> (forall k v rest, ~ match_here s k v rest).
Proof.
  split.
  - intros H k v rest Hm. apply ddwrt_match_at_spec in Hm. congruence.
  - intros H. destruct (ddwrt_match_at s) as [[[k v] rest]|] eqn:E; [|reflexivity].
    apply ddwrt_match_at_spec in E. now apply H in E.
Qed.

Lemma findall_go_skip (x rest : string) :
  findall_go (x +:+ rest) (String.length x) = findall_go rest 0.
Proof. induction x as [|c x IH]; simpl; [reflexivity | exact IH]. Qed.

(** The search, one position at a time. *)
Lemma findall_cons (c : ascii) (s : string) :
  findall (String c s)
  = match ddwrt_match_at (String c s) with
    | Some (k, v, rest) => (k, v) :: findall rest
    | None => findall s
    end.
Proof.
  unfold findall. cbn [findall_go].
  destruct (ddwrt_match_at (String c s)) as [[[k v] rest]|] eqn:E; [|reflexivity].
  f_equal. apply ddwrt_match_at_spec in E as (_ & _ & _ & E).
  rewrite token_app in E. injection E as _ ->.
  set (m := k +:+ String colon (String colon (v +:+ String rbrace EmptyString))).
  assert (Hm : k +:+ String colon (String colon (v +:+ String rbrace rest)) = m +:+ rest).
  { unfold m. rewrite app_assoc_str. simpl. now rewrite app_assoc_str. }
  rewrite Hm, length_app_str.
  replace (String.length m + String.length rest - String.length rest)%nat
    with (String.length m) by lia.
  apply findall_go_skip.
Qed.

Lemma match_here_shorter (s k v rest : string) :
  match_here s k v rest -> (String.length rest < String.length s)%nat.
Proof.
  intros (_ & _ & _ & ->). rewrite length_app_str. unfold token. simpl. lia.
Qed.

(** The search returns the matches of the pattern, and nothing else
    does. *)
Lemma findall_Findall (s : string) : Findall s (findall s).
Proof.
  remember (String.length s) as n eqn:Hn. revert s Hn.
  induction n as [n IH] using lt_wf_ind. intros s Hn.
  destruct s as [|c s]; [constructor|].
  rewrite findall_cons.
  destruct (ddwrt_match_at (String c s)) as [[[k v] rest]|] eqn:E.
  - apply ddwrt_match_at_spec in E.
    econstructor; [exact E|].
    eapply IH; [|reflexivity]. subst n. now apply match_here_shorter in E.
  - apply Findall_pass; [now apply ddwrt_match_at_none|].
    eapply IH; [|reflexivity]. subst n. simpl. lia.
Qed.

Lemma Findall_unique (s : string) (l : list (string * string)) :
  Findall s l -> l = findall s.
Proof.
  induction 1 as [|s k v rest l Hm _ IH|c s l Hn _ IH].
  - reflexivity.
  - destruct s as [|c s]; [destruct Hm as (_ & _ & _ & Hm); discriminate|].
    rewrite findall_cons.
    apply ddwrt_match_at_spec in Hm. rewrite Hm. now f_equal.
  - rewrite findall_cons.
    apply ddwrt_match_at_none in Hn. now rewrite Hn.
Qed.

End TokenPattern.

(** * The hardware-address pattern *)

Section MacPattern.

Lemma is_hex_colon : is_hex colon = false.
Proof. reflexivity. Qed.

Lemma hex_group_inv (h : string) :
  hex_group h = true ->
  (∃ a, is_hex a = true ∧ h = String a EmptyString) ∨
  (∃ a b, is_hex a = true ∧ is_hex b = true ∧ h = String a (String b EmptyString)).
Proof.
  destruct h as [|a [|b [|c h]]]; simpl; try discriminate.
  - intros H. left. eauto.
  - intros H. apply andb_prop in H as [Ha Hb]. right. eauto 6.
Qed.

(** The first alternative of the digits is a group that begins the
    text. *)
Lemma hex12_first (s h r : string) (alts : list (string * string)) :
  hex12 s = (h, r) :: alts -> hex_group h = true ∧ s = h +:+ r.
Proof.
  destruct s as [|a [|b s]]; simpl; [discriminate| |].
  - destruct (is_hex a) eqn:Ha; [|discriminate].
    intros H. inversion H; subst. simpl. now rewrite Ha.
  - destruct (is_hex a) eqn:Ha; [|discriminate].
    destruct (is_hex b) eqn:Hb; simpl; intros H; inversion H; subst; simpl;
      now rewrite Ha, ?Hb.
Qed.

Lemma hex12_group (h r : string) :
  hex_group h = true -> hex12 (h +:+ r) ≠ [].
Proof.
  intros H. apply hex_group_inv in H as [(a & Ha & ->)|(a & b & Ha & Hb & ->)]; simpl.
  - destruct r as [|b r]; rewrite Ha; [discriminate|].
    destruct (is_hex b); simpl; discriminate.
  - rewrite Ha, Hb. simpl. discriminate.
Qed.

(** A group and its colon: found exactly when the text begins so. *)
Lemma hex_colon_spec (s m r : string) :
  hex_colon s = Some (m, r) <->
  ∃ h, hex_group h = true ∧ m = h +:+ String colon EmptyString ∧ s = m +:+ r.
Proof.
  split.
  - destruct s as [|a [|b s]]; unfold hex_colon; simpl hex12.
    + discriminate.
    + destruct (is_hex a); simpl; discriminate.
    + destruct (is_hex a) eqn:Ha; [|discriminate].
      destruct (is_hex b) eqn:Hb; cbn [andb fst snd].
      * destruct s as [|c s]; cbn [colon_at].
        -- destruct (Ascii.eqb_spec b colon) as [->|]; [|discriminate].
           rewrite is_hex_colon in Hb. discriminate.
        -- destruct (Ascii.eqb_spec c colon) as [->|].
           ++ intros H. inversion H; subst.
              exists (String a (String b EmptyString)). simpl. now rewrite Ha, Hb.
           ++ destruct (Ascii.eqb_spec b colon) as [->|]; [|discriminate].
              rewrite is_hex_colon in Hb. discriminate.
      * cbn [colon_at]. destruct (Ascii.eqb_spec b colon) as [->|]; [|discriminate].
        intros H. inversion H; subst.
        exists (String a EmptyString). simpl. now rewrite Ha.
  - intros (h & Hh & -> & ->).
    apply hex_group_inv in Hh as [(a & Ha & ->)|(a & b & Ha & Hb & ->)];
      unfold hex_colon; simpl.
    + rewrite Ha, is_hex_colon. simpl. reflexivity.
    + rewrite Ha, Hb. simpl. reflexivity.
Qed.

Lemma hex_colon_rep_sound (n : nat) (s m r : string) :
  hex_colon_rep n s = Some (m, r) -> colon_groups n m ∧ s = m +:+ r.
Proof.
  revert s m r. induction n as [|n IH]; intros s m r; simpl.
  - intros H. inversion H; subst. auto.
  - destruct (hex_colon s) as [[m1 r1]|] eqn:E1; [|discriminate].
    destruct (hex_colon_rep n r1) as [[m2 r2]|] eqn:E2; [|discriminate].
    intros H. inversion H; subst.
    apply hex_colon_spec in E1 as (h & Hh & -> & ->).
    apply IH in E2 as (Hg & ->).
    split.
    + exists h, m2. repeat split; auto. now rewrite app_assoc_str.
    + now rewrite !app_assoc_str.
Qed.

Lemma hex_colon_rep_complete (n : nat) (m r : string) :
  colon_groups n m -> hex_colon_rep n (m +:+ r) = Some (m, r).
Proof.
  revert m. induction n as [|n IH]; intros m; simpl.
  - now intros ->.
  - intros (h & m' & Hh & Hg & ->).
    assert (E : hex_colon ((h +:+ String colon m') +:+ r)
                = Some (h +:+ String colon EmptyString, m' +:+ r)).
    { apply hex_colon_spec. exists h. repeat split; auto.
      now rewrite !app_assoc_str. }
    rewrite E, (IH _ Hg). now rewrite app_assoc_str.
Qed.

(** What the matcher returns is a hardware address that begins the
    text. *)
Lemma mac_match_sound (s m r : string) :
  mac_match s = Some (m, r) -> mac_shaped m ∧ s = m +:+ r.
Proof.
  unfold mac_match.
  destruct (hex_colon_rep 5 s) as [[m5 r5]|] eqn:E; [|discriminate].
  destruct (hex12 r5) as [|[h r'] alts] eqn:E2; [discriminate|].
  intros H. inversion H; subst.
  apply hex_colon_rep_sound in E as (Hg & ->).
  apply hex12_first in E2 as (Hh & ->).
  split; [now exists m5, h | now rewrite app_assoc_str].
Qed.

(** The matcher accepts exactly the texts that begin with a hardware
    address. *)
Lemma mac_match_prefixed (e : string) :
  is_Some (mac_match e) <-> mac_prefixed e.
Proof.
  split.
  - intros [[m r] H]. apply mac_match_sound in H as (Hm & ->). now exists m, r.
  - intros (m & rest & (m5 & h6 & Hg & Hh & ->) & ->).
    unfold mac_match. rewrite !app_assoc_str.
    rewrite (hex_colon_rep_complete 5 m5 _ Hg).
    pose proof (hex12_group h6 rest Hh) as Hne.
    destruct (hex12 (h6 +:+ rest)) as [|[h r'] alts]; [congruence|]. eauto.
Qed.

End MacPattern.

(** * Maps filled from pairs *)

Section PairMaps.
Implicit Types (l : list (string * string)) (k v : string).

Lemma fill_snoc (d : gmap string string) l k v :
  fold_left (fun d kv => <[fst kv := snd kv]> d) (l ++ [(k, v)]) d
  = <[k := v]> (fold_left (fun d kv => <[fst kv := snd kv]> d) l d).
Proof. now rewrite fold_left_app. Qed.

Lemma map_of_pairs_snoc l k v :
  map_of_pairs (l ++ [(k, v)]) = <[k := v]> (map_of_pairs l).
Proof. apply fill_snoc. Qed.

Lemma last_value_snoc_eq k l v : last_value k (l ++ [(k, v)]) = Some v.
Proof.
  unfold last_value. rewrite filter_app, filter_cons_True by reflexivity.
  rewrite filter_nil, map_app. simpl. apply last_snoc.
Qed.

Lemma last_value_snoc_ne k l k' v :
  k' ≠ k -> last_value k (l ++ [(k', v)]) = last_value k l.
Proof.
  intros Hne. unfold last_value.
  rewrite filter_app, filter_cons_False by (simpl; congruence).
  now rewrite filter_nil, app_nil_r.
Qed.

(** Looking a key up gives the value of its last pair. *)
Lemma map_of_pairs_lookup l k : map_of_pairs l !! k = last_value k l.
Proof.
  induction l as [|[k' v'] l IH] using rev_ind.
  - reflexivity.
  - rewrite map_of_pairs_snoc. destruct (decide (k' = k)) as [->|Hne].
    + now rewrite lookup_insert_eq, last_value_snoc_eq.
    + now rewrite lookup_insert_ne, last_value_snoc_ne.
Qed.

Lemma last_value_none k l : k ∉ map fst l -> last_value k l = None.
Proof.
  intros Hk. unfold last_value.
  induction l as [|[k' v'] l IH]; [reflexivity|].
  simpl in Hk. apply not_elem_of_cons in Hk as [Hne Hk].
  rewrite filter_cons_False by (simpl; congruence). now apply IH.
Qed.

(** A pair after which its key does not come again decides the entry
    of that key. *)
Lemma map_of_pairs_last (pre post : list (string * string)) k v :
  k ∉ map fst post -> map_of_pairs (pre ++ (k, v) :: post) !! k = Some v.
Proof.
  intros Hk. rewrite map_of_pairs_lookup.
  unfold last_value. rewrite filter_app, filter_cons_True by reflexivity.
  apply last_value_none in Hk. unfold last_value in Hk.
  rewrite map_app. simpl. apply last_None in Hk. rewrite Hk.
  apply last_snoc.
Qed.

Lemma map_of_pairs_dom (l : list (string * string)) (k : string) :
  k ∈ dom (map_of_pairs l) <-> k ∈ map fst l.
Proof.
  induction l as [|[k' v'] l IH] using rev_ind.
  - unfold map_of_pairs. simpl. rewrite dom_empty_L. set_solver.
  - rewrite map_of_pairs_snoc, dom_insert_L, map_app. simpl.
    rewrite elem_of_union, elem_of_singleton, elem_of_app, list_elem_of_singleton.
    rewrite IH. tauto.
Qed.

Lemma map_of_pairs_size_le (l : list (string * string)) :
  (size (map_of_pairs l) <= length l)%nat.
Proof.
  induction l as [|[k' v'] l IH] using rev_ind; [reflexivity|].
  rewrite map_of_pairs_snoc, length_app. simpl.
  destruct (map_of_pairs l !! k') eqn:E.
  - rewrite map_size_insert_Some by eauto. lia.
  - rewrite map_size_insert_None by assumption. lia.
Qed.

Lemma dict_truthy_lookup (d : gmap string string) k v :
  d !! k = Some v -> dict_truthy d = true.
Proof.
  intros H. unfold dict_truthy. apply negb_true_iff, bool_decide_eq_false.
  intros ->. now rewrite lookup_empty in H.
Qed.

Lemma length_groups5 (elements : list string) :
  length (groups5 elements) = (length elements / 5)%nat.
Proof.
  remember (length elements) as n eqn:Hn. revert elements Hn.
  induction n as [n IH] using lt_wf_ind. intros elements Hn.
  destruct elements as [|e0 [|e1 [|e2 [|e3 [|e4 rest]]]]]; subst n; try reflexivity.
  cbn [groups5 length].
  rewrite (IH (length rest)) by (simpl; lia || reflexivity).
  change (S (S (S (S (S (length rest)))))) with (5 + length rest)%nat.
  replace (5 + length rest)%nat with (length rest + 1 * 5)%nat by lia.
  rewrite Nat.div_add by lia. lia.
Qed.

(** Elements after the last complete group do not matter. *)
Lemma groups5_trailing (elements tail : list string) :
  (length elements mod 5 = 0)%nat -> (length tail < 5)%nat ->
  groups5 (elements ++ tail) = groups5 elements.
Proof.
  remember (length elements) as n eqn:Hn. revert elements Hn.
  induction n as [n IH] using lt_wf_ind. intros elements Hn Hmod Ht.
  destruct elements as [|e0 [|e1 [|e2 [|e3 [|e4 rest]]]]]; subst n;
    try (simpl in Hmod; discriminate).
  - simpl. destruct tail as [|t0 [|t1 [|t2 [|t3 [|t4 tl]]]]]; simpl in *; try reflexivity; lia.
  - cbn [groups5 app]. f_equal.
    eapply IH; [|reflexivity| |assumption]; [simpl; lia|].
    change (length (e0 :: e1 :: e2 :: e3 :: e4 :: rest)) with (5 + length rest)%nat in Hmod.
    replace (5 + length rest)%nat with (length rest + 1 * 5)%nat in Hmod by lia.
    now rewrite Nat.Div0.mod_add in Hmod.
Qed.
End PairMaps.

(** * The router poll, step by step *)

Ltac unfold_monad :=
  repeat progress
    (unfold mbind, M_bind, bind, mret, M_ret, ret, gets, modify, raise, try_except,
       http_get, nmap_scan, _arp, dt_now, io, py_index, set_self in *;
     cbn beta iota in *).

Section DdWrtRuns.
Import DdWrt.
Context {W : Type} (env : Env W).
Implicit Types (h : Heap Scanner W) (d : gmap string string).

(** [get_ddwrt_data] makes one request; what it gives depends on the
    answer alone. *)
Lemma get_ddwrt_data_run (url : string) h :
  get_ddwrt_data env url h
  = let '(r, w') := requests_get env url (username (self h), password (self h)) (world h) in
    match r with
    | HttpRaises e =>
        if exn_eqb e RequestsTimeout then (Returns None, after_get url w' h)
        else (Raises e, after_get url w' h)
    | HttpResponse status_code text =>
        (Returns (if status_code =? 200 then Some (_parse_ddwrt_response text) else None),
         after_get url w' h)
    end.
Proof.
  unfold get_ddwrt_data. unfold_monad. cbn.
  destruct (requests_get env url _ (world h)) as [[e|status text] w']; cbn.
  - destruct e; reflexivity.
  - destruct (status =? 200); [reflexivity|].
    destruct (status =? 401); reflexivity.
Qed.
End DdWrtRuns.

Section DdWrtLeases.
Import DdWrt.
Context {W : Type} (env : Env W).
Implicit Types (h : Heap Scanner W) (d : gmap string string).

Lemma with_mac2name_same h : with_mac2name (mac2name (self h)) h = h.
Proof. destruct h as [[] ? ?]. reflexivity. Qed.

Lemma with_mac2name_twice d d' h :
  with_mac2name d (with_mac2name d' h) = with_mac2name d h.
Proof. reflexivity. Qed.

Lemma short_no_group (rest : list string) :
  (length rest / 5 = 0)%nat -> groups5 rest = [].
Proof.
  intros H. destruct rest as [|e0 [|e1 [|e2 [|e3 [|e4 rest]]]]]; try reflexivity.
  exfalso. apply Nat.div_small_iff in H; simpl in H; lia.
Qed.

(** The loop over the groups that begin at element [5 * k] of
    [pre ++ rest] puts the pairs of [rest] into the index, and raises
    nothing. *)
Lemma lease_loop_run (m : nat) : forall (pre rest : list string) (k : nat) h,
  length pre = (k * 5)%nat -> (length rest / 5)%nat = m ->
  for_each (seq k m) (lease_step (W:=W) (pre ++ rest)) h
  = (Returns tt,
     with_mac2name
       (fold_left (fun d kv => <[fst kv := snd kv]> d) (groups5 rest)
                  (mac2name (self h))) h).
Proof.
  induction m as [|m IH]; intros pre rest k h Hpre Hm.
  - rewrite short_no_group by assumption. simpl.
    now rewrite with_mac2name_same.
  - destruct rest as [|e0 [|e1 [|e2 [|e3 [|e4 rest]]]]];
      try (exfalso; simpl in Hm; cbv in Hm; discriminate).
    assert (Hm' : (length rest / 5 = m)%nat).
    { change (length (e0 :: e1 :: e2 :: e3 :: e4 :: rest)) with (5 + length rest)%nat in Hm.
      replace (5 + length rest)%nat with (length rest + 1 * 5)%nat in Hm by lia.
      rewrite Nat.div_add in Hm by lia. lia. }
    cbn [seq for_each groups5 fold_left fst snd].
    unfold mbind at 1, M_bind at 1, bind at 1.
    assert (Hstep : lease_step (W:=W) (pre ++ e0 :: e1 :: e2 :: e3 :: e4 :: rest) k h
                    = (Returns tt, with_mac2name (<[e2 := e0]> (mac2name (self h))) h)).
    { unfold lease_step.
      assert (Hlt : (k * 5 + 2 <? length (pre ++ e0 :: e1 :: e2 :: e3 :: e4 :: rest))%nat = true).
      { apply Nat.ltb_lt. rewrite length_app. simpl. lia. }
      rewrite Hlt. unfold_monad.
      rewrite (lookup_app_r pre) by lia.
      replace (k * 5 + 2 - length pre)%nat with 2%nat by lia. cbn [lookup list_lookup].
      rewrite (lookup_app_r pre) by lia.
      replace (k * 5 - length pre)%nat with 0%nat by lia. reflexivity. }
    rewrite Hstep.
    replace (pre ++ e0 :: e1 :: e2 :: e3 :: e4 :: rest)
      with ((pre ++ [e0; e1; e2; e3; e4]) ++ rest) by now rewrite <- app_assoc.
    rewrite (IH (pre ++ [e0; e1; e2; e3; e4]) rest (S k)); auto.
    rewrite length_app. simpl. lia.
Qed.

(** A miss that the router answers with a lease table: the index is
    rebuilt from the complete groups of the table. *)
Lemma get_device_name_miss (device text v : string) (w' : W) h :
  device ∉ dom (mac2name (self h)) ->
  requests_get env (lan_url (host (self h)))
    (username (self h), password (self h)) (world h) = (HttpResponse 200 text, w') ->
  _parse_ddwrt_response text !! "dhcp_leases" = Some v ->
  v ≠ EmptyString ->
  let index := map_of_pairs (groups5 (split dquote_sep (strip_char dquote (strip v)))) in
  get_device_name env device h
  = (Returns (index !! device),
     with_mac2name index (after_get (lan_url (host (self h))) w' h)).
Proof.
  intros Hmiss Hget Hv Hne index.
  unfold get_device_name.
  unfold mbind at 1, M_bind at 1, bind at 1, gets at 1.
  rewrite bool_decide_eq_false_2 by assumption.
  unfold mbind at 1, M_bind at 1, bind at 1.
  rewrite get_ddwrt_data_run, Hget. cbn [Z.eqb Pos.eqb].
  rewrite (dict_truthy_lookup _ _ _ Hv). cbn [negb]. rewrite Hv.
  destruct v as [|c v]; [congruence|]. cbn [str_truthy negb].
  set (elements := split dquote_sep (strip_char dquote (strip (String c v)))) in *.
  unfold mbind at 1, M_bind at 1, bind at 1, modify at 1.
  unfold mbind at 1, M_bind at 1, bind at 1.
  change elements with ([] ++ elements) at 2.
  rewrite (lease_loop_run (length elements / 5) [] elements 0) by reflexivity.
  reflexivity.
Qed.

(** A hit answers from the index and touches nothing. *)
Lemma get_device_name_hit (device : string) h :
  device ∈ dom (mac2name (self h)) ->
  get_device_name env device h = (Returns (mac2name (self h) !! device), h).
Proof.
  intros Hin. unfold get_device_name.
  unfold mbind at 1, M_bind at 1, bind at 1, gets at 1.
  now rewrite bool_decide_eq_true_2 by assumption.
Qed.
End DdWrtLeases.

Section DdWrtRefresh.
Import DdWrt.
Context {W : Type} (env : Env W).
Implicit Types (h : Heap Scanner W).

(** One execution of [_update_info], case by case. *)
Lemma update_info_run h :
  _update_info env h
  = if negb (success_init (self h)) then (Returns false, h) else
    let url := wireless_url (host (self h)) in
    let '(r, w') := requests_get env url (username (self h), password (self h)) (world h) in
    let h1 := after_get url w' h in
    match r with
    | HttpRaises e =>
        if exn_eqb e RequestsTimeout then (Returns false, h1) else (Raises e, h1)
    | HttpResponse status_code text =>
        if status_code =? 200 then
          let d := _parse_ddwrt_response text in
          if dict_truthy d then
            match d !! "active_wireless" with
            | Some v =>
                if str_truthy v then
                  (Returns true,
                   with_last_results
                     (filter (fun item => is_Some (mac_match item))
                        (split squote_sep (strip_char squote (strip v)))) h1)
                else (Returns false, with_last_results [] h1)
            | None => (Returns false, with_last_results [] h1)
            end
          else (Returns false, h1)
        else (Returns false, h1)
    end.
Proof.
  unfold _update_info.
  unfold mbind at 1, M_bind at 1, bind at 1, gets at 1.
  destruct (success_init (self h)); [|reflexivity]. cbn [negb].
  unfold mbind at 1, M_bind at 1, bind at 1.
  rewrite get_ddwrt_data_run. cbv zeta.
  destruct (requests_get env _ _ (world h)) as [[e|status text] w'].
  - destruct (exn_eqb e RequestsTimeout); reflexivity.
  - destruct (status =? 200); [|reflexivity].
    destruct (dict_truthy (_parse_ddwrt_response text)); [|reflexivity].
    cbn [negb]. unfold_monad.
    destruct (_parse_ddwrt_response text !! "active_wireless") as [v|]; [|reflexivity].
    destruct (str_truthy v); reflexivity.
Qed.

(** An execution on an initialised scanner makes exactly one request,
    and leaves the configuration alone. *)
Lemma update_info_one_get h (r : result bool) (h' : Heap Scanner W) :
  success_init (self h) = true ->
  _update_info env h = (r, h') ->
  io_log h' = io_log h ++ [HttpGet (wireless_url (host (self h)))] ∧
  success_init (self h') = true ∧ host (self h') = host (self h).
Proof.
  intros Hinit. rewrite update_info_run, Hinit. cbn [negb]. cbv zeta.
  destruct (requests_get env _ _ (world h)) as [[e|status text] w'].
  - destruct (exn_eqb e RequestsTimeout); intros H; inversion H; subst; auto.
  - destruct (status =? 200); [|intros H; inversion H; subst; auto].
    destruct (dict_truthy _); [|intros H; inversion H; subst; auto].
    destruct (_ !! "active_wireless") as [v|]; [|intros H; inversion H; subst; auto].
    destruct (str_truthy v); intros H; inversion H; subst; auto.
Qed.
End DdWrtRefresh.

(** * Throttling, for any wrapped method *)

Section ThrottleFacts.
Context {Self W : Type} (env : Env W).
Variable d : Z.
Hypothesis d_nonneg : 0 <= d.
Variable method : M (Heap Self W) bool.
Implicit Types (t : Throttled Self W).

Lemma spaced_nil : spaced d [].
Proof. intros i j ti tj _ H. now rewrite lookup_nil in H. Qed.

Lemma spaced_snoc (l : list Z) (x : Z) :
  spaced d l -> (forall tl, last l = Some tl -> d <= x - tl) -> spaced d (l ++ [x]).
Proof.
  intros Hl Hx i j ti tj Hij Hi Hj.
  assert (Hjlen : (j < length (l ++ [x]))%nat) by (eapply lookup_lt_Some; eauto).
  rewrite length_app in Hjlen. simpl in Hjlen.
  destruct (decide (j < length l)%nat) as [Hj'|Hj'].
  - rewrite lookup_app_l in Hi, Hj by lia. eauto.
  - assert (j = length l) by lia. subst j.
    rewrite lookup_app_r in Hj by lia. rewrite Nat.sub_diag in Hj.
    injection Hj as <-.
    rewrite lookup_app_l in Hi by lia.
    destruct (last l) as [tl|] eqn:Hlast.
    + pose proof (Hx tl eq_refl) as Hd.
      rewrite last_lookup in Hlast.
      destruct (decide (i = pred (length l))) as [->|Hne].
      * rewrite Hi in Hlast. injection Hlast as ->. exact Hd.
      * assert (d <= tl - ti) by (eapply (Hl i (pred (length l))); eauto; lia). lia.
    + apply last_None in Hlast. subst l. now rewrite lookup_nil in Hi.
Qed.

Lemma lift_gets {A} (f : Heap Self W -> A) t :
  lift_heap (gets f) t = (Returns (f (heap t)), t).
Proof. destruct t. reflexivity. Qed.

(** Inside the window nothing runs and nothing changes. *)
Lemma Throttle_in_window t (t_last : Z) :
  last_refresh_at t = Some t_last ->
  now env (world (heap t)) - t_last < d ->
  Throttle env d method t = (Returns (last_status t), t).
Proof.
  intros Hl Hlt. unfold Throttle, refresh_due. rewrite Hl.
  destruct (Z.leb_spec d (now env (world (heap t)) - t_last)); [lia | reflexivity].
Qed.

(** When a refresh is due the method runs once, on the heap as it is. *)
Lemma Throttle_due t :
  refresh_due d (last_refresh_at t) (now env (world (heap t))) = true ->
  Throttle env d method t
  = let t_now := now env (world (heap t)) in
    match method (heap t) with
    | (Returns ok, h') => (Returns ok, mkThrottled h' (Some t_now) ok (refresh_log t ++ [t_now]))
    | (Raises e, h') =>
        (Raises e, mkThrottled h' (Some t_now) (last_status t) (refresh_log t ++ [t_now]))
    end.
Proof. intros H. unfold Throttle. now rewrite H. Qed.

Lemma Throttle_ok t (r : result bool) (t' : Throttled Self W) :
  throttle_ok d t -> Throttle env d method t = (r, t') -> throttle_ok d t'.
Proof.
  intros [Hlast Hsp]. unfold Throttle.
  destruct (refresh_due d (last_refresh_at t) _) eqn:Hdue.
  - assert (Hok : forall (h' : Heap Self W) st,
              throttle_ok d (mkThrottled h' (Some (now env (world (heap t)))) st
                               (refresh_log t ++ [now env (world (heap t))]))).
    { intros h' st. split; cbn.
      - now rewrite last_snoc.
      - apply spaced_snoc; [assumption|].
        intros tl Htl. unfold refresh_due in Hdue.
        rewrite Hlast, Htl in Hdue. now apply Z.leb_le in Hdue. }
    destruct (method (heap t)) as [[ok|e] h']; intros H; inversion H; subst; apply Hok.
  - intros H. inversion H; subst. now split.
Qed.

Lemma at_world_ok (w : W) t : throttle_ok d t -> throttle_ok d (at_world w t).
Proof. intros H. exact H. Qed.
End ThrottleFacts.

(** * A throttled refresh followed by a read of the cache *)

Section ThrottledScan.
Context {Self W A : Type} (env : Env W).
Variable d : Z.
Hypothesis d_nonneg : 0 <= d.
Variable method : M (Heap Self W) bool.
Variable view : Heap Self W -> A.
Implicit Types (t : Throttled Self W).

Local Abbreviation scan :=
  (Throttle env d method ≫= fun _ => lift_heap (gets view)).

Lemma scan_run t :
  scan t = match Throttle env d method t with
           | (Returns _, t') => (Returns (view (heap t')), t')
           | (Raises e, t') => (Raises e, t')
           end.
Proof.
  unfold mbind, M_bind, bind.
  destruct (Throttle env d method t) as [[ok|e] t']; [|reflexivity].
  apply lift_gets.
Qed.

Lemma scan_state t : snd (scan t) = snd (Throttle env d method t).
Proof.
  rewrite scan_run. now destruct (Throttle env d method t) as [[ok|e] t'].
Qed.

Lemma scan_in_window t (t_last : Z) :
  last_refresh_at t = Some t_last ->
  now env (world (heap t)) - t_last < d ->
  scan t = (Returns (view (heap t)), t).
Proof.
  intros Hl Hlt. rewrite scan_run.
  now rewrite (Throttle_in_window env d method t t_last).
Qed.

Lemma scan_ok t : throttle_ok d t -> throttle_ok d (snd (scan t)).
Proof.
  intros H. rewrite scan_state.
  destruct (Throttle env d method t) as [r t'] eqn:E.
  eapply Throttle_ok; eauto.
Qed.

Lemma calls_ok (ws : list W) t :
  throttle_ok d t -> throttle_ok d (calls scan ws t).
Proof.
  revert t. induction ws as [|w ws IH]; intros t H; [exact H|].
  simpl. apply IH, scan_ok. exact H.
Qed.

(** However the calls fall, the executions are spaced. *)
Lemma calls_spaced (ws : list W) t :
  throttle_ok d t -> spaced d (refresh_log (calls scan ws t)).
Proof. intros H. now apply calls_ok. Qed.

(** ** Counting fetches *)

Variable P : Heap Self W -> Prop.
Hypothesis P_world : forall h w, P h -> P (mkHeap (self h) w (io_log h)).
Hypothesis method_fetch : forall h r h',
  P h -> method h = (r, h') ->
  fetch_count (io_log h') = S (fetch_count (io_log h)) ∧ P h'.

Lemma scan_due_fetch t :
  P (heap t) ->
  refresh_due d (last_refresh_at t) (now env (world (heap t))) = true ->
  fetch_count (io_log (heap (snd (scan t)))) = S (fetch_count (io_log (heap t))) ∧
  P (heap (snd (scan t))) ∧
  last_refresh_at (snd (scan t)) = Some (now env (world (heap t))).
Proof.
  intros HP Hdue. rewrite scan_state, Throttle_due by assumption. cbv zeta.
  destruct (method (heap t)) as [r h'] eqn:E.
  destruct (method_fetch _ _ _ HP E) as [Hc HP'].
  destruct r; cbn; auto.
Qed.

Lemma two_calls_close (w1 w2 : W) t :
  P (heap t) ->
  refresh_due d (last_refresh_at t) (now env w1) = true ->
  now env w2 - now env w1 < d ->
  fetch_count (io_log (heap (calls scan [w1; w2] t)))
  = S (fetch_count (io_log (heap t))).
Proof.
  intros HP Hdue Hgap. cbn [calls].
  destruct (scan_due_fetch (at_world w1 t)) as (Hc & HP1 & Hl1);
    [now apply P_world | exact Hdue |].
  set (t1 := snd (scan (at_world w1 t))) in *.
  rewrite (scan_in_window (at_world w2 t1) (now env w1)); [| exact Hl1 | exact Hgap].
  exact Hc.
Qed.

Lemma two_calls_apart (w1 w2 : W) t :
  P (heap t) ->
  refresh_due d (last_refresh_at t) (now env w1) = true ->
  d <= now env w2 - now env w1 ->
  fetch_count (io_log (heap (calls scan [w1; w2] t)))
  = S (S (fetch_count (io_log (heap t)))).
Proof.
  intros HP Hdue Hgap. cbn [calls].
  destruct (scan_due_fetch (at_world w1 t)) as (Hc & HP1 & Hl1);
    [now apply P_world | exact Hdue |].
  set (t1 := snd (scan (at_world w1 t))) in *.
  destruct (scan_due_fetch (at_world w2 t1)) as (Hc2 & _ & _).
  - now apply P_world.
  - cbn. rewrite Hl1. cbn. now apply Z.leb_le.
  - rewrite Hc2. cbn [at_world heap io_log]. now rewrite Hc.
Qed.
End ThrottledScan.

(** * The sweep, step by step *)

Section NmapRuns.
Import Nmap.
Context {W : Type} (env : Env W).
Implicit Types (h : Heap Scanner W).

Lemma upper_char_idem (c : ascii) : upper_char (upper_char c) = upper_char c.
Proof. destruct c as [[] [] [] [] [] [] [] []]; reflexivity. Qed.

Lemma upper_idem (s : string) : upper (upper s) = upper s.
Proof.
  induction s as [|c s IH]; simpl; [reflexivity|].
  now rewrite upper_char_idem, IH.
Qed.

Lemma heap_eta h : mkHeap (self h) (world h) (io_log h ++ []) = h.
Proof. destruct h. cbn. now rewrite app_nil_r. Qed.

(** One host of the sweep: records are only added, each stamped with
    the reading [t]; the only calls made are address lookups. *)
Lemma scan_step_run (t : Z) (item : string * HostInfo) h :
  ∃ (new : list Device) (arps : list io_event) (w' : W),
    (forall acc, scan_step env t acc item h
                 = (Returns (acc ++ new), mkHeap (self h) w' (io_log h ++ arps))) ∧
    Forall (fun ev => is_fetch ev = false) arps ∧
    Forall (stamped t) new.
Proof.
  destruct item as [ipv4 info]. unfold scan_step.
  set (name_ := match hostnames info with n :: _ => n | [] => ipv4 end).
  assert (Hdev : forall m, stamped t (mkDevice (upper m) name_ ipv4 t)).
  { intros m. split; [reflexivity | apply upper_idem]. }
  destruct (String.eqb (status_state info) "up").
  2:{ exists [], [], (world h). repeat split; auto.
      intros acc. cbn. unfold_monad. now rewrite app_nil_r, heap_eta. }
  cbn [negb].
  assert (Harp : ∃ new arps w',
    (forall acc,
       (_arp env ipv4 ≫= fun mac_ : option string =>
          match mac_ with
          | None => mret acc
          | Some m => mret (acc ++ [mkDevice (upper m) name_ ipv4 t])
          end) h
       = (Returns (acc ++ new), mkHeap (self h) w' (io_log h ++ arps))) ∧
    Forall (fun ev => is_fetch ev = false) arps ∧ Forall (stamped t) new).
  { destruct (arp_communicate env ipv4 (world h)) as [out w'] eqn:E.
    destruct (mac_search out) as [m|] eqn:Es.
    - exists [mkDevice (upper m) name_ ipv4 t], [ArpLookup ipv4], w'.
      repeat split; auto. intros acc. unfold_monad. rewrite E. cbn. now rewrite Es.
    - exists [], [ArpLookup ipv4], w'.
      repeat split; auto. intros acc. unfold_monad. rewrite E. cbn.
      now rewrite Es, app_nil_r. }
  destruct (addresses_mac info) as [m|]; [|exact Harp].
  destruct (str_truthy m); [|exact Harp].
  exists [mkDevice (upper m) name_ ipv4 t], [], (world h).
  repeat split; auto. intros acc. unfold_monad. now rewrite heap_eta.
Qed.

Lemma scan_loop_run (t : Z) (items : list (string * HostInfo)) : forall h,
  ∃ (fresh : list Device) (arps : list io_event) (w' : W),
    (forall acc, scan_loop env t acc items h
                 = (Returns (acc ++ fresh), mkHeap (self h) w' (io_log h ++ arps))) ∧
    Forall (fun ev => is_fetch ev = false) arps ∧
    Forall (stamped t) fresh.
Proof.
  induction items as [|item items IH]; intros h.
  - exists [], [], (world h). repeat split; auto.
    intros acc. cbn. unfold_monad. now rewrite app_nil_r, heap_eta.
  - destruct (scan_step_run t item h) as (new & arps1 & w1 & Hstep & Ha1 & Hn1).
    destruct (IH (mkHeap (self h) w1 (io_log h ++ arps1)))
      as (fresh & arps2 & w2 & Hloop & Ha2 & Hn2).
    exists (new ++ fresh), (arps1 ++ arps2), w2. repeat split.
    + intros acc. cbn [scan_loop]. unfold mbind, M_bind, bind.
      rewrite Hstep, Hloop. cbn [self io_log]. now rewrite !app_assoc.
    + now apply Forall_app.
    + now apply Forall_app.
Qed.

(** One execution of [_update_info], case by case. *)
Lemma sweep_run h :
  _update_info env h
  = let s := self h in
    let carried :=
      if bool_decide (home_interval s ≠ 0)
      then seen_since (now env (world h) - home_interval s) (last_results s)
      else [] in
    let options := exclude_options carried in
    let '(r, w1) := portscanner_scan env (hosts s) options (world h) in
    let h1 := mkHeap s w1 (io_log h ++ [NmapScan (hosts s) options]) in
    match r with
    | ScanRaises => (Returns false, h1)
    | ScanResult items =>
        match scan_loop env (now env w1) carried items h1 with
        | (Returns l, h2) => (Returns true, with_devices l h2)
        | (Raises e, h2) => (Raises e, h2)
        end
    end.
Proof.
  unfold _update_info.
  unfold mbind at 1, M_bind at 1, bind at 1, gets at 1.
  cbv zeta.
  destruct (bool_decide (home_interval (self h) ≠ 0)); unfold_monad; cbn [fst snd];
    destruct (portscanner_scan env _ _ (world h)) as [[|items] w1]; cbn; try reflexivity;
    match goal with |- context [scan_loop env ?t ?c ?i ?hh] =>
      destruct (scan_loop env t c i hh) as [[l|e] h2]; reflexivity end.
Qed.
End NmapRuns.

(** * The claims *)

(** ** The brace parser *)

(** C6.  For every input text the brace parser returns a mapping (it is
    a total function, so it cannot fail on malformed or partial input):
    the mapping filled, in order, from the non-overlapping matches of the
    token pattern found from left to right, unmatched text being passed
    over; the matches are determined by the text, and the value of a key
    is that of its last match.  The text [{foo::bar}{baz::1,2,3}] gives
    the mapping of [foo] to [bar] and [baz] to [1,2,3]; the unterminated
    [{foo::bar] gives the empty mapping. *)
Theorem brace_parser_spec :
  (forall data_str : string,
     ∃ l, Findall data_str l ∧
          (forall l', Findall data_str l' -> l' = l) ∧
          DdWrt._parse_ddwrt_response data_str = map_of_pairs l ∧
          (forall k, DdWrt._parse_ddwrt_response data_str !! k = last_value k l)) ∧
  DdWrt._parse_ddwrt_response "{foo::bar}{baz::1,2,3}"
  = <["baz" := "1,2,3"]> (<["foo" := "bar"]> ∅) ∧
  DdWrt._parse_ddwrt_response "{foo::bar" = ∅.
Proof.
  split; [|split].
  - intros s. exists (findall s). split; [apply findall_Findall|].
    split; [|split].
    + intros l' H. now apply Findall_unique.
    + reflexivity.
    + intros k. apply map_of_pairs_lookup.
  - reflexivity.
  - reflexivity.
Qed.

(** The matches of a text with a repeated key: the last value stays. *)
Lemma brace_parser_spec_witness :
  ∃ l, Findall "{a::1}junk{b::2}{a::3}" l ∧
       (forall l', Findall "{a::1}junk{b::2}{a::3}" l' -> l' = l) ∧
       DdWrt._parse_ddwrt_response "{a::1}junk{b::2}{a::3}" = map_of_pairs l ∧
       (forall k, DdWrt._parse_ddwrt_response "{a::1}junk{b::2}{a::3}" !! k = last_value k l).
Proof. exact (proj1 brace_parser_spec "{a::1}junk{b::2}{a::3}"). Defined.

(** ** The active-client list *)

(** C4, as stated, fails: the entries kept are not put in upper case.  A
    router that lists the client [aa:bb:cc:dd:ee:ff] leaves that very
    text in the results. *)
Lemma active_clients_not_uppercased :
  ~ (forall (env : Env Z) (h : Heap DdWrt.Scanner Z) (text : string) (w' : Z)
            (entries : list string),
       DdWrt.success_init (self h) = true ->
       requests_get env (DdWrt.wireless_url (DdWrt.host (self h)))
         (DdWrt.username (self h), DdWrt.password (self h)) (world h)
       = (HttpResponse 200 text, w') ->
       DdWrt._parse_ddwrt_response text !! "active_wireless"
       = Some (quoted_list squote entries) ->
       entries ≠ [] -> Forall (plain_entry squote) entries ->
       ∃ h', DdWrt._update_info env h = (Returns true, h') ∧
             DdWrt.last_results (self h')
             = map upper (filter (fun e => is_Some (mac_match e)) entries)).
Proof.
  intros H.
  destruct (H (TestWorld.fixed
                 (HttpResponse 200 "{active_wireless::'aa:bb:cc:dd:ee:ff'}") ScanRaises "")
              (mkHeap (DdWrt.mkScanner "192.168.1.1" "admin" "secret" [] ∅ true) 0 [])
              "{active_wireless::'aa:bb:cc:dd:ee:ff'}" 0 ["aa:bb:cc:dd:ee:ff"])
    as (h' & Hrun & Hres).
  - reflexivity.
  - reflexivity.
  - reflexivity.
  - discriminate.
  - repeat constructor. discriminate.
  - vm_compute in Hrun. inversion Hrun; subst h'.
    vm_compute in Hres. discriminate.
Qed.

(** C4, amended.  When the router's answer holds an active-client field
    that is a quoted, comma-separated list of plain entries, the refresh
    succeeds and the results are exactly the entries that begin with a
    hardware address, in their order and as the router wrote them (no
    change of letter case); an entry is kept exactly when a prefix of it
    is six colon-separated groups of one or two hex digits. *)
Theorem active_clients_extraction {W : Type} (env : Env W)
    (h : Heap DdWrt.Scanner W) (text : string) (w' : W) (entries : list string) :
  DdWrt.success_init (self h) = true ->
  requests_get env (DdWrt.wireless_url (DdWrt.host (self h)))
    (DdWrt.username (self h), DdWrt.password (self h)) (world h)
  = (HttpResponse 200 text, w') ->
  DdWrt._parse_ddwrt_response text !! "active_wireless"
  = Some (quoted_list squote entries) ->
  entries ≠ [] -> Forall (plain_entry squote) entries ->
  ∃ h', DdWrt._update_info env h = (Returns true, h') ∧
        DdWrt.last_results (self h')
        = filter (fun e => is_Some (mac_match e)) entries ∧
        (forall e, e ∈ DdWrt.last_results (self h') <-> e ∈ entries ∧ mac_prefixed e).
Proof.
  intros Hinit Hget Hfield Hne Hplain.
  eexists. split; [|split].
  - rewrite update_info_run, Hinit. cbn [negb]. cbv zeta. rewrite Hget.
    cbn [Z.eqb Pos.eqb]. rewrite (dict_truthy_lookup _ _ _ Hfield), Hfield.
    cbn [quoted_list str_truthy].
    change (String squote (join (String squote (String comma (String squote EmptyString))) entries
                           +:+ String squote EmptyString))
      with (quoted_list squote entries).
    unfold DdWrt.squote_sep.
    rewrite (read_quoted_list squote eq_refl entries Hne Hplain). reflexivity.
  - reflexivity.
  - intros e. cbn. rewrite list_elem_of_filter, mac_match_prefixed. tauto.
Qed.

(** The list of the three entries, two of them hardware addresses. *)
Lemma active_clients_extraction_witness :
  ∃ h', DdWrt._update_info
          (TestWorld.fixed
             (HttpResponse 200
                "{active_wireless::'AA:BB:CC:DD:EE:FF','not-a-mac','11:22:33:44:55:66'}")
             ScanRaises "")
          (mkHeap (DdWrt.mkScanner "192.168.1.1" "admin" "secret" [] ∅ true) 0 [])
        = (Returns true, h') ∧
        DdWrt.last_results (self h') = ["AA:BB:CC:DD:EE:FF"; "11:22:33:44:55:66"].
Proof.
  destruct (active_clients_extraction
              (TestWorld.fixed
                 (HttpResponse 200
                    "{active_wireless::'AA:BB:CC:DD:EE:FF','not-a-mac','11:22:33:44:55:66'}")
                 ScanRaises "")
              (mkHeap (DdWrt.mkScanner "192.168.1.1" "admin" "secret" [] ∅ true) 0 [])
              "{active_wireless::'AA:BB:CC:DD:EE:FF','not-a-mac','11:22:33:44:55:66'}" 0
              ["AA:BB:CC:DD:EE:FF"; "not-a-mac"; "11:22:33:44:55:66"])
    as (h' & Hrun & Hres & _).
  - reflexivity.
  - reflexivity.
  - reflexivity.
  - discriminate.
  - repeat constructor; discriminate.
  - exists h'. split; [exact Hrun|]. rewrite Hres. reflexivity.
Defined.

(** ** Letter case of hardware addresses *)

Lemma same_letter_upper (a b : ascii) :
  same_letter a b -> upper_char a = upper_char b.
Proof.
  intros [->|[[_ ->]|[_ ->]]]; [reflexivity | |]; now rewrite upper_char_idem.
Qed.

Lemma case_variant_upper (a b : string) : case_variant a b -> upper a = upper b.
Proof.
  induction 1 as [|x y s t Hxy _ IH]; simpl; [reflexivity|].
  now rewrite (same_letter_upper x y Hxy), IH.
Qed.

Lemma case_variant_truthy (a b : string) :
  case_variant a b -> str_truthy a = str_truthy b.
Proof. now destruct 1. Qed.

Ltac case_variant_tac :=
  repeat (apply case_variant_cons;
          [first [left; reflexivity
                 | right; left; split; reflexivity
                 | right; right; split; reflexivity]|]);
  apply case_variant_nil.

(** C5, as stated, fails: looking a name up compares the texts as they
    are.  With a device recorded as [AA:BB:CC:DD:EE:FF], the query
    [aa:bb:cc:dd:ee:ff] finds nothing while [AA:BB:CC:DD:EE:FF] finds
    the name. *)
Lemma lookup_is_case_sensitive :
  ~ (forall (h : Heap Nmap.Scanner Z) (a b : string),
       case_variant a b ->
       fst (Nmap.get_device_name a h) = fst (Nmap.get_device_name b h)).
Proof.
  intros H.
  specialize (H (mkHeap (Nmap.mkScanner
                   [Nmap.mkDevice "AA:BB:CC:DD:EE:FF" "phone" "192.168.1.23" 0]
                   "192.168.1.0/24" 0 true) 0 [])
                "aa:bb:cc:dd:ee:ff" "AA:BB:CC:DD:EE:FF").
  assert (Hcv : case_variant "aa:bb:cc:dd:ee:ff" "AA:BB:CC:DD:EE:FF") by case_variant_tac.
  specialize (H Hcv). vm_compute in H. discriminate.
Qed.

(** A lookup in the sweep's records: the first record whose address is
    the queried text, nothing when there is none; the heap is left as it
    is. *)
Lemma name_lookup_exact {W : Type} (q : string) (h : Heap Nmap.Scanner W) :
  ∃ r, Nmap.get_device_name q h = (Returns r, h) ∧
       (forall n, r = Some n ->
          ∃ dev, dev ∈ Nmap.last_results (self h) ∧
                 Nmap.mac dev = q ∧ Nmap.name dev = n) ∧
       (r = None -> forall dev, dev ∈ Nmap.last_results (self h) -> Nmap.mac dev ≠ q).
Proof.
  unfold Nmap.get_device_name. unfold_monad.
  destruct (filter (fun device => Nmap.mac device = q) (Nmap.last_results (self h)))
    as [|dev l] eqn:E; cbn [map].
  - exists None. split; [reflexivity|]. split; [discriminate|].
    intros _ dev Hin Hq.
    assert (Hf : dev ∈ filter (fun device => Nmap.mac device = q)
                         (Nmap.last_results (self h)))
      by (apply list_elem_of_filter; auto).
    rewrite E in Hf. now apply not_elem_of_nil in Hf.
  - exists (Some (Nmap.name dev)). split; [reflexivity|]. split; [|discriminate].
    intros n [= <-]. exists dev.
    assert (Hf : dev ∈ filter (fun device => Nmap.mac device = q)
                         (Nmap.last_results (self h)))
      by (rewrite E; constructor).
    apply list_elem_of_filter in Hf as [Hq Hin]. auto.
Qed.

Lemma no_match_no_record (q : string) (l : list Nmap.Device) :
  (forall d, d ∈ l -> Nmap.mac d ≠ q) ->
  filter (fun device => Nmap.mac device = q) l = [].
Proof.
  induction l as [|d l IH]; intros Hno; [reflexivity|].
  rewrite filter_cons_False by (apply Hno; constructor).
  apply IH. intros d' Hin. apply Hno. now constructor.
Qed.

(** C5, amended.  For two hardware-address texts that differ only in
    letter case: their upper-case forms are the same text, and the sweep
    records a host reported up with the one exactly as it records a host
    reported up with the other: it appends one record, and that record
    holds the common upper-case form as its address.  Looking a name up,
    however, compares the queried text with the recorded ones as they
    are: the answer is the name of the first record whose address is the
    queried text itself, and nothing when there is no such record. *)
Theorem sweep_stores_upper_case {W : Type} (env : Env W) (a b : string) :
  case_variant a b ->
  upper a = upper b ∧
  (forall t acc ipv4 st hn (h : Heap Nmap.Scanner W),
     Nmap.scan_step env t acc (ipv4, mkHostInfo st hn (Some a)) h
     = Nmap.scan_step env t acc (ipv4, mkHostInfo st hn (Some b)) h) ∧
  (a ≠ EmptyString ->
   forall t acc ipv4 hn (h : Heap Nmap.Scanner W),
     let record :=
       Nmap.mkDevice (upper a) (match hn with n :: _ => n | [] => ipv4 end) ipv4 t in
     Nmap.mac record = upper b ∧
     Nmap.scan_step env t acc (ipv4, mkHostInfo "up" hn (Some a)) h
     = (Returns (acc ++ [record]), h) ∧
     Nmap.scan_step env t acc (ipv4, mkHostInfo "up" hn (Some b)) h
     = (Returns (acc ++ [record]), h)) ∧
  (forall q pre dev post (h : Heap Nmap.Scanner W),
     Nmap.last_results (self h) = pre ++ dev :: post ->
     Nmap.mac dev = q ->
     (forall d, d ∈ pre -> Nmap.mac d ≠ q) ->
     Nmap.get_device_name q h = (Returns (Some (Nmap.name dev)), h)) ∧
  (forall q (h : Heap Nmap.Scanner W),
     (forall d, d ∈ Nmap.last_results (self h) -> Nmap.mac d ≠ q) ->
     Nmap.get_device_name q h = (Returns None, h)).
Proof.
  intros Hcv.
  assert (Hsame : forall t acc ipv4 st hn (h : Heap Nmap.Scanner W),
            Nmap.scan_step env t acc (ipv4, mkHostInfo st hn (Some a)) h
            = Nmap.scan_step env t acc (ipv4, mkHostInfo st hn (Some b)) h).
  { intros t acc ipv4 st hn h. unfold Nmap.scan_step. cbn [addresses_mac].
    rewrite (case_variant_truthy a b Hcv).
    destruct (negb _); [reflexivity|].
    destruct (str_truthy b); [|reflexivity].
    unfold_monad. now rewrite (case_variant_upper a b Hcv). }
  split; [now apply case_variant_upper|].
  split; [exact Hsame|].
  split; [|split].
  - intros Hne t acc ipv4 hn h record.
    assert (Hrun : Nmap.scan_step env t acc (ipv4, mkHostInfo "up" hn (Some a)) h
                   = (Returns (acc ++ [record]), h)).
    { unfold Nmap.scan_step. cbn [status_state hostnames addresses_mac].
      change (String.eqb "up" "up") with true. cbn [negb].
      destruct a as [|c a]; [congruence|]. cbn [str_truthy]. unfold_monad.
      reflexivity. }
    split; [cbn; now apply case_variant_upper|].
    split; [exact Hrun|]. now rewrite <- Hsame.
  - intros q pre dev post h Hl Hmac Hpre.
    unfold Nmap.get_device_name. unfold_monad.
    rewrite Hl, filter_app, (no_match_no_record q pre Hpre).
    rewrite filter_cons_True by exact Hmac. reflexivity.
  - intros q h Hno.
    unfold Nmap.get_device_name. unfold_monad.
    now rewrite (no_match_no_record q _ Hno).
Qed.

(** A host reported with a lower-case or a mixed-case address is
    recorded with the upper-case one; the phone is found under the
    address as recorded, and not under its lower-case spelling. *)
Lemma sweep_stores_upper_case_witness :
  upper "aa:bb:cc:dd:ee:ff" = upper "Aa:Bb:Cc:Dd:Ee:Ff" ∧
  Nmap.scan_step TestWorld.laptop_network (minutes 10) []
    ("192.168.1.23", mkHostInfo "up" ["tablet"] (Some "aa:bb:cc:dd:ee:ff"))
    TestWorld.sweeper
  = (Returns [Nmap.mkDevice "AA:BB:CC:DD:EE:FF" "tablet" "192.168.1.23" (minutes 10)],
     TestWorld.sweeper) ∧
  Nmap.scan_step TestWorld.laptop_network (minutes 10) []
    ("192.168.1.23", mkHostInfo "up" ["tablet"] (Some "Aa:Bb:Cc:Dd:Ee:Ff"))
    TestWorld.sweeper
  = (Returns [Nmap.mkDevice "AA:BB:CC:DD:EE:FF" "tablet" "192.168.1.23" (minutes 10)],
     TestWorld.sweeper) ∧
  Nmap.get_device_name "AA:BB:CC:DD:EE:01" TestWorld.sweeper
  = (Returns (Some "phone"), TestWorld.sweeper) ∧
  Nmap.get_device_name "aa:bb:cc:dd:ee:01" TestWorld.sweeper
  = (Returns None, TestWorld.sweeper).
Proof.
  assert (Hcv : case_variant "aa:bb:cc:dd:ee:ff" "Aa:Bb:Cc:Dd:Ee:Ff") by case_variant_tac.
  destruct (sweep_stores_upper_case TestWorld.laptop_network
              "aa:bb:cc:dd:ee:ff" "Aa:Bb:Cc:Dd:Ee:Ff" Hcv)
    as (Hup & _ & Hrec & Hfirst & Hnone).
  split; [exact Hup|].
  destruct (Hrec ltac:(discriminate) (minutes 10) [] "192.168.1.23" ["tablet"]
              TestWorld.sweeper) as (_ & Ha & Hb).
  split; [exact Ha|]. split; [exact Hb|]. split.
  - apply (Hfirst "AA:BB:CC:DD:EE:01" [] TestWorld.phone
             [Nmap.mkDevice "AA:BB:CC:DD:EE:03" "printer" "192.168.1.30" (minutes 4)]
             TestWorld.sweeper).
    + reflexivity.
    + reflexivity.
    + intros d Hin. now apply not_elem_of_nil in Hin.
  - apply (Hnone "aa:bb:cc:dd:ee:01" TestWorld.sweeper).
    intros d Hin. cbn in Hin.
    apply elem_of_cons in Hin as [->|Hin]; [discriminate|].
    apply list_elem_of_singleton in Hin. subst d. discriminate.
Defined.

(** ** The lease table *)

Lemma div5_cons5 (e0 e1 e2 e3 e4 : string) (rest : list string) :
  (length (e0 :: e1 :: e2 :: e3 :: e4 :: rest) / 5 = S (length rest / 5))%nat.
Proof.
  change (length (e0 :: e1 :: e2 :: e3 :: e4 :: rest)) with (5 + length rest)%nat.
  replace (5 + length rest)%nat with (length rest + 1 * 5)%nat by lia.
  rewrite Nat.div_add by lia. lia.
Qed.

(** Group [g] of the table is made of the elements at offsets 2 and 0
    from position [5 * g], and there are [length / 5] groups. *)
Lemma groups5_lookup (g : nat) : forall (elements : list string) (m nm : string),
  groups5 elements !! g = Some (m, nm) <->
  (g < length elements / 5)%nat ∧
  elements !! (5 * g + 2)%nat = Some m ∧ elements !! (5 * g)%nat = Some nm.
Proof.
  induction g as [|g IH]; intros elements m nm.
  - destruct elements as [|e0 [|e1 [|e2 [|e3 [|e4 rest]]]]];
      try (cbn; split; [discriminate | intros (H & _); cbv in H; lia]).
    rewrite div5_cons5. cbn. split.
    + intros [= <- <-]. repeat split; lia.
    + intros (_ & [= <-] & [= <-]). reflexivity.
  - destruct elements as [|e0 [|e1 [|e2 [|e3 [|e4 rest]]]]];
      try (cbn [groups5]; rewrite lookup_nil; split;
           [discriminate | intros (H & _); cbv in H; lia]).
    rewrite div5_cons5. cbn [groups5]. rewrite lookup_cons. 
    replace (5 * S g + 2)%nat with (S (S (S (S (S (5 * g + 2)))))) by lia.
    replace (5 * S g)%nat with (S (S (S (S (S (5 * g)))))) by lia.
    cbn [lookup list_lookup]. rewrite IH. split; intros (? & ? & ?); repeat split; auto; lia.
Qed.

(** C7.  When a name is asked for that the index does not hold and the
    router answers with a lease table, the call returns, and the index it
    leaves is built anew from the table alone: it is the map of the
    complete groups of five of the cleaned element list, group [g] giving
    the pair (element [5g + 2], element [5g]); there are [n / 5] groups
    for [n] elements, so the index has at most that many entries, and
    fewer than five elements after the last complete group change
    nothing.  A table of ten elements with two different addresses gives
    exactly two entries: the name at offset 0 under the address at offset
    2, the name at offset 5 under the address at offset 7. *)
Theorem lease_table_grouping {W : Type} (env : Env W)
    (device text v : string) (w' : W) (h : Heap DdWrt.Scanner W) :
  device ∉ dom (DdWrt.mac2name (self h)) ->
  requests_get env (DdWrt.lan_url (DdWrt.host (self h)))
    (DdWrt.username (self h), DdWrt.password (self h)) (world h)
  = (HttpResponse 200 text, w') ->
  DdWrt._parse_ddwrt_response text !! "dhcp_leases" = Some v ->
  v ≠ EmptyString ->
  let elements := split DdWrt.dquote_sep (strip_char dquote (strip v)) in
  ∃ h', DdWrt.get_device_name env device h
        = (Returns (DdWrt.mac2name (self h') !! device), h') ∧
        DdWrt.mac2name (self h') = map_of_pairs (groups5 elements) ∧
        (forall g m nm,
           groups5 elements !! g = Some (m, nm) <->
           (g < length elements / 5)%nat ∧
           elements !! (5 * g + 2)%nat = Some m ∧ elements !! (5 * g)%nat = Some nm) ∧
        (size (DdWrt.mac2name (self h')) <= length elements / 5)%nat ∧
        (forall body tail,
           elements = body ++ tail -> (length body mod 5 = 0)%nat -> (length tail < 5)%nat ->
           DdWrt.mac2name (self h') = map_of_pairs (groups5 body)) ∧
        (forall e0 e1 e2 e3 e4 e5 e6 e7 e8 e9,
           elements = [e0; e1; e2; e3; e4; e5; e6; e7; e8; e9] -> e2 ≠ e7 ->
           DdWrt.mac2name (self h') = <[e7 := e5]> (<[e2 := e0]> ∅) ∧
           size (DdWrt.mac2name (self h')) = 2%nat).
Proof.
  intros Hmiss Hget Hv Hne elements.
  exists (with_mac2name (map_of_pairs (groups5 elements))
            (after_get (DdWrt.lan_url (DdWrt.host (self h))) w' h)).
  split; [|split; [|split; [|split; [|split]]]].
  - rewrite (get_device_name_miss env device text v w' h Hmiss Hget Hv Hne).
    reflexivity.
  - reflexivity.
  - intros g m nm. apply groups5_lookup.
  - cbn [with_mac2name self DdWrt.mac2name DdWrt.set_mac2name].
    rewrite <- length_groups5. apply map_of_pairs_size_le.
  - intros body tail Hel Hmod Htail.
    cbn [with_mac2name self DdWrt.mac2name DdWrt.set_mac2name].
    now rewrite Hel, groups5_trailing.
  - intros e0 e1 e2 e3 e4 e5 e6 e7 e8 e9 Hel Hdiff.
    cbn [with_mac2name self DdWrt.mac2name DdWrt.set_mac2name]. rewrite Hel.
    split; [reflexivity|]. cbn [groups5].
    change (map_of_pairs [(e2, e0); (e7, e5)]) with (<[e7 := e5]> (<[e2 := e0]> (∅ : gmap string string))).
    rewrite map_size_insert_None.
    + now rewrite map_size_insert_None, map_size_empty by apply lookup_empty.
    + rewrite lookup_insert_ne by assumption. apply lookup_empty.
Qed.

(** The two leases: the second host is found under its address, and the
    index has two entries. *)
Lemma lease_table_grouping_witness :
  ∃ h', DdWrt.get_device_name (TestWorld.lease_router TestWorld.two_leases)
          "AA:BB:CC:DD:EE:02" TestWorld.new_poller
        = (Returns (Some "laptop"), h') ∧
        DdWrt.mac2name (self h')
        = <["AA:BB:CC:DD:EE:02" := "laptop"]> (<["AA:BB:CC:DD:EE:01" := "phone"]> ∅) ∧
        size (DdWrt.mac2name (self h')) = 2%nat.
Proof.
  destruct (lease_table_grouping (TestWorld.lease_router TestWorld.two_leases)
              "AA:BB:CC:DD:EE:02"
              (TestWorld.page "dhcp_leases" (" " +:+ quoted_list dquote TestWorld.two_leases))
              (" " +:+ quoted_list dquote TestWorld.two_leases) 0 TestWorld.new_poller)
    as (h' & Hrun & _ & _ & _ & _ & Hten).
  - cbn. rewrite dom_empty_L. apply not_elem_of_empty.
  - reflexivity.
  - reflexivity.
  - discriminate.
  - destruct (Hten "phone" "192.168.1.10" "AA:BB:CC:DD:EE:01" "86400" "10"
                   "laptop" "192.168.1.11" "AA:BB:CC:DD:EE:02" "86400" "11")
      as [Hidx Hsize]; [reflexivity | discriminate |].
    exists h'. split; [|split; assumption].
    rewrite Hrun, Hidx. reflexivity.
Defined.

(** ** An address that comes more than once *)

(** The last group with a given address decides its name. *)
Lemma last_group_wins (l : list (string * string)) (g : nat) (m nm : string) :
  l !! g = Some (m, nm) ->
  (forall g' nm', (g < g')%nat -> l !! g' ≠ Some (m, nm')) ->
  map_of_pairs l !! m = Some nm.
Proof.
  intros Hg Hlast.
  rewrite <- (take_drop_middle l g (m, nm) Hg).
  apply map_of_pairs_last. intros Hin.
  apply list_elem_of_In, in_map_iff in Hin as ([m' nm'] & Hm & Hin).
  simpl in Hm. subst m'.
  apply list_elem_of_In, list_elem_of_lookup in Hin as [i Hi].
  rewrite lookup_drop in Hi.
  apply (Hlast (S g + i)%nat nm'); [lia | exact Hi].
Qed.

Lemma no_key_no_entry (l : list (string * string)) (k : string) :
  k ∉ l.*1 -> filter (fun kv => fst kv = k) l = [].
Proof.
  induction l as [|[k' v'] l IH]; [reflexivity|].
  intros Hk. rewrite fmap_cons in Hk. apply not_elem_of_cons in Hk as [Hne Hk].
  simpl in Hne. rewrite filter_cons_False by (simpl; congruence). auto.
Qed.

Lemma one_entry_per_key (l : list (string * string)) (k v : string) :
  NoDup l.*1 -> (k, v) ∈ l -> length (filter (fun kv => fst kv = k) l) = 1%nat.
Proof.
  induction l as [|[k' v'] l IH]; intros Hnd Hin.
  - now apply not_elem_of_nil in Hin.
  - rewrite fmap_cons in Hnd. apply NoDup_cons in Hnd as [Hk' Hnd]. simpl in Hk'.
    apply elem_of_cons in Hin as [[= <- <-]|Hin].
    + rewrite filter_cons_True by reflexivity.
      now rewrite no_key_no_entry.
    + assert (k' ≠ k).
      { intros ->. apply Hk'. apply list_elem_of_fmap. now exists (k, v). }
      rewrite filter_cons_False by (simpl; congruence). auto.
Qed.

Lemma one_entry_in_map (d : gmap string string) (k v : string) :
  d !! k = Some v ->
  length (filter (fun kv => fst kv = k) (map_to_list d)) = 1%nat.
Proof.
  intros H. apply (one_entry_per_key _ k v).
  - apply NoDup_fst_map_to_list.
  - now apply elem_of_map_to_list.
Qed.

(** C10.  When a name is asked for that the index does not hold and the
    router answers with a lease table in which an address [m] stands in
    two groups [g1 < g2], [g2] being the last group with that address,
    the rebuilt index has exactly one entry for [m], and its name is the
    one of group [g2]. *)
Theorem lease_table_duplicates {W : Type} (env : Env W)
    (device text v : string) (w' : W) (h : Heap DdWrt.Scanner W) :
  device ∉ dom (DdWrt.mac2name (self h)) ->
  requests_get env (DdWrt.lan_url (DdWrt.host (self h)))
    (DdWrt.username (self h), DdWrt.password (self h)) (world h)
  = (HttpResponse 200 text, w') ->
  DdWrt._parse_ddwrt_response text !! "dhcp_leases" = Some v ->
  v ≠ EmptyString ->
  let elements := split DdWrt.dquote_sep (strip_char dquote (strip v)) in
  ∃ h', DdWrt.get_device_name env device h
        = (Returns (DdWrt.mac2name (self h') !! device), h') ∧
        forall g1 g2 m name1 name2,
          (g1 < g2)%nat -> (g2 < length elements / 5)%nat ->
          elements !! (5 * g1 + 2)%nat = Some m -> elements !! (5 * g1)%nat = Some name1 ->
          elements !! (5 * g2 + 2)%nat = Some m -> elements !! (5 * g2)%nat = Some name2 ->
          (forall g, (g2 < g)%nat -> (g < length elements / 5)%nat ->
                     elements !! (5 * g + 2)%nat ≠ Some m) ->
          DdWrt.mac2name (self h') !! m = Some name2 ∧
          length (filter (fun kv => fst kv = m) (map_to_list (DdWrt.mac2name (self h'))))
          = 1%nat.
Proof.
  intros Hmiss Hget Hv Hne elements.
  exists (with_mac2name (map_of_pairs (groups5 elements))
            (after_get (DdWrt.lan_url (DdWrt.host (self h))) w' h)).
  split.
  - rewrite (get_device_name_miss env device text v w' h Hmiss Hget Hv Hne).
    reflexivity.
  - intros g1 g2 m name1 name2 _ Hg2 _ _ Hm2 Hn2 Hlast.
    cbn [with_mac2name self DdWrt.mac2name DdWrt.set_mac2name].
    assert (Hlook : map_of_pairs (groups5 elements) !! m = Some name2).
    { apply (last_group_wins _ g2).
      - apply groups5_lookup. auto.
      - intros g' nm' Hlt Hg'. apply groups5_lookup in Hg' as (Hlen & Hm' & _).
        now apply (Hlast g'). }
    split; [exact Hlook | now apply (one_entry_in_map _ m name2)].
Qed.

(** The table in which the first address comes again in the third
    group: the name of the third group is the one kept. *)
Lemma lease_table_duplicates_witness :
  ∃ h', DdWrt.get_device_name (TestWorld.lease_router TestWorld.renamed_lease)
          "AA:BB:CC:DD:EE:01" TestWorld.new_poller
        = (Returns (DdWrt.mac2name (self h') !! "AA:BB:CC:DD:EE:01"), h') ∧
        DdWrt.mac2name (self h') !! "AA:BB:CC:DD:EE:01" = Some "tablet" ∧
        length (filter (fun kv => fst kv = "AA:BB:CC:DD:EE:01")
                  (map_to_list (DdWrt.mac2name (self h')))) = 1%nat.
Proof.
  destruct (lease_table_duplicates (TestWorld.lease_router TestWorld.renamed_lease)
              "AA:BB:CC:DD:EE:01"
              (TestWorld.page "dhcp_leases" (" " +:+ quoted_list dquote TestWorld.renamed_lease))
              (" " +:+ quoted_list dquote TestWorld.renamed_lease) 0 TestWorld.new_poller)
    as (h' & Hrun & Hdup).
  - cbn. rewrite dom_empty_L. apply not_elem_of_empty.
  - reflexivity.
  - reflexivity.
  - discriminate.
  - exists h'. split; [exact Hrun|].
    apply (Hdup 0%nat 2%nat "AA:BB:CC:DD:EE:01" "phone" "tablet").
    + lia.
    + vm_compute. lia.
    + reflexivity.
    + reflexivity.
    + reflexivity.
    + reflexivity.
    + intros g Hlo Hhi. exfalso. vm_compute in Hhi. lia.
Defined.

(** ** Asking twice for a known name *)

(** C9.  For an id that the name index holds (router poll) or that a
    record of the last result carries (sweep), two calls of
    [get_device_name] in a row give the same name, and the second call
    leaves the heap, and so the log of requests, as it found it: no
    fetch is made. *)
Theorem known_name_twice {W : Type} (env : Env W) (device : string)
    (hd : Heap DdWrt.Scanner W) (hn : Heap Nmap.Scanner W) :
  (device ∈ dom (DdWrt.mac2name (self hd)) ->
   let '(r1, h1) := DdWrt.get_device_name env device hd in
   let '(r2, h2) := DdWrt.get_device_name env device h1 in
   r1 = r2 ∧ (∃ name, r2 = Returns (Some name)) ∧ h2 = h1 ∧ io_log h2 = io_log h1) ∧
  ((∃ dev, dev ∈ Nmap.last_results (self hn) ∧ Nmap.mac dev = device) ->
   let '(r1, h1) := Nmap.get_device_name device hn in
   let '(r2, h2) := Nmap.get_device_name device h1 in
   r1 = r2 ∧ (∃ name, r2 = Returns (Some name)) ∧ h2 = h1 ∧ io_log h2 = io_log h1).
Proof.
  split.
  - intros Hin. rewrite (get_device_name_hit env device hd Hin).
    rewrite (get_device_name_hit env device hd Hin).
    apply elem_of_dom in Hin as [name Hname]. rewrite Hname. eauto.
  - intros (dev & Hin & Hmac).
    destruct (name_lookup_exact device hn) as (r & Hrun & _ & Hnone).
    rewrite Hrun, Hrun. destruct r as [name|]; [eauto|].
    exfalso. exact (Hnone eq_refl dev Hin Hmac).
Qed.

(** A poller that knows the phone, with a router that refuses every
    connection: the name comes twice, and nothing is asked. *)
Lemma known_name_twice_witness :
  let '(r1, h1) := DdWrt.get_device_name TestWorld.refusing_router
                     "AA:BB:CC:DD:EE:01" TestWorld.busy_poller in
  let '(r2, h2) := DdWrt.get_device_name TestWorld.refusing_router
                     "AA:BB:CC:DD:EE:01" h1 in
  r1 = r2 ∧ (∃ name, r2 = Returns (Some name)) ∧ h2 = h1 ∧ io_log h2 = io_log h1.
Proof.
  apply (known_name_twice TestWorld.refusing_router "AA:BB:CC:DD:EE:01"
           TestWorld.busy_poller TestWorld.sweeper).
  apply elem_of_dom. exists "phone". reflexivity.
Defined.

(** ** The home interval *)

Lemma fetch_count_app (l1 l2 : list io_event) :
  fetch_count (l1 ++ l2) = (fetch_count l1 + fetch_count l2)%nat.
Proof. unfold fetch_count. now rewrite List.filter_app, length_app. Qed.

Lemma fetch_count_lookups (arps : list io_event) :
  Forall (fun ev => is_fetch ev = false) arps -> fetch_count arps = 0%nat.
Proof.
  induction 1 as [|ev arps Hev _ IH]; [reflexivity|].
  unfold fetch_count in *. simpl. now rewrite Hev.
Qed.

(** The devices the sweep carries over are those seen less than the home
    interval ago, provided no record is stamped later than the clock
    reads now. *)
Lemma carried_within_home (home t : Z) (l : list Nmap.Device) :
  Forall (fun dev => Nmap.last_update dev <= t) l ->
  (if bool_decide (home ≠ 0) then Nmap.seen_since (t - home) l else [])
  = filter (within_home home t) l.
Proof.
  intros Hpast. destruct (bool_decide (home ≠ 0)) eqn:Hh.
  - unfold Nmap.seen_since. apply list_filter_iff.
    intros dev. unfold within_home. lia.
  - apply bool_decide_eq_false in Hh.
    assert (home = 0) by (destruct (decide (home = 0)); [assumption | contradiction]).
    subst home. symmetry.
    induction Hpast as [|dev l Hdev _ IH]; [reflexivity|].
    rewrite filter_cons_False; [exact IH|]. unfold within_home. lia.
Qed.

(** C8.  Take a sweep scanner none of whose records is stamped later
    than the clock reads now, [t], and call carried the records last
    seen less than the home interval before [t].  One execution of the
    refresh makes exactly one probe, whose options name the addresses
    of the carried devices, all of them, after [--exclude]; every
    carried record is among the results afterwards, as it was.  If the
    probe delivers, the refresh reports success and the results are the
    carried records followed by the records made from the probe, each
    stamped with the reading taken after the probe; if the probe fails,
    the refresh reports failure and the results stay as they were. *)
Theorem home_interval_exclusion {W : Type} (env : Env W) (h : Heap Nmap.Scanner W) :
  let s := self h in
  let t := now env (world h) in
  Forall (fun dev => Nmap.last_update dev <= t) (Nmap.last_results s) ->
  let carried := filter (within_home (Nmap.home_interval s) t) (Nmap.last_results s) in
  let options := Nmap.exclude_options carried in
  ∃ r h' arps,
    Nmap._update_info env h = (r, h') ∧
    io_log h' = io_log h ++ NmapScan (Nmap.hosts s) options :: arps ∧
    Forall (fun ev => is_fetch ev = false) arps ∧
    (carried ≠ [] ->
     options = Nmap.base_options +:+ " --exclude " +:+ join "," (map Nmap.ip carried)) ∧
    (forall dev, dev ∈ carried -> dev ∈ Nmap.last_results (self h')) ∧
    match portscanner_scan env (Nmap.hosts s) options (world h) with
    | (ScanResult items, w1) =>
        r = Returns true ∧
        ∃ fresh, Nmap.last_results (self h') = carried ++ fresh ∧
                 Forall (stamped (now env w1)) fresh ∧
                 fst (Nmap.scan_loop env (now env w1) [] items
                        (mkHeap s w1 (io_log h ++ [NmapScan (Nmap.hosts s) options])))
                 = Returns fresh
    | (ScanRaises, _) =>
        r = Returns false ∧ Nmap.last_results (self h') = Nmap.last_results s
    end.
Proof.
  intros s t Hpast carried options.
  assert (Hopt : carried ≠ [] ->
            options = Nmap.base_options +:+ " --exclude " +:+ join "," (map Nmap.ip carried)).
  { unfold options. destruct carried; [congruence | reflexivity]. }
  rewrite sweep_run. cbv zeta. fold s t.
  rewrite (carried_within_home (Nmap.home_interval s) t _ Hpast).
  fold carried. fold options.
  destruct (portscanner_scan env (Nmap.hosts s) options (world h)) as [[|items] w1].
  - exists (Returns false), (mkHeap s w1 (io_log h ++ [NmapScan (Nmap.hosts s) options])), [].
    repeat split; auto.
    intros dev Hin. cbn [self]. unfold carried in Hin.
    now apply list_elem_of_filter in Hin as [_ Hin].
  - destruct (scan_loop_run env (now env w1) items
                (mkHeap s w1 (io_log h ++ [NmapScan (Nmap.hosts s) options])))
      as (fresh & arps & w2 & Hloop & Harps & Hfresh).
    rewrite (Hloop carried).
    eexists _, _, arps. split; [reflexivity|].
    cbn [with_devices self io_log Nmap.last_results Nmap.set_last_results].
    repeat split; auto.
    + now rewrite <- app_assoc.
    + intros dev Hin. apply elem_of_app. now left.
    + exists fresh. repeat split; auto. now rewrite (Hloop []).
Qed.

(** The phone was seen one minute ago and the home interval is five
    minutes: the probe leaves its address out, and its record stays,
    followed by the laptop that the probe found. *)
Lemma home_interval_exclusion_witness :
  ∃ h' arps,
    Nmap._update_info TestWorld.laptop_network TestWorld.sweeper = (Returns true, h') ∧
    io_log h' = NmapScan "192.168.1.0/24" "-F --host-timeout 5 --exclude 192.168.1.10" :: arps ∧
    Nmap.last_results (self h')
    = [TestWorld.phone;
       Nmap.mkDevice "AA:BB:CC:DD:EE:02" "laptop" "192.168.1.11" (minutes 10)].
Proof.
  destruct (home_interval_exclusion TestWorld.laptop_network TestWorld.sweeper)
    as (r & h' & arps & Hrun & Hlog & _ & _ & _ & Hres).
  - repeat constructor; vm_compute; discriminate.
  - cbn in Hres. destruct Hres as (-> & fresh & Hlast & _ & Hfresh).
    exists h', arps. split; [exact Hrun|]. split; [exact Hlog|].
    rewrite Hlast. vm_compute in Hfresh. injection Hfresh as <-. reflexivity.
Defined.

(** ** The throttle *)

Lemma min_time_nonneg : 0 <= MIN_TIME_BETWEEN_SCANS.
Proof. unfold MIN_TIME_BETWEEN_SCANS, seconds. lia. Qed.

(** An execution of the router poll on an initialised scanner makes one
    fetch and leaves the scanner initialised. *)
Lemma poll_one_fetch {W : Type} (env : Env W) (h : Heap DdWrt.Scanner W)
    (r : result bool) (h' : Heap DdWrt.Scanner W) :
  DdWrt.success_init (self h) = true ->
  DdWrt._update_info env h = (r, h') ->
  fetch_count (io_log h') = S (fetch_count (io_log h)) ∧
  DdWrt.success_init (self h') = true.
Proof.
  intros Hinit Hrun.
  destruct (update_info_one_get env h r h' Hinit Hrun) as (Hlog & Hinit' & _).
  split; [|exact Hinit']. rewrite Hlog, fetch_count_app. cbn. lia.
Qed.

(** An execution of the sweep makes one fetch. *)
Lemma sweep_one_fetch {W : Type} (env : Env W) (h : Heap Nmap.Scanner W)
    (r : result bool) (h' : Heap Nmap.Scanner W) :
  Nmap._update_info env h = (r, h') ->
  fetch_count (io_log h') = S (fetch_count (io_log h)).
Proof.
  rewrite sweep_run. cbv zeta.
  destruct (portscanner_scan env _ _ (world h)) as [[|items] w1].
  - intros [= _ <-]. cbn [io_log]. rewrite fetch_count_app. cbn. lia.
  - match goal with |- context [Nmap.scan_loop env ?t ?c items ?hh] =>
      destruct (scan_loop_run env t items hh) as (fresh & arps & w2 & Hloop & Harps & _);
      rewrite (Hloop c) end.
    intros [= _ <-]. cbn [with_devices io_log].
    rewrite !fetch_count_app, (fetch_count_lookups arps Harps). cbn. lia.
Qed.

(** C2.  With the minimum interval of five seconds, for the router poll
    and for the sweep alike: (1, 2) however the calls of [scan_devices]
    fall, any two executions of the refresh begin at least five seconds
    apart, from every state in which the throttle agrees with its
    history; (3, 4) a call less than five seconds after the last
    execution began changes nothing, makes no fetch, and returns the
    cached result; (5, 6) when a refresh is due at the first of two
    calls, the two calls make exactly one fetch if the second comes one
    second after the first, and exactly two if it comes six seconds
    after; (7, 8) a scanner fresh from its constructor is in a state in
    which the throttle agrees with its history. *)
Theorem throttle_five_seconds {W : Type} (env : Env W) :
  (forall (ws : list W) (t : Throttled DdWrt.Scanner W),
     throttle_ok MIN_TIME_BETWEEN_SCANS t ->
     spaced (seconds 5) (refresh_log (calls (DdWrt.scan_devices env) ws t))) ∧
  (forall (ws : list W) (t : Throttled Nmap.Scanner W),
     throttle_ok MIN_TIME_BETWEEN_SCANS t ->
     spaced (seconds 5) (refresh_log (calls (Nmap.scan_devices env) ws t))) ∧
  (forall (t : Throttled DdWrt.Scanner W) (t_last : Z),
     last_refresh_at t = Some t_last ->
     now env (world (heap t)) - t_last < seconds 5 ->
     DdWrt.scan_devices env t = (Returns (DdWrt.last_results (self (heap t))), t)) ∧
  (forall (t : Throttled Nmap.Scanner W) (t_last : Z),
     last_refresh_at t = Some t_last ->
     now env (world (heap t)) - t_last < seconds 5 ->
     Nmap.scan_devices env t
     = (Returns (map Nmap.mac (Nmap.last_results (self (heap t)))), t)) ∧
  (forall (t : Throttled DdWrt.Scanner W) (w1 w2 : W),
     DdWrt.success_init (self (heap t)) = true ->
     refresh_due MIN_TIME_BETWEEN_SCANS (last_refresh_at t) (now env w1) = true ->
     (now env w2 = now env w1 + seconds 1 ->
      fetch_count (io_log (heap (calls (DdWrt.scan_devices env) [w1; w2] t)))
      = S (fetch_count (io_log (heap t)))) ∧
     (now env w2 = now env w1 + seconds 6 ->
      fetch_count (io_log (heap (calls (DdWrt.scan_devices env) [w1; w2] t)))
      = S (S (fetch_count (io_log (heap t)))))) ∧
  (forall (t : Throttled Nmap.Scanner W) (w1 w2 : W),
     refresh_due MIN_TIME_BETWEEN_SCANS (last_refresh_at t) (now env w1) = true ->
     (now env w2 = now env w1 + seconds 1 ->
      fetch_count (io_log (heap (calls (Nmap.scan_devices env) [w1; w2] t)))
      = S (fetch_count (io_log (heap t)))) ∧
     (now env w2 = now env w1 + seconds 6 ->
      fetch_count (io_log (heap (calls (Nmap.scan_devices env) [w1; w2] t)))
      = S (S (fetch_count (io_log (heap t)))))) ∧
  (forall (h u p : string) (w : W),
     throttle_ok MIN_TIME_BETWEEN_SCANS (snd (DdWrt.init env h u p w))) ∧
  (forall (hosts_ : string) (home_minutes : Z) (w : W),
     throttle_ok MIN_TIME_BETWEEN_SCANS (snd (Nmap.init env hosts_ home_minutes w))).
Proof.
  pose proof min_time_nonneg as Hd.
  repeat split.
  - intros ws t Hok.
    exact (calls_spaced env MIN_TIME_BETWEEN_SCANS Hd (DdWrt._update_info env)
             (fun h => DdWrt.last_results (self h)) ws t Hok).
  - intros ws t Hok.
    exact (calls_spaced env MIN_TIME_BETWEEN_SCANS Hd (Nmap._update_info env)
             (fun h => map Nmap.mac (Nmap.last_results (self h))) ws t Hok).
  - intros t t_last Hlast Hwin.
    exact (scan_in_window env MIN_TIME_BETWEEN_SCANS (DdWrt._update_info env)
             (fun h => DdWrt.last_results (self h)) t t_last Hlast Hwin).
  - intros t t_last Hlast Hwin.
    exact (scan_in_window env MIN_TIME_BETWEEN_SCANS (Nmap._update_info env)
             (fun h => map Nmap.mac (Nmap.last_results (self h))) t t_last Hlast Hwin).
  - intros Hgap.
    apply (two_calls_close env MIN_TIME_BETWEEN_SCANS (DdWrt._update_info env)
             (fun h => DdWrt.last_results (self h))
             (fun h => DdWrt.success_init (self h) = true)); auto.
    + intros h0 r h' HP Hrun. now apply (poll_one_fetch env h0 r h').
    + rewrite Hgap. unfold MIN_TIME_BETWEEN_SCANS, seconds. lia.
  - intros Hgap.
    apply (two_calls_apart env MIN_TIME_BETWEEN_SCANS (DdWrt._update_info env)
             (fun h => DdWrt.last_results (self h))
             (fun h => DdWrt.success_init (self h) = true)); auto.
    + intros h0 r h' HP Hrun. now apply (poll_one_fetch env h0 r h').
    + rewrite Hgap. unfold MIN_TIME_BETWEEN_SCANS, seconds. lia.
  - intros Hgap.
    apply (two_calls_close env MIN_TIME_BETWEEN_SCANS (Nmap._update_info env)
             (fun h => map Nmap.mac (Nmap.last_results (self h)))
             (fun _ => True)); auto.
    + intros h0 r h' _ Hrun. split; [|exact I]. now apply (sweep_one_fetch env h0 r h').
    + rewrite Hgap. unfold MIN_TIME_BETWEEN_SCANS, seconds. lia.
  - intros Hgap.
    apply (two_calls_apart env MIN_TIME_BETWEEN_SCANS (Nmap._update_info env)
             (fun h => map Nmap.mac (Nmap.last_results (self h)))
             (fun _ => True)); auto.
    + intros h0 r h' _ Hrun. split; [|exact I]. now apply (sweep_one_fetch env h0 r h').
    + rewrite Hgap. unfold MIN_TIME_BETWEEN_SCANS, seconds. lia.
  - unfold DdWrt.init, lift_heap. cbn.
    match goal with |- context [let '(_, _) := ?m in _] => destruct m end. reflexivity.
  - unfold DdWrt.init, lift_heap. cbn.
    match goal with |- context [let '(_, _) := ?m in _] => destruct m end. apply spaced_nil.
  - unfold Nmap.init. unfold mbind, M_bind, bind.
    destruct (Nmap.refresh env _) as [[ok|e] t'] eqn:E.
    + unfold lift_heap, modify. cbn.
      eapply (Throttle_ok env MIN_TIME_BETWEEN_SCANS Hd) in E; [apply E|].
      split; [reflexivity | apply spaced_nil].
    + cbn. eapply (Throttle_ok env MIN_TIME_BETWEEN_SCANS Hd) in E; [apply E|].
      split; [reflexivity | apply spaced_nil].
  - unfold Nmap.init. unfold mbind, M_bind, bind.
    destruct (Nmap.refresh env _) as [[ok|e] t'] eqn:E.
    + unfold lift_heap, modify. cbn.
      eapply (Throttle_ok env MIN_TIME_BETWEEN_SCANS Hd) in E; [apply E|].
      split; [reflexivity | apply spaced_nil].
    + cbn. eapply (Throttle_ok env MIN_TIME_BETWEEN_SCANS Hd) in E; [apply E|].
      split; [reflexivity | apply spaced_nil].
Qed.

(** Two calls of the router poll one second apart make one fetch; six
    seconds apart they make two. *)
Lemma throttle_five_seconds_witness :
  fetch_count (io_log (heap (calls (DdWrt.scan_devices TestWorld.other_page_router)
                               [0; seconds 1] (TestWorld.unthrottled TestWorld.busy_poller))))
  = 1%nat ∧
  fetch_count (io_log (heap (calls (DdWrt.scan_devices TestWorld.other_page_router)
                               [0; seconds 6] (TestWorld.unthrottled TestWorld.busy_poller))))
  = 2%nat.
Proof.
  destruct (throttle_five_seconds TestWorld.other_page_router)
    as (_ & _ & _ & _ & Hpoll & _).
  split.
  - apply (Hpoll (TestWorld.unthrottled TestWorld.busy_poller) 0 (seconds 1));
      reflexivity.
  - apply (Hpoll (TestWorld.unthrottled TestWorld.busy_poller) 0 (seconds 6));
      reflexivity.
Defined.

(** ** Failures *)

(** The router poll keeps its results when the request times out, when
    the status is not 200, and when nothing could be parsed. *)
Lemma poll_fail_open {W : Type} (env : Env W) (h : Heap DdWrt.Scanner W) :
  match fst (requests_get env (DdWrt.wireless_url (DdWrt.host (self h)))
               (DdWrt.username (self h), DdWrt.password (self h)) (world h)) with
  | HttpRaises e => e = RequestsTimeout
  | HttpResponse status_code text =>
      status_code ≠ 200 ∨ DdWrt._parse_ddwrt_response text = ∅
  end ->
  ∃ h', DdWrt._update_info env h = (Returns false, h') ∧
        DdWrt.last_results (self h') = DdWrt.last_results (self h).
Proof.
  rewrite update_info_run. destruct (DdWrt.success_init (self h)); cbn [negb]; [|eauto].
  cbv zeta.
  destruct (requests_get env _ _ (world h)) as [[e|status text] w']; cbn [fst].
  - intros ->. cbn. eauto.
  - intros Hbad. destruct (Z.eqb_spec status 200) as [->|Hne]; [|eauto].
    destruct Hbad as [Hbad|Hbad]; [congruence|].
    rewrite Hbad. cbn. eauto.
Qed.

(** The router poll empties its results before it looks for the
    active-client field: an answer that parses to something but has no
    such field, or an empty one, leaves no results, and the refresh
    reports failure. *)
Lemma poll_clears_before_reading {W : Type} (env : Env W) (h : Heap DdWrt.Scanner W)
    (text : string) (w' : W) :
  DdWrt.success_init (self h) = true ->
  requests_get env (DdWrt.wireless_url (DdWrt.host (self h)))
    (DdWrt.username (self h), DdWrt.password (self h)) (world h)
  = (HttpResponse 200 text, w') ->
  DdWrt._parse_ddwrt_response text ≠ ∅ ->
  DdWrt._parse_ddwrt_response text !! "active_wireless" = None ∨
  DdWrt._parse_ddwrt_response text !! "active_wireless" = Some EmptyString ->
  ∃ h', DdWrt._update_info env h = (Returns false, h') ∧
        DdWrt.last_results (self h') = [].
Proof.
  intros Hinit Hget Hsome Hfield.
  rewrite update_info_run, Hinit. cbn [negb]. cbv zeta. rewrite Hget. cbn [Z.eqb Pos.eqb].
  assert (Ht : dict_truthy (DdWrt._parse_ddwrt_response text) = true).
  { unfold dict_truthy. now apply negb_true_iff, bool_decide_eq_false. }
  rewrite Ht. destruct Hfield as [-> | ->]; cbn; eauto.
Qed.

(** Whatever [requests.get] raises, other than a timeout, comes out
    of [get_device_name] when the name is not in the index. *)
Lemma get_device_name_raises {W : Type} (env : Env W) (device : string)
    (h : Heap DdWrt.Scanner W) (e : exn) (w' : W) :
  device ∉ dom (DdWrt.mac2name (self h)) ->
  requests_get env (DdWrt.lan_url (DdWrt.host (self h)))
    (DdWrt.username (self h), DdWrt.password (self h)) (world h)
  = (HttpRaises e, w') ->
  e ≠ RequestsTimeout ->
  fst (DdWrt.get_device_name env device h) = Raises e.
Proof.
  intros Hmiss Hget He. unfold DdWrt.get_device_name.
  unfold mbind at 1, M_bind at 1, bind at 1, gets at 1.
  rewrite bool_decide_eq_false_2 by assumption.
  unfold mbind at 1, M_bind at 1, bind at 1.
  rewrite get_ddwrt_data_run, Hget.
  destruct e; try reflexivity. congruence.
Qed.

(** C1 fails on the router poll.  The scanner holds the two clients of
    its last successful refresh; the router now answers with a page that
    has no active-client field.  The refresh reports failure, and the
    cached result is gone: [scan_devices] returns the empty list. *)
Theorem failed_refresh_clears_cache :
  DdWrt.last_results (self TestWorld.busy_poller)
  = ["AA:BB:CC:DD:EE:01"; "AA:BB:CC:DD:EE:02"] ∧
  fst (DdWrt._update_info TestWorld.other_page_router TestWorld.busy_poller)
  = Returns false ∧
  DdWrt.last_results
    (self (snd (DdWrt._update_info TestWorld.other_page_router TestWorld.busy_poller)))
  = [] ∧
  fst (DdWrt.scan_devices TestWorld.other_page_router
         (TestWorld.unthrottled TestWorld.busy_poller))
  = Returns [].
Proof. repeat split; reflexivity. Qed.

(** C3 fails on the router poll.  When the router refuses the
    connection, [requests.get] raises [ConnectionError], which the
    handler for [Timeout] does not catch: [get_device_name] for a name
    that is not yet known and [scan_devices] both end with the
    exception. *)
Theorem connection_refused_raises :
  fst (DdWrt.get_device_name TestWorld.refusing_router "AA:BB:CC:DD:EE:02"
         TestWorld.busy_poller)
  = Raises RequestsConnectionError ∧
  fst (DdWrt.scan_devices TestWorld.refusing_router
         (TestWorld.unthrottled TestWorld.busy_poller))
  = Raises RequestsConnectionError.
Proof. split; reflexivity. Qed.

(** * Further properties of the two modules *)

(** ** Helpers *)

(** One call of [get_device_name] of the router poll, case by case. *)
Lemma get_device_name_run {W : Type} (env : Env W) (device : string)
    (h : Heap DdWrt.Scanner W) :
  DdWrt.get_device_name env device h
  = if bool_decide (device ∈ dom (DdWrt.mac2name (self h)))
    then (Returns (DdWrt.mac2name (self h) !! device), h)
    else
      let url := DdWrt.lan_url (DdWrt.host (self h)) in
      let '(r, w') := requests_get env url
                        (DdWrt.username (self h), DdWrt.password (self h)) (world h) in
      let h1 := after_get url w' h in
      match r with
      | HttpRaises e =>
          if exn_eqb e RequestsTimeout then (Returns None, h1) else (Raises e, h1)
      | HttpResponse status_code text =>
          if status_code =? 200 then
            let d := DdWrt._parse_ddwrt_response text in
            if dict_truthy d then
              match d !! "dhcp_leases" with
              | Some v =>
                  if str_truthy v then
                    let index :=
                      map_of_pairs
                        (groups5 (split DdWrt.dquote_sep (strip_char dquote (strip v)))) in
                    (Returns (index !! device), with_mac2name index h1)
                  else (Returns None, h1)
              | None => (Returns None, h1)
              end
            else (Returns None, h1)
          else (Returns None, h1)
      end.
Proof.
  destruct (bool_decide (device ∈ dom (DdWrt.mac2name (self h)))) eqn:Hdom.
  - apply bool_decide_eq_true in Hdom. now apply get_device_name_hit.
  - apply bool_decide_eq_false in Hdom. cbv zeta.
    destruct (requests_get env _ _ (world h)) as [[e|status text] w'] eqn:Hget.
    + unfold DdWrt.get_device_name.
      unfold mbind at 1, M_bind at 1, bind at 1, gets at 1.
      rewrite bool_decide_eq_false_2 by assumption.
      unfold mbind at 1, M_bind at 1, bind at 1.
      rewrite get_ddwrt_data_run, Hget.
      destruct (exn_eqb e RequestsTimeout); reflexivity.
    + destruct (Z.eqb_spec status 200) as [->|Hne].
      * destruct (dict_truthy (DdWrt._parse_ddwrt_response text)) eqn:Ht.
        -- destruct (DdWrt._parse_ddwrt_response text !! "dhcp_leases") as [v|] eqn:Hv.
           ++ destruct v as [|c v].
              ** unfold DdWrt.get_device_name.
                 unfold mbind at 1, M_bind at 1, bind at 1, gets at 1.
                 rewrite bool_decide_eq_false_2 by assumption.
                 unfold mbind at 1, M_bind at 1, bind at 1.
                 rewrite get_ddwrt_data_run, Hget. cbn [Z.eqb Pos.eqb].
                 rewrite Ht, Hv. reflexivity.
              ** cbn [str_truthy].
                 apply (get_device_name_miss env device text (String c v) w' h);
                   [assumption | assumption | assumption | discriminate].
           ++ unfold DdWrt.get_device_name.
              unfold mbind at 1, M_bind at 1, bind at 1, gets at 1.
              rewrite bool_decide_eq_false_2 by assumption.
              unfold mbind at 1, M_bind at 1, bind at 1.
              rewrite get_ddwrt_data_run, Hget. cbn [Z.eqb Pos.eqb].
              rewrite Ht, Hv. reflexivity.
        -- unfold DdWrt.get_device_name.
           unfold mbind at 1, M_bind at 1, bind at 1, gets at 1.
           rewrite bool_decide_eq_false_2 by assumption.
           unfold mbind at 1, M_bind at 1, bind at 1.
           rewrite get_ddwrt_data_run, Hget. cbn [Z.eqb Pos.eqb].
           rewrite Ht. reflexivity.
      * unfold DdWrt.get_device_name.
        unfold mbind at 1, M_bind at 1, bind at 1, gets at 1.
        rewrite bool_decide_eq_false_2 by assumption.
        unfold mbind at 1, M_bind at 1, bind at 1.
        rewrite get_ddwrt_data_run, Hget.
        apply Z.eqb_neq in Hne. rewrite Hne. reflexivity.
Qed.

Lemma hex_group_length (h : string) :
  hex_group h = true -> (1 <= String.length h <= 2)%nat.
Proof.
  intros H. apply hex_group_inv in H as [(a & _ & ->)|(a & b & _ & _ & ->)]; simpl; lia.
Qed.

Lemma colon_groups_length (n : nat) : forall m : string,
  colon_groups n m -> (2 * n <= String.length m <= 3 * n)%nat.
Proof.
  induction n as [|n IH]; intros m; simpl.
  - intros ->. simpl. lia.
  - intros (h & m' & Hh & Hg & ->).
    apply hex_group_length in Hh. apply IH in Hg.
    rewrite length_app_str. simpl. lia.
Qed.

(** The groups with their colons that begin a text are determined by
    the text. *)
Lemma colon_groups_prefix_unique (n : nat) (m m' r r' : string) :
  colon_groups n m -> colon_groups n m' -> m +:+ r = m' +:+ r' -> m = m' ∧ r = r'.
Proof.
  intros Hm Hm' Heq.
  pose proof (hex_colon_rep_complete n m r Hm) as H1.
  pose proof (hex_colon_rep_complete n m' r' Hm') as H2.
  rewrite Heq in H1. rewrite H1 in H2. now inversion H2.
Qed.

(** The first alternative of the digits is the longest group there. *)
Lemma hex12_greedy (h' rest h r : string) (alts : list (string * string)) :
  hex_group h' = true -> hex12 (h' +:+ rest) = (h, r) :: alts ->
  (String.length h' <= String.length h)%nat.
Proof.
  intros Hh. apply hex_group_inv in Hh as [(a & Ha & ->)|(a & b & Ha & Hb & ->)].
  - intros H. apply hex12_first in H as [Hg _]. apply hex_group_length in Hg. simpl. lia.
  - simpl. rewrite Ha, Hb. simpl. intros [= <- _ _]. simpl. lia.
Qed.

(** ** The hardware-address pattern *)

(** X1.  [_MAC_REGEX.match] succeeds on a text exactly when the text
    begins with a hardware address (six colon-separated groups of one or
    two hex digits; what follows is not looked at), and the text it
    matches is the longest such beginning: between 11 and 17 characters. *)
Theorem mac_match_longest (e : string) :
  (is_Some (mac_match e) <-> mac_prefixed e) ∧
  (forall m r, mac_match e = Some (m, r) ->
     e = m +:+ r ∧ mac_shaped m ∧
     (11 <= String.length m <= 17)%nat ∧
     (forall m' r', mac_shaped m' -> e = m' +:+ r' ->
                    (String.length m' <= String.length m)%nat)).
Proof.
  split; [apply mac_match_prefixed|].
  intros m r Hm. unfold mac_match in Hm.
  destruct (hex_colon_rep 5 e) as [[m5 r5]|] eqn:E; [|discriminate].
  destruct (hex12 r5) as [|[h r0] alts] eqn:E2; [discriminate|].
  inversion Hm; subst m r0. clear Hm.
  apply hex_colon_rep_sound in E as (Hg & ->).
  pose proof (hex12_first _ _ _ _ E2) as (Hh & Hr5). subst r5.
  split; [now rewrite app_assoc_str|].
  split; [now exists m5, h|].
  pose proof (colon_groups_length 5 m5 Hg) as Hl5.
  pose proof (hex_group_length h Hh) as Hlh.
  split; [rewrite length_app_str; lia|].
  intros m' r' (m5' & h6' & Hg' & Hh' & ->) Heq.
  rewrite app_assoc_str in Heq.
  destruct (colon_groups_prefix_unique 5 m5 m5' _ _ Hg Hg' Heq) as [<- Hrest].
  rewrite Hrest in E2.
  pose proof (hex12_greedy h6' r' h r alts Hh' E2).
  rewrite !length_app_str. lia.
Qed.

(** The text after the address is not looked at, and the last group
    takes two digits when it can. *)
Lemma mac_match_longest_witness :
  "a:b:c:dd:ee:fff" = "a:b:c:dd:ee:ff" +:+ "f" ∧ mac_shaped "a:b:c:dd:ee:ff" ∧
  (11 <= String.length "a:b:c:dd:ee:ff" <= 17)%nat ∧
  (forall m' r', mac_shaped m' -> "a:b:c:dd:ee:fff" = m' +:+ r' ->
                 (String.length m' <= String.length "a:b:c:dd:ee:ff")%nat).
Proof.
  apply (proj2 (mac_match_longest "a:b:c:dd:ee:fff") "a:b:c:dd:ee:ff" "f").
  reflexivity.
Defined.

(** ** The address lookup of the sweep *)

Lemma mac_search_step (s : string) :
  mac_search s
  = match mac_match s with
    | Some (m, _) => Some m
    | None => match s with
              | String _ s' => mac_search s'
              | EmptyString => None
              end
    end.
Proof. destruct s; reflexivity. Qed.

Lemma mac_search_none (s : string) :
  mac_search s = None ->
  forall pre rest, s = pre +:+ rest -> ~ mac_prefixed rest.
Proof.
  induction s as [|c s IH]; intros Hs pre rest Heq Hp;
    rewrite mac_search_step in Hs;
    destruct (mac_match _) as [[m r]|] eqn:Em; try discriminate.
  - destruct pre; [|discriminate]. simpl in Heq. subst rest.
    apply mac_match_prefixed in Hp as [x Hx]. congruence.
  - destruct pre as [|c' pre]; simpl in Heq.
    + subst rest. apply mac_match_prefixed in Hp as [x Hx]. congruence.
    + injection Heq as _ Heq. exact (IH Hs pre rest Heq Hp).
Qed.

Lemma mac_search_found (s m : string) :
  mac_search s = Some m ->
  ∃ pre post, s = pre +:+ m +:+ post ∧ mac_shaped m ∧
    (forall pre' rest', s = pre' +:+ rest' ->
       (String.length pre' < String.length pre)%nat -> ~ mac_prefixed rest').
Proof.
  induction s as [|c s IH]; intros Hs; rewrite mac_search_step in Hs;
    destruct (mac_match _) as [[m0 r]|] eqn:Em; try discriminate.
  - injection Hs as ->. apply mac_match_sound in Em as [Hm Heq].
    exists EmptyString, r. repeat split; auto. simpl. intros; lia.
  - destruct (IH Hs) as (pre & post & Heq & Hm & Hleft).
    exists (String c pre), post. split; [simpl; now rewrite Heq|]. split; [exact Hm|].
    intros pre' rest' Heq' Hlen Hp. destruct pre' as [|c' pre']; simpl in Heq'.
    + subst rest'. apply mac_match_prefixed in Hp as [x Hx]. congruence.
    + injection Heq' as _ Heq'. apply (Hleft pre' rest' Heq'); [simpl in Hlen; lia | exact Hp].
Qed.

(** X2.  [_arp] makes one lookup and leaves the scanner alone.  What it
    returns is the first hardware address in the text the tool printed:
    a text of the hardware-address form that stands in the output, with
    no address beginning before it; it returns [None] exactly when no
    address begins anywhere in the output.  It raises nothing. *)
Theorem arp_first_address {Self W : Type} (env : Env W) (ip_address : string)
    (h : Heap Self W) (r : result (option string)) (h' : Heap Self W) :
  _arp env ip_address h = (r, h') ->
  self h' = self h ∧
  io_log h' = io_log h ++ [ArpLookup ip_address] ∧
  ∃ found, r = Returns found ∧
    match found with
    | Some m =>
        ∃ pre post,
          fst (arp_communicate env ip_address (world h)) = pre +:+ m +:+ post ∧
          mac_shaped m ∧
          (forall pre' rest',
             fst (arp_communicate env ip_address (world h)) = pre' +:+ rest' ->
             (String.length pre' < String.length pre)%nat -> ~ mac_prefixed rest')
    | None =>
        forall pre rest,
          fst (arp_communicate env ip_address (world h)) = pre +:+ rest ->
          ~ mac_prefixed rest
    end.
Proof.
  unfold _arp. unfold_monad.
  destruct (arp_communicate env ip_address (world h)) as [out w'] eqn:E.
  cbn. intros [= <- <-]. cbn. repeat split.
  exists (mac_search out). split; [reflexivity|].
  destruct (mac_search out) as [m|] eqn:Es.
  - now apply mac_search_found.
  - now apply mac_search_none.
Qed.

(** The output of [arp -n] for a host that answers. *)
Lemma arp_first_address_witness :
  ∃ pre post,
    "b'? (192.168.1.10) at aa:bb:cc:dd:ee:01 [ether] on eth0\n'"
    = pre +:+ "aa:bb:cc:dd:ee:01" +:+ post ∧
    mac_shaped "aa:bb:cc:dd:ee:01".
Proof.
  destruct (arp_first_address
              (TestWorld.fixed (HttpRaises RequestsTimeout) ScanRaises
                 "b'? (192.168.1.10) at aa:bb:cc:dd:ee:01 [ether] on eth0\n'")
              "192.168.1.10" TestWorld.sweeper
              (Returns (Some "aa:bb:cc:dd:ee:01"))
              (mkHeap (self TestWorld.sweeper) (world TestWorld.sweeper)
                 [ArpLookup "192.168.1.10"]) eq_refl)
    as (_ & _ & found & Hfound & Hspec).
  injection Hfound as <-. destruct Hspec as (pre & post & Heq & Hm & _).
  exists pre, post. split; [exact Heq | exact Hm].
Defined.

(** ** Fetching from the router *)

(** X3.  [get_ddwrt_data] makes exactly one request and leaves the
    scanner object as it is.  It returns a mapping exactly when the
    router answered with status 200, and then the parsed text of the
    answer; it raises exactly when [requests.get] raised something other
    than a timeout, and then that exception; in every other case (a
    timeout, status 401, any other status) it returns [None]. *)
Theorem get_ddwrt_data_outcome {W : Type} (env : Env W) (url : string)
    (h : Heap DdWrt.Scanner W) (r : result (option (gmap string string)))
    (h' : Heap DdWrt.Scanner W) :
  DdWrt.get_ddwrt_data env url h = (r, h') ->
  let answer := fst (requests_get env url
                       (DdWrt.username (self h), DdWrt.password (self h)) (world h)) in
  self h' = self h ∧
  io_log h' = io_log h ++ [HttpGet url] ∧
  (forall d, r = Returns (Some d) <->
     ∃ text, answer = HttpResponse 200 text ∧ d = DdWrt._parse_ddwrt_response text) ∧
  (forall e, r = Raises e <-> answer = HttpRaises e ∧ e ≠ RequestsTimeout) ∧
  (r = Returns None <->
     answer = HttpRaises RequestsTimeout ∨
     ∃ status_code text, answer = HttpResponse status_code text ∧ status_code ≠ 200).
Proof.
  rewrite get_ddwrt_data_run.
  destruct (requests_get env url _ (world h)) as [[e|status text] w']; cbn [fst].
  - destruct (exn_eqb e RequestsTimeout) eqn:He; intros [= <- <-]; cbn;
      (split; [reflexivity|]); (split; [reflexivity|]).
    + assert (e = RequestsTimeout) as -> by (destruct e; (reflexivity || discriminate)).
      naive_solver.
    + assert (e ≠ RequestsTimeout) by (intros ->; discriminate).
      naive_solver.
  - destruct (Z.eqb_spec status 200) as [->|Hne]; intros [= <- <-]; cbn;
      (split; [reflexivity|]); (split; [reflexivity|]); naive_solver.
Qed.

(** A router that rejects the credentials. *)
Lemma get_ddwrt_data_outcome_witness :
  fst (DdWrt.get_ddwrt_data
         (TestWorld.fixed (HttpResponse 401 "Unauthorized") ScanRaises "")
         "http://192.168.1.1/Status_Wireless.live.asp" TestWorld.busy_poller)
  = Returns None.
Proof.
  destruct (get_ddwrt_data_outcome
              (TestWorld.fixed (HttpResponse 401 "Unauthorized") ScanRaises "")
              "http://192.168.1.1/Status_Wireless.live.asp" TestWorld.busy_poller
              _ _ eq_refl) as (_ & _ & _ & _ & Hnone).
  apply Hnone. right. exists 401, "Unauthorized". split; [reflexivity | discriminate].
Defined.

(** ** Construction of the router poll *)

Lemma init_run {W : Type} (env : Env W) (h u p : string) (w : W) :
  DdWrt.init env h u p w
  = let url := DdWrt.wireless_url h in
    let '(answer, w') := requests_get env url (u, p) w in
    let made ok := mkThrottled (mkHeap (DdWrt.mkScanner h u p [] ∅ ok) w' [HttpGet url])
                     None false [] in
    match answer with
    | HttpRaises e =>
        if exn_eqb e RequestsTimeout then (Returns tt, made false)
        else (Raises e, made false)
    | HttpResponse status_code text => (Returns tt, made (status_code =? 200))
    end.
Proof.
  unfold DdWrt.init, lift_heap. cbn [heap last_refresh_at last_status refresh_log].
  unfold mbind at 1, M_bind at 1, bind at 1.
  rewrite get_ddwrt_data_run. cbn [self world io_log DdWrt.username DdWrt.password].
  destruct (requests_get env _ _ w) as [[e|status text] w'].
  - destruct (exn_eqb e RequestsTimeout); reflexivity.
  - destruct (status =? 200); reflexivity.
Qed.

(** X4.  The constructor of the router poll makes exactly one request,
    to the wireless status page, and starts with no results, no names
    and no refresh behind it.  The scanner counts as initialised exactly
    when the router answered with status 200, whatever the text of the
    answer; the constructor itself raises exactly when [requests.get]
    raised something other than a timeout. *)
Theorem init_outcome {W : Type} (env : Env W) (h u p : string) (w : W)
    (r : result unit) (t : Throttled DdWrt.Scanner W) :
  DdWrt.init env h u p w = (r, t) ->
  let answer := fst (requests_get env (DdWrt.wireless_url h) (u, p) w) in
  DdWrt.host (self (heap t)) = h ∧
  DdWrt.username (self (heap t)) = u ∧ DdWrt.password (self (heap t)) = p ∧
  DdWrt.last_results (self (heap t)) = [] ∧
  DdWrt.mac2name (self (heap t)) = ∅ ∧
  io_log (heap t) = [HttpGet (DdWrt.wireless_url h)] ∧
  last_refresh_at t = None ∧
  (DdWrt.success_init (self (heap t)) = true <->
     ∃ text, answer = HttpResponse 200 text) ∧
  (forall e, r = Raises e <-> answer = HttpRaises e ∧ e ≠ RequestsTimeout).
Proof.
  rewrite init_run. cbv zeta.
  destruct (requests_get env _ _ w) as [[e|status text] w']; cbn [fst].
  - destruct (exn_eqb e RequestsTimeout) eqn:He; intros [= <- <-]; cbn;
      repeat (split; [reflexivity|]).
    + assert (e = RequestsTimeout) as -> by (destruct e; (reflexivity || discriminate)).
      naive_solver.
    + assert (e ≠ RequestsTimeout) by (intros ->; discriminate).
      naive_solver.
  - destruct (Z.eqb_spec status 200) as [->|Hne]; intros [= <- <-]; cbn;
      repeat (split; [reflexivity|]); naive_solver.
Qed.

(** Any page served with status 200 initialises the scanner. *)
Lemma init_outcome_witness :
  DdWrt.success_init
    (self (heap (snd (DdWrt.init
                        (TestWorld.fixed (HttpResponse 200 "<html>hello</html>") ScanRaises "")
                        "192.168.1.1" "admin" "secret" 0))))
  = true.
Proof.
  destruct (init_outcome
              (TestWorld.fixed (HttpResponse 200 "<html>hello</html>") ScanRaises "")
              "192.168.1.1" "admin" "secret" 0 _ _ eq_refl)
    as (_ & _ & _ & _ & _ & _ & _ & Hinit & _).
  apply Hinit. exists "<html>hello</html>". reflexivity.
Defined.

(** X5.  [get_scanner] hands out a scanner only when the configuration
    is valid and the router answered the constructor's request with
    status 200; the scanner it hands out is initialised, so that its
    refreshes do query the router.  With an invalid configuration the
    result is [None] whatever the router would answer. *)
Theorem get_scanner_outcome {W : Type} (env : Env W) (valid : bool) (h u p : string)
    (w : W) (t : Throttled DdWrt.Scanner W) :
  DdWrt.get_scanner env valid h u p w = Returns (Some t) ->
  valid = true ∧
  t = snd (DdWrt.init env h u p w) ∧
  DdWrt.success_init (self (heap t)) = true ∧
  (∃ text, fst (requests_get env (DdWrt.wireless_url h) (u, p) w) = HttpResponse 200 text) ∧
  (forall w1, ∃ r h',
     DdWrt._update_info env (mkHeap (self (heap t)) w1 (io_log (heap t))) = (r, h') ∧
     io_log h' = io_log (heap t) ++ [HttpGet (DdWrt.wireless_url h)]) ∧
  (forall h0 u0 p0 w0, DdWrt.get_scanner env false h0 u0 p0 w0 = Returns None).
Proof.
  unfold DdWrt.get_scanner. destruct valid; cbn [negb]; [|discriminate].
  destruct (DdWrt.init env h u p w) as [r t0] eqn:E.
  destruct r as [[]|e]; [|discriminate].
  destruct (DdWrt.success_init (self (heap t0))) eqn:Hs; [|discriminate].
  intros [= <-].
  destruct (init_outcome env h u p w _ _ E) as (Hh & _ & _ & _ & _ & _ & _ & Hinit & _).
  repeat split; auto.
  - now apply Hinit.
  - intros w1.
    destruct (DdWrt._update_info env (mkHeap (self (heap t0)) w1 (io_log (heap t0))))
      as [r h'] eqn:Er.
    exists r, h'. split; [reflexivity|].
    destruct (update_info_one_get env
                (mkHeap (self (heap t0)) w1 (io_log (heap t0))) r h' Hs Er)
      as (Hlog & _ & _).
    cbn [self io_log] in Hlog. now rewrite Hlog, Hh.
Qed.

(** A router that answers hands out a scanner. *)
Lemma get_scanner_outcome_witness :
  DdWrt.success_init
    (self (heap (snd (DdWrt.init TestWorld.other_page_router
                        "192.168.1.1" "admin" "secret" 0))))
  = true.
Proof.
  apply (get_scanner_outcome TestWorld.other_page_router true
           "192.168.1.1" "admin" "secret" 0
           (snd (DdWrt.init TestWorld.other_page_router "192.168.1.1" "admin" "secret" 0))).
  reflexivity.
Defined.

(** ** A scanner that did not initialise *)

Lemma uninitialised_call {W : Type} (env : Env W) (t : Throttled DdWrt.Scanner W) :
  DdWrt.success_init (self (heap t)) = false ->
  fst (DdWrt.scan_devices env t) = Returns (DdWrt.last_results (self (heap t))) ∧
  heap (snd (DdWrt.scan_devices env t)) = heap t.
Proof.
  intros Hinit.
  pose proof (scan_run env MIN_TIME_BETWEEN_SCANS (DdWrt._update_info env)
                (fun h => DdWrt.last_results (self h)) t) as Hrun.
  change (Throttle env MIN_TIME_BETWEEN_SCANS (DdWrt._update_info env)
          ≫= (fun _ : bool => lift_heap (gets (fun h => DdWrt.last_results (self h)))))
    with (DdWrt.scan_devices env) in Hrun.
  rewrite Hrun. unfold Throttle.
  destruct (refresh_due _ _ _).
  - rewrite update_info_run, Hinit. cbn. auto.
  - cbn. auto.
Qed.

(** X6.  A router-poll scanner that is not initialised is inert: however
    many times and whenever [scan_devices] is called, every call returns
    the list the scanner holds, no request is ever made, and the scanner
    object stays as it is. *)
Theorem uninitialised_never_fetches {W : Type} (env : Env W) (ws : list W)
    (t : Throttled DdWrt.Scanner W) :
  DdWrt.success_init (self (heap t)) = false ->
  self (heap (calls (DdWrt.scan_devices env) ws t)) = self (heap t) ∧
  io_log (heap (calls (DdWrt.scan_devices env) ws t)) = io_log (heap t) ∧
  (forall w, fst (DdWrt.scan_devices env
                    (at_world w (calls (DdWrt.scan_devices env) ws t)))
             = Returns (DdWrt.last_results (self (heap t)))).
Proof.
  revert t. induction ws as [|w ws IH]; intros t Hinit.
  - cbn [calls]. repeat split.
    intros w. now destruct (uninitialised_call env (at_world w t) Hinit) as [-> _].
  - cbn [calls].
    destruct (uninitialised_call env (at_world w t) Hinit) as [_ Hheap].
    set (t1 := snd (DdWrt.scan_devices env (at_world w t))) in *.
    assert (Hinit1 : DdWrt.success_init (self (heap t1)) = false) by now rewrite Hheap.
    destruct (IH t1 Hinit1) as (Hself & Hlog & Hret).
    rewrite Hself, Hlog, Hheap. repeat split.
    intros w0. rewrite Hret. now rewrite Hheap.
Qed.

(** A scanner whose constructor met a timeout, called three times. *)
Lemma uninitialised_never_fetches_witness :
  io_log (heap (calls (DdWrt.scan_devices TestWorld.other_page_router)
                  [0; seconds 10; seconds 20]
                  (snd (DdWrt.init
                          (TestWorld.fixed (HttpRaises RequestsTimeout) ScanRaises "")
                          "192.168.1.1" "admin" "secret" 0))))
  = [HttpGet "http://192.168.1.1/Status_Wireless.live.asp"].
Proof.
  apply (uninitialised_never_fetches TestWorld.other_page_router
           [0; seconds 10; seconds 20]
           (snd (DdWrt.init (TestWorld.fixed (HttpRaises RequestsTimeout) ScanRaises "")
                   "192.168.1.1" "admin" "secret" 0))).
  reflexivity.
Defined.

(** ** Presence and names in the router poll *)

Ltac case_run :=
  repeat match goal with
         | |- context [match ?x with _ => _ end] =>
             lazymatch x with
             | context [match _ with _ => _ end] => fail
             | _ => destruct x eqn:?
             end
         end.

(** What a name lookup can change: the name index and, on a miss, the
    log and the world. *)
Lemma name_lookup_frame {W : Type} (env : Env W) (device : string)
    (h : Heap DdWrt.Scanner W) (r : result (option string)) (h' : Heap DdWrt.Scanner W) :
  DdWrt.get_device_name env device h = (r, h') ->
  (∃ index, self h' = DdWrt.set_mac2name index (self h)) ∧
  (device ∈ dom (DdWrt.mac2name (self h)) -> h' = h) ∧
  (device ∉ dom (DdWrt.mac2name (self h)) ->
   io_log h' = io_log h ++ [HttpGet (DdWrt.lan_url (DdWrt.host (self h)))]).
Proof.
  rewrite get_device_name_run. cbv zeta.
  assert (Hsame : ∃ index, self h = DdWrt.set_mac2name index (self h)).
  { exists (DdWrt.mac2name (self h)). now destruct (self h). }
  destruct (bool_decide (device ∈ dom (DdWrt.mac2name (self h)))) eqn:Hdom.
  - apply bool_decide_eq_true in Hdom. intros [= <- <-]. repeat split; auto.
    intros Hn. contradiction.
  - apply bool_decide_eq_false in Hdom.
    case_run; intros [= <- <-]; cbn [after_get with_mac2name self io_log];
      (split; [eauto|]); (split; [intros; contradiction | reflexivity]).
Qed.

(** X7.  A refresh of the router poll that reports success had a router
    answering with status 200 and a non-empty active-client field.  The
    results it leaves are determined by that field alone (the results
    held before play no part): the entries of the split field that begin
    with a hardware address, in their order; the name index is not
    touched. *)
Theorem poll_success {W : Type} (env : Env W)
    (h h' : Heap DdWrt.Scanner W) :
  DdWrt._update_info env h = (Returns true, h') ->
  ∃ text v,
    fst (requests_get env (DdWrt.wireless_url (DdWrt.host (self h)))
           (DdWrt.username (self h), DdWrt.password (self h)) (world h))
    = HttpResponse 200 text ∧
    DdWrt._parse_ddwrt_response text !! "active_wireless" = Some v ∧
    v ≠ EmptyString ∧
    DdWrt.last_results (self h')
    = filter (fun item => is_Some (mac_match item))
        (split DdWrt.squote_sep (strip_char squote (strip v))) ∧
    Forall mac_prefixed (DdWrt.last_results (self h')) ∧
    DdWrt.last_results (self h')
      `sublist_of` split DdWrt.squote_sep (strip_char squote (strip v)) ∧
    DdWrt.mac2name (self h') = DdWrt.mac2name (self h).
Proof.
  rewrite update_info_run. cbv zeta.
  destruct (DdWrt.success_init (self h)); cbn [negb]; [|discriminate].
  destruct (requests_get env _ _ (world h)) as [[e|status text] w']; cbn [fst].
  - destruct (exn_eqb e RequestsTimeout); discriminate.
  - destruct (Z.eqb_spec status 200) as [->|]; [|discriminate].
    destruct (dict_truthy _); [|discriminate].
    destruct (_ !! "active_wireless") as [v|] eqn:Hv; [|discriminate].
    destruct v as [|c v]; [discriminate|]. cbn [str_truthy].
    intros [= <-]. exists text, (String c v).
    cbn [with_last_results after_get self DdWrt.last_results DdWrt.set_last_results
           DdWrt.mac2name].
    repeat split; auto; try discriminate.
    + apply Forall_forall. intros e He.
      apply list_elem_of_filter in He as [He _]. now apply mac_match_prefixed.
    + apply sublist_filter.
Qed.

(** A refresh can succeed with no result at all. *)
Lemma poll_success_witness :
  ∃ text v,
    DdWrt._parse_ddwrt_response text !! "active_wireless" = Some v ∧
    DdWrt.last_results
      (self (snd (DdWrt._update_info
                    (TestWorld.fixed (HttpResponse 200 "{active_wireless::none}")
                       ScanRaises "")
                    TestWorld.busy_poller)))
    = filter (fun item => is_Some (mac_match item))
        (split DdWrt.squote_sep (strip_char squote (strip v))).
Proof.
  destruct (poll_success
              (TestWorld.fixed (HttpResponse 200 "{active_wireless::none}") ScanRaises "")
              TestWorld.busy_poller
              (snd (DdWrt._update_info
                      (TestWorld.fixed (HttpResponse 200 "{active_wireless::none}")
                         ScanRaises "")
                      TestWorld.busy_poller)) eq_refl)
    as (text & v & _ & Hv & _ & Hres & _).
  exists text, v. split; [exact Hv | exact Hres].
Defined.

(** X8.  Presence and names are kept apart in the router poll.  A
    refresh, however it ends, leaves the name index, the credentials and
    the initialisation flag as they were; a name lookup, however it ends,
    leaves the results, the credentials and the initialisation flag as
    they were. *)
Theorem presence_and_names_apart {W : Type} (env : Env W) (device : string)
    (h : Heap DdWrt.Scanner W) :
  (forall r h', DdWrt._update_info env h = (r, h') ->
     DdWrt.mac2name (self h') = DdWrt.mac2name (self h) ∧
     DdWrt.host (self h') = DdWrt.host (self h) ∧
     DdWrt.username (self h') = DdWrt.username (self h) ∧
     DdWrt.password (self h') = DdWrt.password (self h) ∧
     DdWrt.success_init (self h') = DdWrt.success_init (self h)) ∧
  (forall r h', DdWrt.get_device_name env device h = (r, h') ->
     DdWrt.last_results (self h') = DdWrt.last_results (self h) ∧
     DdWrt.host (self h') = DdWrt.host (self h) ∧
     DdWrt.username (self h') = DdWrt.username (self h) ∧
     DdWrt.password (self h') = DdWrt.password (self h) ∧
     DdWrt.success_init (self h') = DdWrt.success_init (self h)).
Proof.
  split; intros r h'.
  - rewrite update_info_run. cbv zeta.
    case_run; intros [= <- <-]; repeat split.
  - intros Hrun. apply name_lookup_frame in Hrun as ((index & ->) & _).
    repeat split.
Qed.

(** A refresh that found two clients left the known name alone. *)
Lemma presence_and_names_apart_witness :
  DdWrt.mac2name
    (self (snd (DdWrt._update_info
                  (TestWorld.fixed
                     (HttpResponse 200 "{active_wireless::'AA:BB:CC:DD:EE:03'}")
                     ScanRaises "")
                  TestWorld.busy_poller)))
  = DdWrt.mac2name (self TestWorld.busy_poller).
Proof.
  apply (proj1 (presence_and_names_apart
                  (TestWorld.fixed
                     (HttpResponse 200 "{active_wireless::'AA:BB:CC:DD:EE:03'}")
                     ScanRaises "")
                  "AA:BB:CC:DD:EE:03" TestWorld.busy_poller)
           (fst (DdWrt._update_info
                   (TestWorld.fixed
                      (HttpResponse 200 "{active_wireless::'AA:BB:CC:DD:EE:03'}")
                      ScanRaises "")
                   TestWorld.busy_poller))
           (snd (DdWrt._update_info
                   (TestWorld.fixed
                      (HttpResponse 200 "{active_wireless::'AA:BB:CC:DD:EE:03'}")
                      ScanRaises "")
                   TestWorld.busy_poller))).
  reflexivity.
Defined.

(** ** Names that are not known *)

(** X9.  When a name is asked for that the index does not hold and the
    lease table cannot be had (the request times out, the status is not
    200, or the answer has no lease field or an empty one), the lookup
    returns [None] after its one request and the index stays as it was:
    the names already known are not lost. *)
Theorem name_miss_keeps_index {W : Type} (env : Env W) (device : string)
    (h : Heap DdWrt.Scanner W) :
  device ∉ dom (DdWrt.mac2name (self h)) ->
  match fst (requests_get env (DdWrt.lan_url (DdWrt.host (self h)))
               (DdWrt.username (self h), DdWrt.password (self h)) (world h)) with
  | HttpRaises e => e = RequestsTimeout
  | HttpResponse status_code text =>
      status_code ≠ 200 ∨
      DdWrt._parse_ddwrt_response text !! "dhcp_leases" = None ∨
      DdWrt._parse_ddwrt_response text !! "dhcp_leases" = Some EmptyString
  end ->
  ∃ h', DdWrt.get_device_name env device h = (Returns None, h') ∧
        self h' = self h ∧
        io_log h' = io_log h ++ [HttpGet (DdWrt.lan_url (DdWrt.host (self h)))].
Proof.
  intros Hmiss. rewrite get_device_name_run.
  rewrite bool_decide_eq_false_2 by assumption. cbv zeta.
  destruct (requests_get env _ _ (world h)) as [[e|status text] w']; cbn [fst].
  - intros ->. cbn. eauto.
  - intros Hbad. destruct (Z.eqb_spec status 200) as [->|Hne]; [|eauto].
    destruct (dict_truthy _); [|eauto].
    destruct Hbad as [Hbad|[-> | ->]]; [congruence | eauto | cbn; eauto].
Qed.

(** A timeout while the phone's name is known: the name stays. *)
Lemma name_miss_keeps_index_witness :
  ∃ h', DdWrt.get_device_name
          (TestWorld.fixed (HttpRaises RequestsTimeout) ScanRaises "")
          "AA:BB:CC:DD:EE:02" TestWorld.busy_poller
        = (Returns None, h') ∧
        DdWrt.mac2name (self h') !! "AA:BB:CC:DD:EE:01" = Some "phone".
Proof.
  destruct (name_miss_keeps_index
              (TestWorld.fixed (HttpRaises RequestsTimeout) ScanRaises "")
              "AA:BB:CC:DD:EE:02" TestWorld.busy_poller)
    as (h' & Hrun & Hself & _).
  - cbn. rewrite dom_singleton_L. intros Hin. apply elem_of_singleton in Hin. discriminate.
  - reflexivity.
  - exists h'. split; [exact Hrun|]. rewrite Hself. reflexivity.
Defined.

(** X10.  After a miss that the router answered with a lease table, the
    index is that table.  If the table names the device, asking again
    makes no request and gives the same name; if it does not, the answer
    is [None] and asking again makes a second request: an unknown device
    is never remembered as unknown. *)
Theorem unknown_name_is_asked_again {W : Type} (env : Env W)
    (device text v : string) (w' : W) (h : Heap DdWrt.Scanner W) :
  device ∉ dom (DdWrt.mac2name (self h)) ->
  requests_get env (DdWrt.lan_url (DdWrt.host (self h)))
    (DdWrt.username (self h), DdWrt.password (self h)) (world h)
  = (HttpResponse 200 text, w') ->
  DdWrt._parse_ddwrt_response text !! "dhcp_leases" = Some v ->
  v ≠ EmptyString ->
  let url := DdWrt.lan_url (DdWrt.host (self h)) in
  ∃ r1 h1,
    DdWrt.get_device_name env device h = (Returns r1, h1) ∧
    io_log h1 = io_log h ++ [HttpGet url] ∧
    (forall name, r1 = Some name ->
       DdWrt.get_device_name env device h1 = (Returns (Some name), h1)) ∧
    (r1 = None ->
     forall r2 h2, DdWrt.get_device_name env device h1 = (r2, h2) ->
                   io_log h2 = io_log h ++ [HttpGet url; HttpGet url]).
Proof.
  intros Hmiss Hget Hv Hne url.
  pose proof (get_device_name_miss env device text v w' h Hmiss Hget Hv Hne) as Hrun.
  cbv zeta in Hrun.
  set (index := map_of_pairs
                  (groups5 (split DdWrt.dquote_sep (strip_char dquote (strip v))))) in *.
  set (h1 := with_mac2name index (after_get (DdWrt.lan_url (DdWrt.host (self h))) w' h)) in *.
  exists (index !! device), h1. split; [exact Hrun|]. split; [reflexivity|]. split.
  - intros name Hname. rewrite get_device_name_hit.
    + cbn [h1 with_mac2name self DdWrt.mac2name DdWrt.set_mac2name]. now rewrite Hname.
    + cbn [h1 with_mac2name self DdWrt.mac2name DdWrt.set_mac2name].
      apply elem_of_dom. eauto.
  - intros Hnone r2 h2 Hrun2.
    apply name_lookup_frame in Hrun2 as (_ & _ & Hlog).
    rewrite Hlog.
    + cbn [h1 with_mac2name after_get self io_log DdWrt.host DdWrt.set_mac2name].
      now rewrite <- app_assoc.
    + cbn [h1 with_mac2name self DdWrt.mac2name DdWrt.set_mac2name].
      now apply not_elem_of_dom.
Qed.

(** The printer is not in the table of two leases: two requests. *)
Lemma unknown_name_is_asked_again_witness :
  ∃ r1 h1,
    DdWrt.get_device_name (TestWorld.lease_router TestWorld.two_leases)
      "AA:BB:CC:DD:EE:03" TestWorld.new_poller = (Returns r1, h1) ∧
    (r1 = None ->
     forall r2 h2,
       DdWrt.get_device_name (TestWorld.lease_router TestWorld.two_leases)
         "AA:BB:CC:DD:EE:03" h1 = (r2, h2) ->
       io_log h2 = [HttpGet "http://192.168.1.1/Status_Lan.live.asp";
                    HttpGet "http://192.168.1.1/Status_Lan.live.asp"]).
Proof.
  destruct (unknown_name_is_asked_again (TestWorld.lease_router TestWorld.two_leases)
              "AA:BB:CC:DD:EE:03"
              (TestWorld.page "dhcp_leases" (" " +:+ quoted_list dquote TestWorld.two_leases))
              (" " +:+ quoted_list dquote TestWorld.two_leases) 0 TestWorld.new_poller)
    as (r1 & h1 & Hrun & _ & _ & Hagain).
  - cbn. rewrite dom_empty_L. apply not_elem_of_empty.
  - reflexivity.
  - reflexivity.
  - discriminate.
  - exists r1, h1. split; [exact Hrun | exact Hagain].
Defined.

(** ** Writing a lease table and reading it back *)









(** ** Writing a status page and reading it back *)

Lemma no_token_without_brace (c : ascii) (s : string) :
  Ascii.eqb c lbrace = false -> ddwrt_match_at (String c s) = None.
Proof. intros H. cbn [ddwrt_match_at]. now rewrite H. Qed.

Lemma findall_skip_junk (junk s : string) :
  no_lbrace junk -> findall (junk +:+ s) = findall s.
Proof.
  unfold no_lbrace. induction junk as [|c junk IH]; [reflexivity|].
  cbn [all_chars]. intros H. apply andb_prop in H as [Hc Hj].
  apply negb_true_iff in Hc.
  cbn [String.append]. rewrite findall_cons, no_token_without_brace by assumption.
  auto.
Qed.

Lemma findall_no_brace (s : string) : no_lbrace s -> findall s = [].
Proof.
  intros H. rewrite <- (app_nil_r_str s). now rewrite findall_skip_junk.
Qed.

Lemma findall_token (k v rest : string) :
  k ≠ EmptyString -> all_chars is_word k = true -> all_chars not_rbrace v = true ->
  findall (token k v +:+ rest) = (k, v) :: findall rest.
Proof.
  intros Hk Hw Hv.
  assert (Hm : ddwrt_match_at (token k v +:+ rest) = Some (k, v, rest)).
  { apply ddwrt_match_at_spec. repeat split; assumption. }
  revert Hm. rewrite token_app. intros Hm. now rewrite findall_cons, Hm.
Qed.

(** X12.  A status page written as a series of tokens, with any text
    free of opening braces before, between and after them, is read back
    token by token: the matches are the keys and values written, in
    order, and the mapping returned gives for each key the value of its
    last token. *)
Theorem page_round_trip (parts : list (string * string * string)) (tail : string) :
  Forall good_part parts -> no_lbrace tail ->
  let pairs := map (fun part => (snd (fst part), snd part)) parts in
  findall (page_text parts tail) = pairs ∧
  DdWrt._parse_ddwrt_response (page_text parts tail) = map_of_pairs pairs ∧
  (forall k, DdWrt._parse_ddwrt_response (page_text parts tail) !! k = last_value k pairs).
Proof.
  intros Hparts Htail pairs.
  assert (Hfind : findall (page_text parts tail) = pairs).
  { unfold pairs. clear pairs.
    induction Hparts as [|[[junk k] v] parts (Hj & Hk & Hw & Hv) _ IH].
    - cbn. now apply findall_no_brace.
    - cbn [page_text map fst snd].
      rewrite findall_skip_junk by assumption.
      rewrite findall_token by assumption. now rewrite IH. }
  split; [exact Hfind|].
  unfold DdWrt._parse_ddwrt_response. rewrite Hfind.
  split; [reflexivity | intros k; apply map_of_pairs_lookup].
Qed.

(** A page of three tokens on two lines, one key written twice. *)
Lemma page_round_trip_witness :
  DdWrt._parse_ddwrt_response
    (page_text [("", "wl_mac", "00:11:22:33:44:55"); ("\n", "wl_ssid", "home");
                (" ", "wl_ssid", "guest")] "\n")
  = map_of_pairs [("wl_mac", "00:11:22:33:44:55"); ("wl_ssid", "home"); ("wl_ssid", "guest")].
Proof.
  apply (page_round_trip [("", "wl_mac", "00:11:22:33:44:55"); ("\n", "wl_ssid", "home");
                          (" ", "wl_ssid", "guest")] "\n").
  - repeat constructor; discriminate.
  - reflexivity.
Defined.

(** ** What the parser can return *)

Lemma findall_elem (s : string) (l : list (string * string)) :
  Findall s l -> forall k v, (k, v) ∈ l ->
  ∃ pre post, match_here (token k v +:+ post) k v post ∧ s = pre +:+ token k v +:+ post.
Proof.
  induction 1 as [|s k0 v0 rest l Hm _ IH|c s l _ _ IH]; intros k v Hin.
  - now apply not_elem_of_nil in Hin.
  - apply elem_of_cons in Hin as [[= -> ->]|Hin].
    + destruct Hm as (Hk & Hw & Hv & ->).
      exists EmptyString, rest. split; [repeat split; assumption | reflexivity].
    + destruct (IH k v Hin) as (pre & post & Hmh & ->).
      destruct Hm as (_ & _ & _ & ->).
      exists (token k0 v0 +:+ pre), post. split; [exact Hmh|].
      now rewrite !app_assoc_str.
  - destruct (IH k v Hin) as (pre & post & Hmh & ->).
    exists (String c pre), post. split; [exact Hmh | reflexivity].
Qed.

Lemma last_value_elem (k v : string) (l : list (string * string)) :
  last_value k l = Some v -> (k, v) ∈ l.
Proof.
  unfold last_value. intros H.
  apply last_Some in H as [l' Hl].
  assert (Hin : v ∈ map snd (filter (fun kv => fst kv = k) l)).
  { rewrite Hl. apply elem_of_app. right. constructor. }
  apply list_elem_of_In, in_map_iff in Hin as ([k' v'] & Hv & Hin).
  apply list_elem_of_In, list_elem_of_filter in Hin as [Hk Hin].
  simpl in Hv, Hk. now subst.
Qed.

Lemma findall_nil_no_token (s : string) :
  findall s = [] <->
  (forall pre rest k v post, s = pre +:+ rest -> ~ match_here rest k v post).
Proof.
  split.
  - intros Hnil pre. revert s Hnil.
    induction pre as [|c pre IH]; intros s Hnil rest k v post Heq Hm.
    + simpl in Heq. subst rest. destruct s as [|c s].
      * destruct Hm as (_ & _ & _ & Hm). discriminate.
      * rewrite findall_cons in Hnil. apply ddwrt_match_at_spec in Hm.
        rewrite Hm in Hnil. discriminate.
    + simpl in Heq. subst s. rewrite findall_cons in Hnil.
      destruct (ddwrt_match_at _) as [[[? ?] ?]|]; [discriminate|].
      exact (IH _ Hnil rest k v post eq_refl Hm).
  - induction s as [|c s IH]; intros Hno; [reflexivity|].
    rewrite findall_cons.
    destruct (ddwrt_match_at (String c s)) as [[[k v] rest]|] eqn:E.
    + apply ddwrt_match_at_spec in E. exfalso.
      exact (Hno EmptyString (String c s) k v rest eq_refl E).
    + apply IH. intros pre rest k v post Heq.
      apply (Hno (String c pre) rest k v post). simpl. now rewrite Heq.
Qed.

(** X13.  Every entry of the mapping the parser returns was written in
    the text: its key is one or more word characters, its value holds no
    closing brace, and the token made of the two stands in the text.
    The mapping is empty exactly when no token begins anywhere in the
    text. *)
Theorem parsed_entries_are_tokens (data_str : string) :
  (forall k v, DdWrt._parse_ddwrt_response data_str !! k = Some v ->
     k ≠ EmptyString ∧ all_chars is_word k = true ∧ all_chars not_rbrace v = true ∧
     ∃ pre post, data_str = pre +:+ token k v +:+ post) ∧
  (DdWrt._parse_ddwrt_response data_str = ∅ <->
   forall pre rest k v post, data_str = pre +:+ rest -> ~ match_here rest k v post).
Proof.
  split.
  - intros k v Hkv. unfold DdWrt._parse_ddwrt_response in Hkv.
    change (fold_left (fun d kv => <[fst kv := snd kv]> d) (findall data_str) ∅)
      with (map_of_pairs (findall data_str)) in Hkv.
    rewrite map_of_pairs_lookup in Hkv. apply last_value_elem in Hkv.
    destruct (findall_elem data_str _ (findall_Findall data_str) k v Hkv)
      as (pre & post & (Hk & Hw & Hv & _) & Heq).
    repeat split; eauto.
  - rewrite <- findall_nil_no_token.
    change (DdWrt._parse_ddwrt_response data_str) with (map_of_pairs (findall data_str)).
    split.
    + intros Hempty. destruct (findall data_str) as [|[k v] l] eqn:E; [reflexivity|].
      exfalso. assert (Hin : k ∈ dom (map_of_pairs ((k, v) :: l))).
      { apply map_of_pairs_dom. simpl. constructor. }
      rewrite Hempty, dom_empty_L in Hin. now apply not_elem_of_empty in Hin.
    + now intros ->.
Qed.

(** The entry read from a page stands in the page. *)
Lemma parsed_entries_are_tokens_witness :
  ∃ pre post, "junk{wl_ssid::home}{broken" = pre +:+ token "wl_ssid" "home" +:+ post.
Proof.
  destruct (proj1 (parsed_entries_are_tokens "junk{wl_ssid::home}{broken")
              "wl_ssid" "home" eq_refl) as (_ & _ & _ & H).
  exact H.
Defined.

(** ** The sweep, host by host *)

Lemma str_truthy_false (m : string) : str_truthy m = false <-> m = EmptyString.
Proof. destruct m; simpl; split; congruence. Qed.

(** One host of the probe result. *)
Lemma scan_step_facts {W : Type} (env : Env W) (t : Z) (item : string * HostInfo)
    (h : Heap Nmap.Scanner W) :
  ∃ (new : list Nmap.Device) (arps : list io_event) (w' : W),
    (forall acc, Nmap.scan_step env t acc item h
                 = (Returns (acc ++ new), mkHeap (self h) w' (io_log h ++ arps))) ∧
    arps = (if decide (needs_arp item) then [ArpLookup (fst item)] else []) ∧
    (length new <= length (up_hosts [item]))%nat ∧
    Forall (fun dev => stamped t dev ∧ made_from item dev) new ∧
    (forall m, status_state (snd item) = "up" -> addresses_mac (snd item) = Some m ->
               m ≠ EmptyString ->
               new = [Nmap.mkDevice (upper m) (display_name item) (fst item) t]) ∧
    (clock_monotone env -> now env (world h) <= now env w').
Proof.
  destruct item as [ipv4 info]. unfold Nmap.scan_step, up_hosts. cbn [fst snd].
  change (match hostnames info with n :: _ => n | [] => ipv4 end)
    with (display_name (ipv4, info)).
  destruct (String.eqb_spec (status_state info) "up") as [Hup|Hdown]; cbn [negb].
  2:{ exists [], [], (world h). repeat split; auto.
      - intros acc. unfold_monad. now rewrite app_nil_r, heap_eta.
      - rewrite decide_False; [reflexivity|]. intros [Hup _]. contradiction.
      - cbn. lia.
      - intros m Hup. contradiction.
      - intros _. lia. }
  rewrite filter_cons_True by exact Hup. cbn [filter list_filter length].
  assert (Hdev : forall m, stamped t (Nmap.mkDevice (upper m) (display_name (ipv4, info)) ipv4 t)
                           ∧ made_from (ipv4, info)
                               (Nmap.mkDevice (upper m) (display_name (ipv4, info)) ipv4 t)).
  { intros m. split; [split; [reflexivity | apply upper_idem] | repeat split; assumption]. }
  assert (Harp : needs_arp (ipv4, info) ->
    ∃ new arps w',
      (forall acc,
         (_arp env ipv4 ≫= fun mac_ : option string =>
            match mac_ with
            | None => mret acc
            | Some m => mret (acc ++ [Nmap.mkDevice (upper m) (display_name (ipv4, info)) ipv4 t])
            end) h
         = (Returns (acc ++ new), mkHeap (self h) w' (io_log h ++ arps))) ∧
      arps = (if decide (needs_arp (ipv4, info)) then [ArpLookup ipv4] else []) ∧
      (length new <= 1)%nat ∧
      Forall (fun dev => stamped t dev ∧ made_from (ipv4, info) dev) new ∧
      (clock_monotone env -> now env (world h) <= now env w')).
  { intros Hneed. rewrite decide_True by exact Hneed.
    destruct (arp_communicate env ipv4 (world h)) as [out w'] eqn:E.
    assert (Hmono : clock_monotone env -> now env (world h) <= now env w').
    { intros (_ & _ & Hm). specialize (Hm ipv4 (world h)). now rewrite E in Hm. }
    destruct (mac_search out) as [m|] eqn:Es.
    - exists [Nmap.mkDevice (upper m) (display_name (ipv4, info)) ipv4 t],
             [ArpLookup ipv4], w'.
      repeat split; auto; try apply Hdev.
      intros acc. unfold_monad. rewrite E. cbn. now rewrite Es.
    - exists [], [ArpLookup ipv4], w'.
      repeat split; auto; try (cbn; lia).
      intros acc. unfold_monad. rewrite E. cbn. now rewrite Es, app_nil_r. }
  destruct (addresses_mac info) as [m|] eqn:Hmac.
  - destruct (str_truthy m) eqn:Htr.
    + exists [Nmap.mkDevice (upper m) (display_name (ipv4, info)) ipv4 t], [], (world h).
      repeat split; auto; try apply Hdev.
      * intros acc. unfold_monad. now rewrite heap_eta.
      * rewrite decide_False; [reflexivity|]. intros [_ Hm]. cbn in Hm.
        rewrite Hmac in Hm. subst m. discriminate.
      * intros m' _ [= <-] _. reflexivity.
      * intros _. lia.
    + apply str_truthy_false in Htr. subst m.
      destruct Harp as (new & arps & w' & Hrun & Harps & Hlen & Hnew & Hmono).
      { split; [exact Hup|]. cbn. now rewrite Hmac. }
      exists new, arps, w'. repeat split; auto.
      intros m' _ [= <-] Hne. congruence.
  - destruct Harp as (new & arps & w' & Hrun & Harps & Hlen & Hnew & Hmono).
    { split; [exact Hup|]. cbn. now rewrite Hmac. }
    exists new, arps, w'. repeat split; auto.
    intros m' _ Hm. discriminate.
Qed.

(** The whole probe result. *)
Lemma scan_loop_facts {W : Type} (env : Env W) (t : Z)
    (items : list (string * HostInfo)) : forall (h : Heap Nmap.Scanner W),
  ∃ (fresh : list Nmap.Device) (arps : list io_event) (w' : W),
    (forall acc, Nmap.scan_loop env t acc items h
                 = (Returns (acc ++ fresh), mkHeap (self h) w' (io_log h ++ arps))) ∧
    arps = map (fun item => ArpLookup (fst item)) (filter needs_arp items) ∧
    (length fresh <= length (up_hosts items))%nat ∧
    Forall (fun dev => stamped t dev ∧ ∃ item, item ∈ items ∧ made_from item dev) fresh ∧
    (forall item m, item ∈ items -> status_state (snd item) = "up" ->
                    addresses_mac (snd item) = Some m -> m ≠ EmptyString ->
                    Nmap.mkDevice (upper m) (display_name item) (fst item) t ∈ fresh) ∧
    (clock_monotone env -> now env (world h) <= now env w').
Proof.
  induction items as [|item items IH]; intros h.
  - exists [], [], (world h). repeat split; auto.
    + intros acc. cbn. unfold_monad. now rewrite app_nil_r, heap_eta.
    + intros item m Hin. now apply not_elem_of_nil in Hin.
    + intros _. lia.
  - destruct (scan_step_facts env t item h)
      as (new & arps1 & w1 & Hstep & Ha1 & Hl1 & Hn1 & Hm1 & Hc1).
    destruct (IH (mkHeap (self h) w1 (io_log h ++ arps1)))
      as (fresh & arps2 & w2 & Hloop & Ha2 & Hl2 & Hn2 & Hm2 & Hc2).
    cbn [world] in Hc2.
    exists (new ++ fresh), (arps1 ++ arps2), w2. repeat split.
    + intros acc. cbn [Nmap.scan_loop]. unfold mbind, M_bind, bind.
      rewrite Hstep, Hloop. cbn [self io_log]. now rewrite !app_assoc.
    + rewrite Ha1, Ha2. destruct (decide (needs_arp item)) as [Hn|Hn].
      * now rewrite filter_cons_True by exact Hn.
      * now rewrite filter_cons_False by exact Hn.
    + rewrite length_app. unfold up_hosts in *.
      destruct (decide (status_state (snd item) = "up")) as [Hu|Hu].
      * rewrite filter_cons_True in Hl1 |- * by exact Hu. cbn in Hl1 |- *. lia.
      * rewrite filter_cons_False in Hl1 |- * by exact Hu. cbn in Hl1. lia.
    + apply Forall_app. split.
      * eapply Forall_impl; [exact Hn1|]. intros dev [Hs Hmade].
        split; [exact Hs|]. exists item. split; [constructor | exact Hmade].
      * eapply Forall_impl; [exact Hn2|]. intros dev (Hs & it & Hin & Hmade).
        split; [exact Hs|]. exists it. split; [now constructor | exact Hmade].
    + intros it m Hin Hup Hmac Hne. apply elem_of_app.
      apply elem_of_cons in Hin as [->|Hin].
      * left. rewrite (Hm1 m Hup Hmac Hne). constructor.
      * right. now apply (Hm2 it m).
    + intros Hmono. specialize (Hc1 Hmono). specialize (Hc2 Hmono). lia.
Qed.

(** The devices the sweep carries over, as the code computes them. *)
Lemma carried_old {W : Type} (env : Env W) (h : Heap Nmap.Scanner W) (dev : Nmap.Device) :
  dev ∈ (if bool_decide (Nmap.home_interval (self h) ≠ 0)
         then Nmap.seen_since (now env (world h) - Nmap.home_interval (self h))
                (Nmap.last_results (self h))
         else []) ->
  dev ∈ Nmap.last_results (self h) ∧
  now env (world h) - Nmap.home_interval (self h) < Nmap.last_update dev.
Proof.
  destruct (bool_decide _).
  - unfold Nmap.seen_since. intros Hin. apply list_elem_of_filter in Hin. tauto.
  - intros Hin. now apply not_elem_of_nil in Hin.
Qed.

(** One execution of the sweep, with what the loop does spelled out. *)
Lemma sweep_facts {W : Type} (env : Env W) (h : Heap Nmap.Scanner W)
    (r : result bool) (h' : Heap Nmap.Scanner W) :
  Nmap._update_info env h = (r, h') ->
  let carried :=
    if bool_decide (Nmap.home_interval (self h) ≠ 0)
    then Nmap.seen_since (now env (world h) - Nmap.home_interval (self h))
           (Nmap.last_results (self h))
    else [] in
  let options := Nmap.exclude_options carried in
  let probe := portscanner_scan env (Nmap.hosts (self h)) options (world h) in
  match fst probe with
  | ScanRaises =>
      r = Returns false ∧
      h' = mkHeap (self h) (snd probe)
             (io_log h ++ [NmapScan (Nmap.hosts (self h)) options])
  | ScanResult items =>
      r = Returns true ∧
      ∃ fresh w2,
        h' = mkHeap (Nmap.set_last_results (carried ++ fresh) (self h)) w2
               (io_log h ++ NmapScan (Nmap.hosts (self h)) options
                  :: map (fun item => ArpLookup (fst item)) (filter needs_arp items)) ∧
        (length fresh <= length (up_hosts items))%nat ∧
        Forall (fun dev => stamped (now env (snd probe)) dev ∧
                           ∃ item, item ∈ items ∧ made_from item dev) fresh ∧
        (forall item m, item ∈ items -> status_state (snd item) = "up" ->
                        addresses_mac (snd item) = Some m -> m ≠ EmptyString ->
                        Nmap.mkDevice (upper m) (display_name item) (fst item)
                          (now env (snd probe)) ∈ fresh) ∧
        (clock_monotone env -> now env (snd probe) <= now env w2)
  end.
Proof.
  rewrite sweep_run. cbv zeta.
  destruct (portscanner_scan env _ _ (world h)) as [[|items] w1]; cbn [fst snd].
  - intros [= <- <-]. split; reflexivity.
  - match goal with |- context [Nmap.scan_loop env ?t ?c items ?hh] =>
      destruct (scan_loop_facts env t items hh)
        as (fresh & arps & w2 & Hloop & Harps & Hlen & Hfresh & Hmac & Hmono);
      rewrite (Hloop c) end.
    intros [= <- <-]. split; [reflexivity|].
    exists fresh, w2. cbn [world] in Hmono. repeat split; auto.
    cbn [with_devices self world io_log]. rewrite Harps. now rewrite <- app_assoc.
Qed.

(** ** What the sweep keeps true *)

(** X14.  The sweep keeps the hardware addresses of its records in
    upper case: if every record held before a refresh has its address
    in upper case, so has every record held after it, whether the probe
    delivered or failed.  (A new scanner holds no record.) *)
Theorem sweep_keeps_upper_case {W : Type} (env : Env W) (h : Heap Nmap.Scanner W)
    (r : result bool) (h' : Heap Nmap.Scanner W) :
  Nmap._update_info env h = (r, h') ->
  upper_macs (Nmap.last_results (self h)) ->
  upper_macs (Nmap.last_results (self h')).
Proof.
  intros Hrun Hold. apply sweep_facts in Hrun. cbv zeta in Hrun.
  destruct (fst (portscanner_scan env _ _ (world h))) as [|items].
  - destruct Hrun as [_ ->]. exact Hold.
  - destruct Hrun as (_ & fresh & w2 & -> & _ & Hfresh & _).
    cbn [self Nmap.last_results Nmap.set_last_results].
    unfold upper_macs in *. apply Forall_app. split.
    + apply Forall_forall. intros dev Hin.
      apply carried_old in Hin as [Hin _].
      rewrite Forall_forall in Hold. now apply Hold.
    + eapply Forall_impl; [exact Hfresh|]. now intros dev [[_ Hup] _].
Qed.

(** A device reported in lower case is recorded in upper case. *)
Lemma sweep_keeps_upper_case_witness :
  upper_macs
    (Nmap.last_results
       (self (snd (Nmap._update_info TestWorld.laptop_network TestWorld.sweeper)))).
Proof.
  apply (sweep_keeps_upper_case TestWorld.laptop_network TestWorld.sweeper
           (fst (Nmap._update_info TestWorld.laptop_network TestWorld.sweeper))
           (snd (Nmap._update_info TestWorld.laptop_network TestWorld.sweeper))).
  - reflexivity.
  - repeat constructor.
Defined.

(** X15.  With a clock that does not go back, the sweep never holds a
    record stamped later than the clock reads: if that is so before a
    refresh, it is so after it, whether the probe delivered or failed. *)
Theorem sweep_keeps_timestamps_past {W : Type} (env : Env W) (h : Heap Nmap.Scanner W)
    (r : result bool) (h' : Heap Nmap.Scanner W) :
  clock_monotone env ->
  Nmap._update_info env h = (r, h') ->
  not_after (now env (world h)) (Nmap.last_results (self h)) ->
  now env (world h) <= now env (world h') ∧
  not_after (now env (world h')) (Nmap.last_results (self h')).
Proof.
  intros Hmono Hrun Hold. apply sweep_facts in Hrun. cbv zeta in Hrun.
  pose proof Hmono as (_ & Hprobe & _).
  match type of Hrun with context [portscanner_scan env ?hs ?opts (world h)] =>
    specialize (Hprobe hs opts (world h));
    destruct (portscanner_scan env hs opts (world h)) as [[|items] w1] end;
    cbn [fst snd] in *.
  - destruct Hrun as [_ ->]. cbn [world self]. split; [exact Hprobe|].
    unfold not_after in *. eapply Forall_impl; [exact Hold|]. cbn. intros; lia.
  - destruct Hrun as (_ & fresh & w2 & -> & _ & Hfresh & _ & Hw2).
    specialize (Hw2 Hmono).
    cbn [world self Nmap.last_results Nmap.set_last_results].
    split; [lia|]. unfold not_after in *. apply Forall_app. split.
    + apply Forall_forall. intros dev Hin.
      apply carried_old in Hin as [Hin _].
      rewrite Forall_forall in Hold. specialize (Hold dev Hin). cbn in Hold. lia.
    + eapply Forall_impl; [exact Hfresh|]. intros dev [[Hs _] _]. cbn. lia.
Qed.

(** The test network's clock stands still, which is not going back. *)
Lemma sweep_keeps_timestamps_past_witness :
  not_after (minutes 10)
    (Nmap.last_results
       (self (snd (Nmap._update_info TestWorld.laptop_network TestWorld.sweeper)))).
Proof.
  apply (sweep_keeps_timestamps_past TestWorld.laptop_network TestWorld.sweeper
           (fst (Nmap._update_info TestWorld.laptop_network TestWorld.sweeper))
           (snd (Nmap._update_info TestWorld.laptop_network TestWorld.sweeper))).
  - repeat split; intros; cbn; lia.
  - reflexivity.
  - repeat constructor; vm_compute; discriminate.
Defined.

(** ** The sweep without a home interval *)

(** X16.  With a home interval of zero nothing is excluded and nothing
    is carried over: the probe gets the plain options, and after a
    refresh that succeeded every record of the result was made from a
    host of this probe and is stamped with the reading taken after it;
    the records held before are all gone. *)
Theorem sweep_without_home_interval {W : Type} (env : Env W)
    (h : Heap Nmap.Scanner W) (r : result bool) (h' : Heap Nmap.Scanner W) :
  Nmap.home_interval (self h) = 0 ->
  Nmap._update_info env h = (r, h') ->
  let probe := portscanner_scan env (Nmap.hosts (self h)) "-F --host-timeout 5" (world h) in
  (∃ arps, io_log h' = io_log h
                       ++ NmapScan (Nmap.hosts (self h)) "-F --host-timeout 5" :: arps) ∧
  (r = Returns true ->
   ∃ items, fst probe = ScanResult items ∧
     Forall (fun dev => stamped (now env (snd probe)) dev ∧
                        ∃ item, item ∈ items ∧ made_from item dev)
            (Nmap.last_results (self h'))).
Proof.
  intros Hzero Hrun probe. apply sweep_facts in Hrun. cbv zeta in Hrun.
  rewrite Hzero in Hrun. rewrite bool_decide_eq_false_2 in Hrun by (intros H; now apply H).
  cbn [Nmap.exclude_options] in Hrun. unfold Nmap.base_options in Hrun. fold probe in Hrun.
  unfold probe in *. clear probe.
  destruct (portscanner_scan env _ _ (world h)) as [[|items] w1]; cbn [fst snd] in *.
  - destruct Hrun as [-> ->]. split; [|intros Hr; discriminate Hr].
    exists (@nil io_event). reflexivity.
  - destruct Hrun as (-> & fresh & w2 & -> & _ & Hfresh & _).
    split; [eexists; reflexivity|]. intros _. exists items. split; [reflexivity|].
    exact Hfresh.
Qed.

(** The sweeper of the test world with its home interval taken away. *)
Lemma sweep_without_home_interval_witness :
  ∃ arps,
    io_log (snd (Nmap._update_info TestWorld.laptop_network
                   (mkHeap (Nmap.mkScanner [TestWorld.phone] "192.168.1.0/24" 0 true)
                      (minutes 10) [])))
    = [] ++ NmapScan "192.168.1.0/24" "-F --host-timeout 5" :: arps.
Proof.
  apply (sweep_without_home_interval TestWorld.laptop_network
           (mkHeap (Nmap.mkScanner [TestWorld.phone] "192.168.1.0/24" 0 true)
              (minutes 10) [])
           (fst (Nmap._update_info TestWorld.laptop_network
                   (mkHeap (Nmap.mkScanner [TestWorld.phone] "192.168.1.0/24" 0 true)
                      (minutes 10) [])))
           (snd (Nmap._update_info TestWorld.laptop_network
                   (mkHeap (Nmap.mkScanner [TestWorld.phone] "192.168.1.0/24" 0 true)
                      (minutes 10) [])))).
  - reflexivity.
  - reflexivity.
Defined.

(** ** What the sweep asks and what it records *)

(** X17.  A refresh of the sweep makes one probe, and then one address
    lookup for each host that the probe reports up without a usable
    hardware address, in the order of the probe result, and no other
    call; a failed probe is followed by no lookup.  The result grows by
    at most one record per host reported up. *)
Theorem sweep_calls {W : Type} (env : Env W) (h : Heap Nmap.Scanner W)
    (r : result bool) (h' : Heap Nmap.Scanner W) :
  Nmap._update_info env h = (r, h') ->
  ∃ options,
    match fst (portscanner_scan env (Nmap.hosts (self h)) options (world h)) with
    | ScanRaises =>
        io_log h' = io_log h ++ [NmapScan (Nmap.hosts (self h)) options] ∧
        self h' = self h
    | ScanResult items =>
        io_log h' = io_log h ++ NmapScan (Nmap.hosts (self h)) options
                      :: map (fun item => ArpLookup (fst item)) (filter needs_arp items) ∧
        (length (Nmap.last_results (self h'))
         <= length (Nmap.last_results (self h)) + length (up_hosts items))%nat
    end.
Proof.
  intros Hrun. apply sweep_facts in Hrun. cbv zeta in Hrun.
  match type of Hrun with context [portscanner_scan env ?hs ?opts (world h)] =>
    exists opts; destruct (portscanner_scan env hs opts (world h)) as [[|items] w1] end;
    cbn [fst snd] in *.
  - destruct Hrun as [_ ->]. split; reflexivity.
  - destruct Hrun as (_ & fresh & w2 & -> & Hlen & _).
    split; [reflexivity|].
    cbn [self Nmap.last_results Nmap.set_last_results]. rewrite length_app.
    assert ((length (if bool_decide (Nmap.home_interval (self h) ≠ 0%Z)
                     then Nmap.seen_since
                            (now env (world h) - Nmap.home_interval (self h))
                            (Nmap.last_results (self h))
                     else []) <= length (Nmap.last_results (self h)))%nat).
    { destruct (bool_decide _); [apply length_filter | cbn; lia]. }
    lia.
Qed.

(** The laptop came with its address: one probe, no lookup. *)
Lemma sweep_calls_witness :
  ∃ options,
    match fst (portscanner_scan TestWorld.laptop_network
                 (Nmap.hosts (self TestWorld.sweeper)) options (world TestWorld.sweeper)) with
    | ScanRaises => True
    | ScanResult items =>
        io_log (snd (Nmap._update_info TestWorld.laptop_network TestWorld.sweeper))
        = [] ++ NmapScan "192.168.1.0/24" options
               :: map (fun item => ArpLookup (fst item)) (filter needs_arp items)
    end.
Proof.
  destruct (sweep_calls TestWorld.laptop_network TestWorld.sweeper
              (fst (Nmap._update_info TestWorld.laptop_network TestWorld.sweeper))
              (snd (Nmap._update_info TestWorld.laptop_network TestWorld.sweeper))
              eq_refl) as [options Hcalls].
  exists options. cbn in Hcalls |- *. exact (proj1 Hcalls).
Defined.

(** X18.  After a refresh of the sweep that succeeded, every record of
    the result is either a record held before, unchanged, or a record
    made from a host that the probe reported up: it carries that host's
    IP address, the host's first hostname or else its IP address as
    name, an upper-case hardware address and the reading taken after the
    probe.  Every host reported up with a hardware address of its own
    has its record in the result. *)
Theorem sweep_records {W : Type} (env : Env W) (h h' : Heap Nmap.Scanner W) :
  Nmap._update_info env h = (Returns true, h') ->
  ∃ options items w1,
    portscanner_scan env (Nmap.hosts (self h)) options (world h) = (ScanResult items, w1) ∧
    (forall dev, dev ∈ Nmap.last_results (self h') ->
       dev ∈ Nmap.last_results (self h) ∨
       (stamped (now env w1) dev ∧ ∃ item, item ∈ items ∧ made_from item dev)) ∧
    (forall item m, item ∈ items -> status_state (snd item) = "up" ->
       addresses_mac (snd item) = Some m -> m ≠ EmptyString ->
       Nmap.mkDevice (upper m) (display_name item) (fst item) (now env w1)
       ∈ Nmap.last_results (self h')).
Proof.
  intros Hrun. apply sweep_facts in Hrun. cbv zeta in Hrun.
  match type of Hrun with context [portscanner_scan env ?hs ?opts (world h)] =>
    exists opts; destruct (portscanner_scan env hs opts (world h)) as [[|items] w1] end;
    cbn [fst snd] in Hrun.
  - destruct Hrun as [Hr _]. discriminate.
  - destruct Hrun as (_ & fresh & w2 & -> & _ & Hfresh & Hmac & _).
    exists items, w1. split; [reflexivity|].
    cbn [self Nmap.last_results Nmap.set_last_results]. split.
    + intros dev Hin. apply elem_of_app in Hin as [Hin|Hin].
      * left. now apply carried_old in Hin as [Hin _].
      * right. rewrite Forall_forall in Hfresh. now apply Hfresh.
    + intros item m Hin Hup Hm Hne. apply elem_of_app. right. now apply (Hmac item m).
Qed.

(** The laptop of the test network is recorded under its hostname. *)
Lemma sweep_records_witness :
  Nmap.mkDevice "AA:BB:CC:DD:EE:02" "laptop" "192.168.1.11" (minutes 10)
  ∈ Nmap.last_results
      (self (snd (Nmap._update_info TestWorld.laptop_network TestWorld.sweeper))).
Proof.
  destruct (sweep_records TestWorld.laptop_network TestWorld.sweeper
              (snd (Nmap._update_info TestWorld.laptop_network TestWorld.sweeper))
              eq_refl) as (options & items & w1 & Hprobe & _ & Hmac).
  cbn in Hprobe. injection Hprobe as <- <-.
  apply (Hmac ("192.168.1.11", mkHostInfo "up" ["laptop"] (Some "aa:bb:cc:dd:ee:02"))
           "aa:bb:cc:dd:ee:02").
  - constructor.
  - reflexivity.
  - reflexivity.
  - discriminate.
Defined.

(** ** Names in the sweep *)

Lemma sweep_name_first {W : Type} (q : string) (h : Heap Nmap.Scanner W) :
  Nmap.get_device_name q h
  = (Returns (head (map Nmap.name
                      (filter (fun device => Nmap.mac device = q)
                              (Nmap.last_results (self h))))), h).
Proof.
  unfold Nmap.get_device_name. unfold_monad.
  now destruct (map Nmap.name _).
Qed.

(** X19.  While a device is within its home interval the sweep keeps
    answering with the name it recorded earlier: after a refresh that
    succeeded, the name returned for the address of a carried record is
    the name of a record held before the refresh and seen since the
    boundary, whatever the probe reported for that address. *)
Theorem carried_name_wins {W : Type} (env : Env W) (h h' : Heap Nmap.Scanner W)
    (dev : Nmap.Device) :
  Nmap._update_info env h = (Returns true, h') ->
  Nmap.home_interval (self h) ≠ 0 ->
  dev ∈ Nmap.last_results (self h) ->
  now env (world h) - Nmap.home_interval (self h) < Nmap.last_update dev ->
  ∃ old, old ∈ Nmap.last_results (self h) ∧
         Nmap.mac old = Nmap.mac dev ∧
         now env (world h) - Nmap.home_interval (self h) < Nmap.last_update old ∧
         Nmap.get_device_name (Nmap.mac dev) h' = (Returns (Some (Nmap.name old)), h').
Proof.
  intros Hrun Hhome Hin Hrecent. apply sweep_facts in Hrun. cbv zeta in Hrun.
  rewrite bool_decide_eq_true_2 in Hrun by assumption.
  destruct (fst (portscanner_scan env _ _ (world h))) as [|items].
  - destruct Hrun as [Hr _]. discriminate.
  - destruct Hrun as (_ & fresh & w2 & -> & _).
    rewrite sweep_name_first.
    cbn [self Nmap.last_results Nmap.set_last_results].
    rewrite filter_app, map_app.
    set (carried := Nmap.seen_since _ _).
    assert (Hc : dev ∈ filter (fun device => Nmap.mac device = Nmap.mac dev) carried).
    { apply list_elem_of_filter. split; [reflexivity|].
      unfold carried, Nmap.seen_since. apply list_elem_of_filter. auto. }
    destruct (filter (fun device => Nmap.mac device = Nmap.mac dev) carried)
      as [|old rest] eqn:E; [now apply not_elem_of_nil in Hc|].
    assert (Hold : old ∈ filter (fun device => Nmap.mac device = Nmap.mac dev) carried)
      by (rewrite E; constructor).
    apply list_elem_of_filter in Hold as [Hmac Hold].
    unfold carried, Nmap.seen_since in Hold. apply list_elem_of_filter in Hold as [Hb Hold].
    exists old. repeat split; auto.
Qed.

(** The probe finds the phone under a new hostname; the phone was seen
    a minute ago, so the old name is the one returned. *)
Lemma carried_name_wins_witness :
  fst (Nmap.get_device_name "AA:BB:CC:DD:EE:01"
         (snd (Nmap._update_info TestWorld.renaming_network TestWorld.sweeper)))
  = Returns (Some "phone").
Proof.
  destruct (carried_name_wins TestWorld.renaming_network TestWorld.sweeper
              (snd (Nmap._update_info TestWorld.renaming_network TestWorld.sweeper))
              TestWorld.phone)
    as (old & Hin & Hmac & _ & Hname).
  - reflexivity.
  - discriminate.
  - constructor.
  - reflexivity.
  - change (Nmap.mac TestWorld.phone) with "AA:BB:CC:DD:EE:01" in Hname.
    rewrite Hname. cbn [fst].
    apply elem_of_cons in Hin as [->|Hin]; [reflexivity|].
    apply list_elem_of_singleton in Hin. subst old. discriminate Hmac.
Defined.

(** X20.  In the sweep, the ids that [scan_devices] returns are exactly
    the ids that [get_device_name] can name on the scanner as the call
    left it: every returned id has a name, and an id with a name is among
    the returned ones.  A name lookup never changes the scanner. *)
Theorem sweep_ids_have_names {W : Type} (env : Env W) (t t' : Throttled Nmap.Scanner W)
    (ids : list string) :
  Nmap.scan_devices env t = (Returns ids, t') ->
  forall q, q ∈ ids <->
            ∃ n, Nmap.get_device_name q (heap t') = (Returns (Some n), heap t').
Proof.
  intros Hrun q.
  pose proof (scan_run env MIN_TIME_BETWEEN_SCANS (Nmap._update_info env)
                (fun h => map Nmap.mac (Nmap.last_results (self h))) t) as Hscan.
  change (Throttle env MIN_TIME_BETWEEN_SCANS (Nmap._update_info env)
          ≫= (fun _ : bool =>
                lift_heap (gets (fun h => map Nmap.mac (Nmap.last_results (self h))))))
    with (Nmap.scan_devices env) in Hscan.
  rewrite Hrun in Hscan.
  destruct (Throttle env MIN_TIME_BETWEEN_SCANS (Nmap._update_info env) t)
    as [[ok|e] t1]; [|discriminate].
  injection Hscan as -> ->. rewrite sweep_name_first. split.
  - intros Hin. apply list_elem_of_In, in_map_iff in Hin as (dev & Hmac & Hin).
    apply list_elem_of_In in Hin.
    assert (Hf : dev ∈ filter (fun device => Nmap.mac device = q)
                         (Nmap.last_results (self (heap t1))))
      by (apply list_elem_of_filter; auto).
    destruct (filter _ _) as [|d l]; [now apply not_elem_of_nil in Hf|].
    exists (Nmap.name d). reflexivity.
  - intros [n Hn].
    destruct (filter (fun device => Nmap.mac device = q)
                (Nmap.last_results (self (heap t1)))) as [|d l] eqn:E; [discriminate|].
    assert (Hf : d ∈ filter (fun device => Nmap.mac device = q)
                       (Nmap.last_results (self (heap t1))))
      by (rewrite E; constructor).
    apply list_elem_of_filter in Hf as [Hmac Hin].
    apply list_elem_of_In, in_map_iff. exists d. split; [exact Hmac|].
    now apply list_elem_of_In.
Qed.

(** The sweeper's first call: the phone and the laptop, both with a
    name. *)
Lemma sweep_ids_have_names_witness :
  ∃ n, Nmap.get_device_name "AA:BB:CC:DD:EE:02"
         (heap (snd (Nmap.scan_devices TestWorld.laptop_network
                       (TestWorld.unthrottled TestWorld.sweeper))))
       = (Returns (Some n),
          heap (snd (Nmap.scan_devices TestWorld.laptop_network
                       (TestWorld.unthrottled TestWorld.sweeper)))).
Proof.
  apply (sweep_ids_have_names TestWorld.laptop_network
           (TestWorld.unthrottled TestWorld.sweeper)
           (snd (Nmap.scan_devices TestWorld.laptop_network
                   (TestWorld.unthrottled TestWorld.sweeper)))
           ["AA:BB:CC:DD:EE:01"; "AA:BB:CC:DD:EE:02"]).
  - reflexivity.
  - apply elem_of_cons. right. constructor.
Defined.

(** ** Exceptions *)

Lemma exn_eqb_false (e : exn) : exn_eqb e RequestsTimeout = false -> e ≠ RequestsTimeout.
Proof. intros H ->. discriminate. Qed.

(** X21.  The router poll raises nothing of its own: a refresh or a
    name lookup ends with an exception only when [requests.get] raised
    it, and it was not a timeout; the scanner object is then as it was
    (no result and no name is lost).  In particular the loop over the
    lease table never reads outside the list. *)
Theorem poll_exceptions {W : Type} (env : Env W) (device : string)
    (h : Heap DdWrt.Scanner W) (e : exn) (h' : Heap DdWrt.Scanner W) :
  ((DdWrt._update_info env h = (Raises e, h')) ->
   fst (requests_get env (DdWrt.wireless_url (DdWrt.host (self h)))
          (DdWrt.username (self h), DdWrt.password (self h)) (world h)) = HttpRaises e ∧
   e ≠ RequestsTimeout ∧ self h' = self h) ∧
  ((DdWrt.get_device_name env device h = (Raises e, h')) ->
   (device ∉ dom (DdWrt.mac2name (self h))) ∧
   fst (requests_get env (DdWrt.lan_url (DdWrt.host (self h)))
          (DdWrt.username (self h), DdWrt.password (self h)) (world h)) = HttpRaises e ∧
   e ≠ RequestsTimeout ∧ self h' = self h).
Proof.
  split.
  - rewrite update_info_run. cbv zeta.
    destruct (negb _); [discriminate|].
    destruct (requests_get env _ _ (world h)) as [[e0|status text] w']; cbn [fst].
    + destruct (exn_eqb e0 RequestsTimeout) eqn:He; [discriminate|].
      intros [= <- <-]. repeat split. now apply exn_eqb_false.
    + case_run; discriminate.
  - rewrite get_device_name_run. cbv zeta.
    destruct (bool_decide _) eqn:Hdom; [discriminate|].
    apply bool_decide_eq_false in Hdom.
    destruct (requests_get env _ _ (world h)) as [[e0|status text] w']; cbn [fst].
    + destruct (exn_eqb e0 RequestsTimeout) eqn:He; [discriminate|].
      intros [= <- <-]. repeat split; auto. now apply exn_eqb_false.
    + case_run; discriminate.
Qed.

(** The refused connection, traced back to the request. *)
Lemma poll_exceptions_witness :
  fst (requests_get TestWorld.refusing_router
         (DdWrt.lan_url (DdWrt.host (self TestWorld.busy_poller)))
         (DdWrt.username (self TestWorld.busy_poller),
          DdWrt.password (self TestWorld.busy_poller))
         (world TestWorld.busy_poller))
  = HttpRaises RequestsConnectionError ∧
  self (snd (DdWrt.get_device_name TestWorld.refusing_router "AA:BB:CC:DD:EE:02"
               TestWorld.busy_poller))
  = self TestWorld.busy_poller.
Proof.
  destruct (proj2 (poll_exceptions TestWorld.refusing_router "AA:BB:CC:DD:EE:02"
                     TestWorld.busy_poller RequestsConnectionError
                     (snd (DdWrt.get_device_name TestWorld.refusing_router
                             "AA:BB:CC:DD:EE:02" TestWorld.busy_poller)))
              eq_refl) as (_ & Hraise & _ & Hself).
  split; [exact Hraise | exact Hself].
Defined.

